(** * State synchronisation and content fingerprints of blackroad-environments

    A shallow embedding of [src/utils/hash.ts] (digests, [hash]/[verify],
    [hashState], hash chains and Merkle roots), of the state helpers of
    [src/clients/cloudflare.ts], of the retry logic of [src/clients/base.ts]
    and of [src/state/manager.ts] (record store, queries, export and
    import, pull/push reconciliation, conflict resolution, task queue),
    followed by the properties of the design document that were checked
    against them and by further properties of the code. *)

From Stdlib Require Import ZArith List String Ascii Bool Lia Permutation.
From Stdlib Require Import DecimalString.
Import ListNotations.

Set Implicit Arguments.

(** ** Node's [crypto.createHash]: SHA-2 (FIPS 180-4)

    [createHash] is a runtime built-in, not repository code.  It is given
    here by the standard itself, over words held in [Z] with the wrap-around
    written out, so that every fingerprint below can be evaluated. *)
Module Sha2.
Local Open Scope Z_scope.

(** The constants of the standard are fractional parts of roots of the
    first primes, and are computed here rather than tabulated. *)
Fixpoint primesFrom (fuel : nat) (candidate : Z) (count : nat) (found : list Z) : list Z :=
  match fuel, count with
  | O, _ | _, O => rev found
  | S fuel', S count' =>
      if forallb (fun p => negb (candidate mod p =? 0)) found
      then primesFrom fuel' (candidate + 1) count' (candidate :: found)
      else primesFrom fuel' (candidate + 1) count found
  end.

Definition firstPrimes (n : nat) : list Z := primesFrom 500 2 n [].

(** Largest [r] below [2 ^ bits] with [r ^ k <= n], found bit by bit. *)
Fixpoint floorRoot (k n : Z) (bits : nat) (r : Z) : Z :=
  match bits with
  | O => r
  | S bits' =>
      let r' := r + 2 ^ Z.of_nat bits' in
      floorRoot k n bits' (if r' ^ k <=? n then r' else r)
  end.

(** The first [bits] bits of the fractional part of the [k]-th root of [p]. *)
Definition rootFraction (k bits p : Z) : Z :=
  floorRoot k (p * 2 ^ (bits * k)) 72 0 mod 2 ^ bits.

Definition K256 : list Z := Eval vm_compute in map (rootFraction 3 32) (firstPrimes 64).
Definition H256 : list Z := Eval vm_compute in map (rootFraction 2 32) (firstPrimes 8).
Definition K512 : list Z := Eval vm_compute in map (rootFraction 3 64) (firstPrimes 80).
Definition H512 : list Z := Eval vm_compute in map (rootFraction 2 64) (firstPrimes 8).
Definition H384 : list Z :=
  Eval vm_compute in map (rootFraction 2 64) (skipn 8 (firstPrimes 16)).

(** One member of the family: word size, round constants, initial value,
    rotation amounts of the four sigma functions, digest size in words. *)
Record Variant : Type := mkVariant {
  wordBits : Z;
  roundK : list Z;
  initial : list Z;
  bigSigma0 : Z * Z * Z;
  bigSigma1 : Z * Z * Z;
  smallSigma0 : Z * Z * Z;
  smallSigma1 : Z * Z * Z;
  digestWords : nat
}.

Definition SHA256 : Variant :=
  mkVariant 32 K256 H256 (2, 13, 22) (6, 11, 25) (7, 18, 3) (17, 19, 10) 8.
Definition SHA384 : Variant :=
  mkVariant 64 K512 H384 (28, 34, 39) (14, 18, 41) (1, 8, 7) (19, 61, 6) 6.
Definition SHA512 : Variant :=
  mkVariant 64 K512 H512 (28, 34, 39) (14, 18, 41) (1, 8, 7) (19, 61, 6) 8.

Section Compression.
Variable v : Variant.

Let w := wordBits v.

Definition wrap (x : Z) : Z := Z.land x (Z.ones w).
Definition plus (x y : Z) : Z := wrap (x + y).
Definition rotr (n x : Z) : Z :=
  Z.lor (Z.shiftr x n) (wrap (Z.shiftl x (w - n))).
Definition complement (x : Z) : Z := Z.lxor x (Z.ones w).
Definition Ch (x y z : Z) : Z :=
  Z.lxor (Z.land x y) (Z.land (complement x) z).
Definition Maj (x y z : Z) : Z :=
  Z.lxor (Z.lxor (Z.land x y) (Z.land x z)) (Z.land y z).
Definition bigSigma (r : Z * Z * Z) (x : Z) : Z :=
  let '(a, b, c) := r in Z.lxor (Z.lxor (rotr a x) (rotr b x)) (rotr c x).
Definition smallSigma (r : Z * Z * Z) (x : Z) : Z :=
  let '(a, b, c) := r in Z.lxor (Z.lxor (rotr a x) (rotr b x)) (Z.shiftr x c).

(** Message schedule, kept newest word first while it is extended. *)
Fixpoint extend (n : nat) (newest : list Z) : list Z :=
  match n with
  | O => newest
  | S n' =>
      let at_ i := nth i newest 0 in
      let wt := plus (plus (smallSigma (smallSigma1 v) (at_ 1%nat)) (at_ 6%nat))
                     (plus (smallSigma (smallSigma0 v) (at_ 14%nat)) (at_ 15%nat)) in
      extend n' (wt :: newest)
  end.

Definition schedule (block : list Z) : list Z :=
  rev (extend (List.length (roundK v) - 16) (rev block)).

Definition Regs : Type := (Z * Z * Z * Z * Z * Z * Z * Z)%type.

Definition round (s : Regs) (kw : Z * Z) : Regs :=
  let '(a, b, c, d, e, f, g, h) := s in
  let t1 := plus (plus (plus h (bigSigma (bigSigma1 v) e)) (Ch e f g))
                 (plus (fst kw) (snd kw)) in
  let t2 := plus (bigSigma (bigSigma0 v) a) (Maj a b c) in
  (plus t1 t2, a, b, c, plus d t1, e, f, g).

Definition regs_of (l : list Z) : Regs :=
  let at_ i := nth i l 0 in
  (at_ 0%nat, at_ 1%nat, at_ 2%nat, at_ 3%nat,
   at_ 4%nat, at_ 5%nat, at_ 6%nat, at_ 7%nat).

Definition list_of (s : Regs) : list Z :=
  let '(a, b, c, d, e, f, g, h) := s in [a; b; c; d; e; f; g; h].

Definition compress (H : list Z) (block : list Z) : list Z :=
  let s := fold_left round (combine (roundK v) (schedule block)) (regs_of H) in
  map (fun p => plus (fst p) (snd p)) (combine H (list_of s)).

(** Big-endian conversions between bytes and words. *)
Definition be_value (bytes : list Z) : Z :=
  fold_left (fun acc b => acc * 256 + b) bytes 0.

Fixpoint be_bytes (n : nat) (x : Z) : list Z :=
  match n with
  | O => []
  | S n' => be_bytes n' (x / 256) ++ [x mod 256]
  end.

Fixpoint chunks (A : Type) (fuel size : nat) (l : list A) : list (list A) :=
  match fuel, l with
  | O, _ | _, [] => []
  | S fuel', _ => firstn size l :: chunks fuel' size (skipn size l)
  end.

Definition wordBytes : nat := Z.to_nat (w / 8).
Definition blockBytes : nat := (16 * wordBytes)%nat.

(** Padding: a one bit, zeros, then the bit length on two words. *)
Definition pad (msg : list Z) : list Z :=
  let n := Z.of_nat (List.length msg) in
  let block := Z.of_nat blockBytes in
  let lenBytes := Z.of_nat (2 * wordBytes) in
  let zeros := (block - (n + 1 + lenBytes) mod block) mod block in
  msg ++ [128] ++ repeat 0 (Z.to_nat zeros)
      ++ be_bytes (2 * wordBytes) (8 * n).

Definition digest (msg : list Z) : list Z :=
  let padded := pad msg in
  let words := map be_value (chunks (List.length padded) wordBytes padded) in
  let blocks := chunks (List.length words) 16 words in
  let H := fold_left compress blocks (initial v) in
  flat_map (be_bytes wordBytes) (firstn (digestWords v) H).
End Compression.

End Sha2.

(** ** Strings, bytes and output encodings

    A JavaScript string is held as a Rocq [string] whose characters are
    read as code units below 256; [update(string)] hashes its UTF-8 bytes,
    which for such a code unit are one byte below 128 and two bytes above. *)
Local Open Scope string_scope.

Definition utf8 (s : string) : list Z :=
  flat_map (fun c : ascii =>
              let n := Z.of_N (N_of_ascii c) in
              if (n <? 128)%Z then [n]
              else [Z.lor 192 (Z.shiftr n 6); Z.lor 128 (Z.land n 63)])
           (list_ascii_of_string s).

Definition char_at (alphabet : string) (i : Z) : string :=
  match String.get (Z.to_nat i) alphabet with
  | Some c => String c EmptyString
  | None => EmptyString
  end.

Definition hexDigits : string := "0123456789abcdef".

Definition toHex (bytes : list Z) : string :=
  String.concat EmptyString
    (map (fun b => char_at hexDigits (b / 16) ++ char_at hexDigits (b mod 16)) bytes).

Definition hexValue (c : ascii) : option Z :=
  let n := Z.of_N (N_of_ascii c) in
  if ((48 <=? n) && (n <=? 57))%Z then Some (n - 48)%Z
  else if ((97 <=? n) && (n <=? 102))%Z then Some (n - 87)%Z
  else if ((65 <=? n) && (n <=? 70))%Z then Some (n - 55)%Z
  else None.

(** [Buffer.from(s, 'hex')]: pairs of hex digits, stopping at the first
    pair that is not one. *)
Fixpoint fromHex (s : string) : list Z :=
  match s with
  | String a (String b rest) =>
      match hexValue a, hexValue b with
      | Some x, Some y => (16 * x + y)%Z :: fromHex rest
      | _, _ => []
      end
  | _ => []
  end.

Definition base64Alphabet : string :=
  "ABCDEFGHIJKLMNOPQRSTUVWXYZabcdefghijklmnopqrstuvwxyz0123456789+/".
Definition base64urlAlphabet : string :=
  "ABCDEFGHIJKLMNOPQRSTUVWXYZabcdefghijklmnopqrstuvwxyz0123456789-_".

(** Three bytes give four characters; a last group of one or two bytes is
    completed with [padding] (["="] for base64, nothing for base64url). *)
Fixpoint toBase64With (alphabet padding : string) (bytes : list Z) : string :=
  let sym := char_at alphabet in
  match bytes with
  | [] => EmptyString
  | [a] => sym (a / 4) ++ sym (a mod 4 * 16) ++ padding ++ padding
  | [a; b] =>
      sym (a / 4) ++ sym (a mod 4 * 16 + b / 16) ++ sym (b mod 16 * 4) ++ padding
  | a :: b :: c :: rest =>
      sym (a / 4) ++ sym (a mod 4 * 16 + b / 16)
          ++ sym (b mod 16 * 4 + c / 64) ++ sym (c mod 64)
          ++ toBase64With alphabet padding rest
  end%Z.

Inductive Encoding : Type := hex | base64 | base64url.

Definition bufferToString (e : Encoding) (bytes : list Z) : string :=
  match e with
  | hex => toHex bytes
  | base64 => toBase64With base64Alphabet "=" bytes
  | base64url => toBase64With base64urlAlphabet EmptyString bytes
  end.

(** The digest algorithms [createHash] is called with. *)
Inductive Digest : Type := SHA_256 | SHA_384 | SHA_512.

Definition variantOf (d : Digest) : Sha2.Variant :=
  match d with
  | SHA_256 => Sha2.SHA256
  | SHA_384 => Sha2.SHA384
  | SHA_512 => Sha2.SHA512
  end.

(** [createHash(d).update(data).digest(e)] *)
Definition createHash (d : Digest) (data : string) (e : Encoding) : string :=
  bufferToString e (Sha2.digest (variantOf d) (utf8 data)).
Arguments createHash : simpl never.

(** ** [src/utils/hash.ts] *)

Definition sha256 (data : string) (encoding : Encoding) : string :=
  createHash SHA_256 data encoding.
Definition sha384 (data : string) (encoding : Encoding) : string :=
  createHash SHA_384 data encoding.
Definition sha512 (data : string) (encoding : Encoding) : string :=
  createHash SHA_512 data encoding.

(** [generateSalt]: [randomBytes(length).toString('hex')], the bytes drawn
    being an input of the model. *)
Definition generateSalt (randomBytes : list Z) : string := toHex randomBytes.

(** Decimal text of an integral number, as a template literal prints it. *)
Definition decimal (n : Z) : string := NilZero.string_of_int (Z.to_int n).

Definition SHA_INFINITY_ROUNDS : nat := 7.
Definition SHA_INFINITY_ALGORITHMS : list Digest := [SHA_256; SHA_384; SHA_512].

(** [for (let i = 0; i < iterations; i++) r = createHash(d).update(r).digest('hex')] *)
Fixpoint iterateDigest (d : Digest) (n : nat) (r : string) : string :=
  match n with
  | O => r
  | S n' => iterateDigest d n' (createHash d r hex)
  end.

Definition mixHashes (hash1 hash2 : string) (algorithm : Digest) : string :=
  createHash algorithm (hash1 ++ ":" ++ hash2) hex.

(** One round of the [shaInfinity] loop.  [Math.floor(b * Math.pow(1.5, round))]
    is [b * 3^round / 2^round] rounded down, exact in doubles for the
    iteration counts that can be run. *)
Definition shaInfinityRound (salt : string) (baseIterations : Z)
    (result : string) (round : nat) : string :=
  let algorithm :=
    nth (round mod List.length SHA_INFINITY_ALGORITHMS) SHA_INFINITY_ALGORITHMS SHA_256 in
  let roundSalt :=
    createHash SHA_256
      (salt ++ ":round:" ++ decimal (Z.of_nat round) ++ ":" ++ substring 0 16 result) hex in
  let iterations := (baseIterations * 3 ^ Z.of_nat round / 2 ^ Z.of_nat round)%Z in
  let roundResult :=
    iterateDigest algorithm (Z.to_nat iterations) (result ++ ":" ++ roundSalt) in
  mixHashes result roundResult algorithm.

(** [shaInfinity]; [randomBytes] is what [generateSalt(32)] draws when
    [baseSalt] is empty. *)
Definition shaInfinity (randomBytes : list Z) (data baseSalt : string)
    (baseIterations : Z) (encoding : Encoding) : string :=
  let salt := if String.eqb baseSalt EmptyString then generateSalt randomBytes else baseSalt in
  let result := fold_left (shaInfinityRound salt baseIterations)
                          (seq 0 SHA_INFINITY_ROUNDS) data in
  createHash SHA_512 result encoding.

Inductive Algorithm : Type := sha256_ | sha384_ | sha512_ | sha_infinity.

(** A property that an options object may leave out, or hold with the
    value [undefined], or hold with a value. *)
Inductive Optional (A : Type) : Type :=
| Omitted
| Undefined
| Present (a : A).
Arguments Omitted {A}.
Arguments Undefined {A}.

(** [Partial<HashOptions>]: an absent field is [None].  The iteration
    count can also be present as [undefined], which the code provides for
    with [?? 1]; a salt that is [undefined] is read like an absent one, and
    the algorithm and the encoding are absent or one of their values.  An
    iteration count is an integer. *)
Record HashOptions : Type := mkHashOptions {
  opt_algorithm : option Algorithm;
  opt_iterations : Optional Z;
  opt_salt : option string;
  opt_encoding : option Encoding
}.

Record HashResult : Type := mkHashResult {
  hr_hash : string;
  hr_algorithm : Algorithm;
  hr_iterations : Z;
  hr_salt : string;
  hr_timestamp : Z
}.

Record HashVerification : Type := mkHashVerification {
  valid : bool;
  hv_hash : HashResult;
  input : string
}.

Definition orDefault (A : Type) (o : option A) (d : A) : A :=
  match o with Some a => a | None => d end.

(** What a call reads from outside: the clock ([Date.now()]) and the bytes
    that [randomBytes] returns if it is called. *)
Record Entropy : Type := mkEntropy {
  now_ms : Z;
  random_bytes : list Z
}.

(** [opts.iterations] after [{ ...DEFAULT_OPTIONS, ...options }]: a property
    that is present replaces the default, also when its value is
    [undefined], which is [None] here. *)
Definition opts_iterations (options : HashOptions) : option Z :=
  match opt_iterations options with
  | Omitted => Some 100000%Z
  | Undefined => None
  | Present n => Some n
  end.

Definition hash (w : Entropy) (data : string) (options : HashOptions) : HashResult :=
  (* { ...DEFAULT_OPTIONS, ...options } *)
  let algorithm := orDefault (opt_algorithm options) sha256_ in
  let iterations := opts_iterations options in
  let opts_salt := orDefault (opt_salt options) EmptyString in
  let encoding := orDefault (opt_encoding options) hex in
  let salt :=
    if String.eqb opts_salt EmptyString then generateSalt (random_bytes w) else opts_salt in
  let timestamp := now_ms w in
  let standard (d : Digest) :=
    (* i < (opts.iterations ?? 1) *)
    let result :=
      iterateDigest d (Z.to_nat (orDefault iterations 1%Z)) (data ++ ":" ++ salt) in
    match encoding with
    | hex => result
    | _ => bufferToString encoding (fromHex result)
    end in
  let result :=
    match algorithm with
    | sha_infinity =>
        (* an undefined argument takes the default of [baseIterations] *)
        shaInfinity (random_bytes w) data salt (orDefault iterations 10000%Z) encoding
    | sha256_ => standard SHA_256
    | sha384_ => standard SHA_384
    | sha512_ => standard SHA_512
    end in
  mkHashResult result algorithm (orDefault iterations 1%Z) salt timestamp.

(** [timingSafeCompare]: the lengths compared are those of the strings; 
    [timingSafeEqual] itself throws a [RangeError] ([None]) when the two
    buffers differ in byte length, and otherwise tells whether all bytes agree. *)
Definition timingSafeEqual (bufA bufB : list Z) : option bool :=
  if Nat.eqb (List.length bufA) (List.length bufB)
  then Some (forallb (fun p => Z.eqb (fst p) (snd p)) (combine bufA bufB))
  else None.

Definition timingSafeCompare (a b : string) : option bool :=
  if negb (Nat.eqb (String.length a) (String.length b)) then Some false
  else timingSafeEqual (utf8 a) (utf8 b).

(** [verify]; [None] is the exception of [timingSafeEqual] passing through. *)
Definition verify (w : Entropy) (data : string) (hashResult : HashResult)
  : option HashVerification :=
  let recomputed :=
    hash w data
      (mkHashOptions (Some (hr_algorithm hashResult)) (Present (hr_iterations hashResult))
                     (Some (hr_salt hashResult)) (Some hex)) in
  match timingSafeCompare (hr_hash recomputed) (hr_hash hashResult) with
  | Some v => Some (mkHashVerification v hashResult data)
  | None => None
  end.

(** ** JSON values and [JSON.stringify] with an array replacer

    The payload of a record is a [Record<string, unknown>] holding JSON-like
    values.  An object is the list of its own properties in the order of its
    own keys; numbers are the integers that a double holds exactly and that
    [JSON.stringify] writes in full, those below [10^21] in magnitude. *)
#[local] Set Warnings "-register-all".
Inductive JSON : Type :=
| JNull
| JBool (b : bool)
| JNum (n : Z)
| JStr (s : string)
| JArr (items : list JSON)
| JObj (props : list (string * JSON)).

Definition Obj : Type := list (string * JSON).

(** [Object.keys(o)] and the property read [o[k]]. *)
Definition keys (A : Type) (o : list (string * A)) : list string := map fst o.

Fixpoint getProp (A : Type) (k : string) (o : list (string * A)) : option A :=
  match o with
  | [] => None
  | (k', v) :: rest => if String.eqb k' k then Some v else getProp k rest
  end.

(** [Array.prototype.sort()] without a comparator orders strings by code
    unit; on keys, which are pairwise distinct, every correct sort gives the
    list that insertion sort gives. *)
Fixpoint insertSorted (x : string) (l : list string) : list string :=
  match l with
  | [] => [x]
  | y :: rest => if String.leb x y then x :: l else y :: insertSorted x rest
  end.

Definition sort (l : list string) : list string := fold_right insertSorted [] l.

(** The [QuoteJSONString] of ECMA-262. *)
Definition dquote : string := String (ascii_of_nat 34) EmptyString.

Definition quoteChar (c : ascii) : string :=
  let n := Z.of_N (N_of_ascii c) in
  if (n =? 34)%Z then "\" ++ dquote
  else if (n =? 92)%Z then "\\"
  else if (n =? 8)%Z then "\b"
  else if (n =? 9)%Z then "\t"
  else if (n =? 10)%Z then "\n"
  else if (n =? 12)%Z then "\f"
  else if (n =? 13)%Z then "\r"
  else if (n <? 32)%Z then "\u00" ++ char_at hexDigits (n / 16) ++ char_at hexDigits (n mod 16)
  else String c EmptyString.

Definition quote (s : string) : string :=
  dquote ++ String.concat EmptyString (map quoteChar (list_ascii_of_string s)) ++ dquote.

(** [SerializeJSONProperty] when the replacer is an array: [propertyList]
    holds the replacer's strings, and it replaces the own keys of every
    object met, at every depth.  A listed key the object lacks reads as
    [undefined] and is left out. *)
Fixpoint serialize (propertyList : list string) (value : JSON) : string :=
  match value with
  | JNull => "null"
  | JBool true => "true"
  | JBool false => "false"
  | JNum n => decimal n
  | JStr s => quote s
  | JArr items =>
      "[" ++ String.concat "," (map (serialize propertyList) items) ++ "]"
  | JObj props =>
      let members :=
        (fix each (ps : list (string * JSON)) : list (string * string) :=
           match ps with
           | [] => []
           | (k, v) :: rest => (k, serialize propertyList v) :: each rest
           end) props in
      "{" ++ String.concat ","
               (flat_map (fun P => match getProp P members with
                                   | Some str => [quote P ++ ":" ++ str]
                                   | None => []
                                   end) propertyList)
          ++ "}"
  end.

(** The replacer array is read once, skipping strings already taken. *)
Fixpoint dedupe (l : list string) : list string :=
  match l with
  | [] => []
  | x :: rest => x :: filter (fun y => negb (String.eqb y x)) (dedupe rest)
  end.

(** [JSON.stringify(value, replacer)] with [replacer] an array of strings. *)
Definition stringify (value : JSON) (replacer : list string) : string :=
  serialize (dedupe replacer) value.

(** [hashState]: "Generate content-addressable hash for state records". *)
Definition hashState (state : Obj) : string :=
  let sorted := stringify (JObj state) (sort (keys state)) in
  sha256 sorted hex.

(** [Number.prototype.toString(36)] of a non-negative integer. *)
Fixpoint radix36 (fuel : nat) (n : Z) : string :=
  match fuel with
  | O => EmptyString
  | S fuel' =>
      let digit := char_at "0123456789abcdefghijklmnopqrstuvwxyz" (n mod 36) in
      if (n <? 36)%Z then digit else radix36 fuel' (n / 36) ++ digit
  end.

Definition toString36 (n : Z) : string := radix36 (S (Z.to_nat (Z.log2 n))) n.

(** [hashId]: "Generate a unique hash-based ID". *)
Definition hashId (w : Entropy) (prefix : string) : string :=
  let timestamp := toString36 (now_ms w) in
  let random := toHex (random_bytes w) in
  prefix ++ "_" ++ substring 0 12 (sha256 (timestamp ++ ":" ++ random) hex).

(** ** [new Date(s).getTime()]

    Record timestamps are the UTC date-times that [toISOString] writes and
    the record schema asks for: [YYYY-MM-DDTHH:mm:ss.sssZ], the milliseconds
    being optional.  Such a string gives its epoch milliseconds; the model
    reads any other string as an invalid date ([NaN], here [None]). *)
Definition digitValue (c : ascii) : option Z :=
  let n := Z.of_N (N_of_ascii c) in
  if ((48 <=? n) && (n <=? 57))%Z then Some (n - 48)%Z else None.

Fixpoint digitsValue (acc : Z) (cs : list ascii) : option Z :=
  match cs with
  | [] => Some acc
  | c :: rest =>
      match digitValue c with
      | Some d => digitsValue (10 * acc + d) rest
      | None => None
      end
  end.

(** Days between 1970-01-01 and the given civil date. *)
Definition daysFromCivil (y m d : Z) : Z :=
  let y' := if (m <=? 2)%Z then (y - 1)%Z else y in
  let era := (y' / 400)%Z in
  let yoe := (y' - era * 400)%Z in
  let mp := if (m >? 2)%Z then (m - 3)%Z else (m + 9)%Z in
  let doy := ((153 * mp + 2) / 5 + d - 1)%Z in
  let doe := (yoe * 365 + yoe / 4 - yoe / 100 + doy)%Z in
  (era * 146097 + doe - 719468)%Z.

(** Node's parser takes a month in 1..12, a day in 1..31 (a day past the end
    of the month runs on into the next), and the hour 24 only as
    [24:00:00.000]. *)
Definition epochMs (y mo d h mi sec ms : Z) : option Z :=
  if ((1 <=? mo) && (mo <=? 12) && (1 <=? d) && (d <=? 31)
      && (mi <=? 59) && (sec <=? 59)
      && ((h <=? 23) || ((h =? 24) && (mi =? 0) && (sec =? 0) && (ms =? 0))))%Z
  then Some ((((daysFromCivil y mo d * 24 + h) * 60 + mi) * 60 + sec) * 1000 + ms)%Z
  else None.

(** [new Date(s).getTime()] for the texts that [toISOString] writes, with
    or without the milliseconds, which is how the program stamps its
    records and tasks.  Every other text is taken for an invalid date
    ([None], the [NaN] of the code), also one that the engine reads. *)
Definition getTime (s : string) : option Z :=
  let num a b := digitsValue 0 [a; b] in
  let build y1 y2 y3 y4 m1 m2 d1 d2 h1 h2 i1 i2 s1 s2 (ms : option Z) :=
    match digitsValue 0 [y1; y2; y3; y4], num m1 m2, num d1 d2,
          num h1 h2, num i1 i2, num s1 s2, ms with
    | Some y, Some mo, Some d, Some h, Some mi, Some sec, Some f =>
        epochMs y mo d h mi sec f
    | _, _, _, _, _, _, _ => None
    end in
  match list_ascii_of_string s with
  | [y1; y2; y3; y4; "-"; m1; m2; "-"; d1; d2; "T"; h1; h2; ":"; i1; i2; ":"; s1; s2; "Z"]%char =>
      build y1 y2 y3 y4 m1 m2 d1 d2 h1 h2 i1 i2 s1 s2 (Some 0%Z)
  | [y1; y2; y3; y4; "-"; m1; m2; "-"; d1; d2; "T"; h1; h2; ":"; i1; i2; ":"; s1; s2; ".";
     f1; f2; f3; "Z"]%char =>
      build y1 y2 y3 y4 m1 m2 d1 d2 h1 h2 i1 i2 s1 s2 (digitsValue 0 [f1; f2; f3])
  | _ => None
  end.

(** ** Types of [src/types/index.ts] used by the state manager *)

(** The members of [syncedTo]. *)
Inductive Store : Type := Cloudflare | Salesforce | Github.

Definition storeName (s : Store) : string :=
  match s with
  | Cloudflare => "cloudflare"
  | Salesforce => "salesforce"
  | Github => "github"
  end.

Definition Store_eqb (a b : Store) : bool :=
  match a, b with
  | Cloudflare, Cloudflare | Salesforce, Salesforce | Github, Github => true
  | _, _ => false
  end.

Record StateRecord : Type := mkStateRecord {
  r_id : string;
  r_type : string;
  r_data : Obj;
  r_hash : string;
  r_version : Z;
  r_createdAt : string;
  r_updatedAt : string;
  r_syncedTo : list Store
}.

Inductive Resolution : Type := res_local | res_remote | res_merge.

Record StateConflict : Type := mkStateConflict {
  recordId : string;
  field : string;
  localValue : Obj;
  remoteValue : Obj;
  resolution : option Resolution
}.

Record StateSyncResult : Type := mkStateSyncResult {
  success : bool;
  synced : list string;
  failed : list string;
  conflicts : list StateConflict
}.

Record APIError : Type := mkAPIError {
  code : string;
  message : string;
  retryable : bool
}.

(** [APIResponse<T>], without its request metadata. *)
Record APIResponse (T : Type) : Type := mkAPIResponse {
  ok : bool;                      (* success *)
  payload : option T;             (* data; null and undefined are None *)
  error : option APIError
}.

(** What awaiting a call gives: a value, or a thrown error, of which the
    handlers below read [error.message] when it is an [Error]. *)
Inductive Outcome (A : Type) : Type :=
| Returns (a : A)
| Throws (errorMessage : option string).
Arguments Throws {A} errorMessage.

Definition describe (errorMessage : option string) : string :=
  orDefault errorMessage "Unknown error".

(** A [Map<string, V>]: entries in insertion order, one per key. *)
Definition JsMap (V : Type) : Type := list (string * V).

Definition mapGet (V : Type) (k : string) (m : JsMap V) : option V := getProp k m.

Definition mapHas (V : Type) (k : string) (m : JsMap V) : bool :=
  match mapGet k m with Some _ => true | None => false end.

Fixpoint mapSet (V : Type) (k : string) (v : V) (m : JsMap V) : JsMap V :=
  match m with
  | [] => [(k, v)]
  | (k', v') :: rest =>
      if String.eqb k' k then (k', v) :: rest else (k', v') :: mapSet k v rest
  end.

Definition mapDelete (V : Type) (k : string) (m : JsMap V) : JsMap V :=
  filter (fun e => negb (String.eqb (fst e) k)) m.

Definition values (V : Type) (m : JsMap V) : list V := map snd m.

Definition isEmpty (A : Type) (l : list A) : bool :=
  match l with [] => true | _ => false end.

(** A property key that is an array index: the decimal text, without
    leading zero, of an integer below [2^32 - 1]. *)
Definition arrayIndex (k : string) : option Z :=
  match list_ascii_of_string k with
  | [] => None
  | c :: rest =>
      match digitsValue 0 (c :: rest) with
      | Some n =>
          if (negb (Ascii.eqb c "0") || isEmpty rest) && (n <=? 4294967294)%Z
          then Some n else None
      | None => None
      end
  end.

(** The own keys of an object come in this order: array indices by
    increasing value, then the other keys as they were created. *)
Fixpoint insertByIndex (A : Type) (n : Z) (e : string * A) (l : list (Z * (string * A)))
  : list (Z * (string * A)) :=
  match l with
  | [] => [(n, e)]
  | (n', e') :: rest =>
      if (n <? n')%Z then (n, e) :: l else (n', e') :: insertByIndex n e rest
  end.

Fixpoint indexedProps (A : Type) (o : list (string * A)) : list (Z * (string * A)) :=
  match o with
  | [] => []
  | e :: rest =>
      match arrayIndex (fst e) with
      | Some n => insertByIndex n e (indexedProps rest)
      | None => indexedProps rest
      end
  end.

Definition ownKeyOrder (A : Type) (o : list (string * A)) : list (string * A) :=
  (map snd (indexedProps o)
   ++ filter (fun e => match arrayIndex (fst e) with Some _ => false | None => true end) o)%list.

(** [Object.fromEntries(entries)], as the entries [Object.entries] then
    reads back from the object. *)
Definition objectFromEntries (A : Type) (entries : list (string * A)) : list (string * A) :=
  ownKeyOrder (fold_left (fun o e => mapSet (fst e) (snd e) o) entries []).

(** A record as [JSON.stringify] sees it. *)
Definition recordJSON (r : StateRecord) : JSON :=
  JObj [ ("id", JStr (r_id r)); ("type", JStr (r_type r)); ("data", JObj (r_data r));
         ("hash", JStr (r_hash r)); ("version", JNum (r_version r));
         ("createdAt", JStr (r_createdAt r)); ("updatedAt", JStr (r_updatedAt r));
         ("syncedTo", JArr (map (fun s => JStr (storeName s)) (r_syncedTo r))) ].

(** [Object.fromEntries(records)] *)
Definition fromEntries (records : JsMap StateRecord) : JSON :=
  JObj (map (fun e => (fst e, recordJSON (snd e))) records).

(** ** State helpers of [src/clients/cloudflare.ts] *)

(** The state a remote blob holds, read as the manager casts it:
    [{ records?: Record<string, StateRecord> }], with whatever other
    properties the blob has. *)
Record RemoteState : Type := mkRemoteState {
  remoteRecords : option (JsMap StateRecord);        (* records *)
  otherProps : Obj
}.

Definition remoteStateObj (s : RemoteState) : Obj :=
  (match remoteRecords s with
   | Some rs => [("records", fromEntries rs)]
   | None => []
   end ++ otherProps s)%list.

(** The KV entry under the state key.  Its [value] is JSON text; [parsed]
    is what [JSON.parse(value)] gives, as its [data] and [hash] properties,
    or [None] when parsing or reading them throws. *)
Record Envelope : Type := mkEnvelope {
  env_data : RemoteState;
  env_hash : option string          (* None: absent or not a string *)
}.

Record CloudflareKVEntry : Type := mkKVEntry {
  kv_key : string;
  parsed : option Envelope
}.

Record Retrieved : Type := mkRetrieved {
  state : RemoteState;
  reportedHash : option string;     (* hash *)
  isValid : bool                    (* valid *)
}.

Definition PARSE_ERROR : APIError :=
  mkAPIError "PARSE_ERROR" "Failed to parse state record" false.

(** [retrieveState], from what [kvGet(key)] answered. *)
Definition retrieveState (kvGet : Outcome (APIResponse CloudflareKVEntry))
  : Outcome (APIResponse Retrieved) :=
  match kvGet with
  | Throws e => Throws e
  | Returns result =>
      match ok result, payload result with
      | true, Some entry =>
          match parsed entry with
          | Some env =>
              let currentHash := hashState (remoteStateObj (env_data env)) in
              let valid := match env_hash env with
                           | Some h => String.eqb currentHash h
                           | None => false
                           end in
              Returns (mkAPIResponse true
                         (Some (mkRetrieved (env_data env) (env_hash env) valid)) None)
          | None => Returns (mkAPIResponse false None (Some PARSE_ERROR))
          end
      | _, _ => Returns (mkAPIResponse (ok result) None (error result))
      end
  end.

(** [storeState], from what [kvSet(key, payload, ...)] answered. *)
Definition storeState (kvSet : Outcome (APIResponse bool)) (state : Obj)
  : Outcome (APIResponse string) :=
  let hash := hashState state in
  match kvSet with
  | Throws e => Throws e
  | Returns result =>
      Returns (mkAPIResponse (ok result)
                 (if ok result then Some hash else None) (error result))
  end.

(** ** [src/state/manager.ts] *)

Inductive ConflictResolution : Type := local | remote | manual | latest.
Inductive Direction : Type := push | pull | bidirectional.

Record SyncOptions : Type := mkSyncOptions {
  force : option bool;
  direction : option Direction;
  includeTypes : option (list string);
  excludeTypes : option (list string)
}.

Record StoredState : Type := mkStoredState {
  records : JsMap StateRecord;
  lastSync : string;
  stateHash : string                 (* hash *)
}.

(** A client is known to the manager by what its calls answer while one
    sync runs: each is awaited at most once per sync. *)
Record CloudflareClient : Type := mkCloudflareClient {
  kvGet : Outcome (APIResponse CloudflareKVEntry);   (* kvGet('blackroad_state') *)
  kvSet : Outcome (APIResponse bool)
}.

Record SalesforceRecord : Type := mkSalesforceRecord {
  Id : string;
  sf_props : Obj                     (* its other properties *)
}.

(** [account as Record<string, unknown>] *)
Definition asData (a : SalesforceRecord) : Obj := ("Id", JStr (Id a)) :: sf_props a.

Record CRMState : Type := mkCRMState {
  accounts : list SalesforceRecord;
  contacts : list SalesforceRecord;
  opportunities : list SalesforceRecord
}.

Record SalesforceClient : Type := mkSalesforceClient {
  getCRMState : Outcome (APIResponse CRMState);
  syncState : Outcome (APIResponse string)
}.

Record StateManager : Type := mkStateManager {
  conflictResolution : ConflictResolution;     (* config.conflictResolution *)
  cloudflare : option CloudflareClient;
  salesforce : option SalesforceClient;
  localState : StoredState;
  syncInProgress : bool
}.

(** [new StateManager(config)] followed by [initialize(clients)]. *)
Definition createStateManager (policy : option ConflictResolution)
    (cf : option CloudflareClient) (sf : option SalesforceClient) : StateManager :=
  mkStateManager (orDefault policy latest) cf sf
                 (mkStoredState [] EmptyString EmptyString) false.

Definition withLocalState (m : StateManager) (ls : StoredState) : StateManager :=
  mkStateManager (conflictResolution m) (cloudflare m) (salesforce m) ls (syncInProgress m).

Definition withRecords (m : StateManager) (rs : JsMap StateRecord) : StateManager :=
  withLocalState m (mkStoredState rs (lastSync (localState m)) (stateHash (localState m))).

Definition withSyncInProgress (m : StateManager) (b : bool) : StateManager :=
  mkStateManager (conflictResolution m) (cloudflare m) (salesforce m) (localState m) b.

(** The object [updateLocalHash] fingerprints. *)
Definition stateData (ls : StoredState) : Obj :=
  [("records", fromEntries (records ls)); ("lastSync", JStr (lastSync ls))].

Definition updateLocalHash (m : StateManager) : StateManager :=
  withLocalState m
    (mkStoredState (records (localState m)) (lastSync (localState m))
                   (hashState (stateData (localState m)))).

(** [create]; [now] is [new Date().toISOString()]. *)
Definition create (now : string) (w : Entropy) (type : string) (data : Obj)
    (m : StateManager) : StateRecord * StateManager :=
  let record := mkStateRecord (hashId w type) type data (hashState data) 1 now now [] in
  (record, updateLocalHash (withRecords m (mapSet (r_id record) record (records (localState m))))).

Definition get (id : string) (m : StateManager) : option StateRecord :=
  mapGet id (records (localState m)).

(** [{ ...target, ...source }]: a new object that takes the properties of
    [target] and then those of [source]. *)
Definition spread (target source : Obj) : Obj :=
  objectFromEntries (target ++ source)%list.

(** Numbers are doubles.  An integer up to [2^53] in magnitude is one; a
    larger one is rounded to the nearest multiple of the spacing [2^e] that
    doubles of its size have, a tie going to the even significand. *)
Definition roundToDouble (x : Z) : Z :=
  let n := Z.abs x in
  if (n <=? 2 ^ 53)%Z then x
  else
    let e := (Z.log2 n - 52)%Z in
    let q := Z.shiftr n e in
    let r := (n - Z.shiftl q e)%Z in
    let half := Z.shiftl 1 (e - 1) in
    let q' := if (half <? r)%Z || ((r =? half)%Z && Z.odd q) then (q + 1)%Z else q in
    (Z.sgn x * Z.shiftl q' e)%Z.

Definition update (now : string) (id : string) (data : Obj) (m : StateManager)
  : option StateRecord * StateManager :=
  match mapGet id (records (localState m)) with
  | None => (None, m)
  | Some record =>
      let updatedData := spread (r_data record) data in
      let updated :=
        mkStateRecord (r_id record) (r_type record) updatedData (hashState updatedData)
                      (roundToDouble (r_version record + 1)) (r_createdAt record) now [] in
      (Some updated, updateLocalHash (withRecords m (mapSet id updated (records (localState m)))))
  end.

Definition delete (id : string) (m : StateManager) : bool * StateManager :=
  let deleted := mapHas id (records (localState m)) in
  if deleted
  then (true, updateLocalHash (withRecords m (mapDelete id (records (localState m)))))
  else (false, m).

(** The two properties [importState] reads from its argument. *)
Record ImportedState : Type := mkImportedState {
  imp_records : option (JsMap StateRecord);
  imp_lastSync : option string
}.

Definition importState (state : ImportedState) (m : StateManager) : StateManager :=
  let rs := orDefault (imp_records state) (records (localState m)) in
  updateLocalHash
    (withLocalState m
       (mkStoredState rs (orDefault (imp_lastSync state) EmptyString)
                      (stateHash (localState m)))).

Definition clear (m : StateManager) : StateManager :=
  withLocalState m (mkStoredState [] EmptyString EmptyString).

Record SyncStatus : Type := mkSyncStatus {
  status_lastSync : string;
  recordCount : nat;
  pendingSync : nat;
  status_hash : string
}.

Definition getSyncStatus (m : StateManager) : SyncStatus :=
  let ls := localState m in
  mkSyncStatus (lastSync ls) (List.length (records ls))
    (List.length (filter (fun r => Nat.ltb (List.length (r_syncedTo r)) 2) (values (records ls))))
    (stateHash ls).

(** *** Conflict resolution *)

(** [localTime >= remoteTime] on the two [getTime()] results: a comparison
    with [NaN] is false. *)
Definition timeGe (a b : option Z) : bool :=
  match a, b with
  | Some x, Some y => (y <=? x)%Z
  | _, _ => false
  end.

Definition withSyncedTo (r : StateRecord) (stores : list Store) : StateRecord :=
  mkStateRecord (r_id r) (r_type r) (r_data r) (r_hash r) (r_version r)
                (r_createdAt r) (r_updatedAt r) stores.

Definition resolveConflict (policy : ConflictResolution)
    (localRecord remoteRecord : StateRecord) : option Resolution * option StateRecord :=
  match policy with
  | local => (Some res_local, Some localRecord)
  | remote => (Some res_remote, Some (withSyncedTo remoteRecord [Cloudflare; Salesforce]))
  | latest =>
      let localTime := getTime (r_updatedAt localRecord) in
      let remoteTime := getTime (r_updatedAt remoteRecord) in
      if timeGe localTime remoteTime
      then (Some res_local, Some localRecord)
      else (Some res_remote, Some (withSyncedTo remoteRecord [Cloudflare; Salesforce]))
  | manual => (None, None)
  end.

(** *** Pull *)

(** What the pull loops build up: the records map and the result lists. *)
Record Merge : Type := mkMerge {
  mg_records : JsMap StateRecord;
  mg_synced : list string;
  mg_conflicts : list StateConflict
}.

(** Body of the loop over [Object.entries(remoteState.records)]. *)
Definition pullEntry (policy : ConflictResolution) (acc : Merge)
    (entry : string * StateRecord) : Merge :=
  let '(id, remoteRecord) := entry in
  match mapGet id (mg_records acc) with
  | None =>
      mkMerge (mapSet id (withSyncedTo remoteRecord [Cloudflare]) (mg_records acc))
              (mg_synced acc ++ ["cloudflare:" ++ id])
              (mg_conflicts acc)
  | Some localRecord =>
      if negb (String.eqb (r_hash remoteRecord) (r_hash localRecord)) then
        let res := resolveConflict policy localRecord remoteRecord in
        let conflict :=
          mkStateConflict id "data" (r_data localRecord) (r_data remoteRecord) (fst res) in
        match snd res with
        | Some record =>
            mkMerge (mapSet id record (mg_records acc))
                    (mg_synced acc ++ ["cloudflare:" ++ id ++ ":resolved"])
                    (mg_conflicts acc ++ [conflict])
        | None =>
            mkMerge (mg_records acc) (mg_synced acc) (mg_conflicts acc ++ [conflict])
        end
      else acc
  end.

(** Successive readings of [new Date().toISOString()] during one call. *)
Definition Clock : Type := nat -> string.

(** One iteration of a [mergeCRMState] loop. *)
Definition adoptCRM (clock : Clock) (type idPrefix : string)
    (acc : JsMap StateRecord * nat) (item : SalesforceRecord) : JsMap StateRecord * nat :=
  let '(rs, t) := acc in
  let id := idPrefix ++ Id item in
  if mapHas id rs then acc
  else (mapSet id (mkStateRecord id type (asData item) (hashState (asData item)) 1
                                 (clock t) (clock (S t)) [Salesforce]) rs,
        S (S t)).

Definition mergeCRMState (clock : Clock) (crmState : CRMState)
    (acc : JsMap StateRecord * nat) : JsMap StateRecord * nat :=
  let acc1 := fold_left (adoptCRM clock "crm_account" "crm_account_") (accounts crmState) acc in
  let acc2 := fold_left (adoptCRM clock "crm_contact" "crm_contact_") (contacts crmState) acc1 in
  fold_left (adoptCRM clock "crm_opportunity" "crm_opportunity_") (opportunities crmState) acc2.

Definition emptyResult : StateSyncResult := mkStateSyncResult true [] [] [].

(** The Cloudflare block of [pullFromRemote]. *)
Definition pullCloudflare (policy : ConflictResolution) (c : CloudflareClient)
    (rs : JsMap StateRecord) : Merge * list string :=
  match retrieveState (kvGet c) with
  | Throws e => (mkMerge rs [] [], ["cloudflare:" ++ describe e])
  | Returns kvResult =>
      match ok kvResult, payload kvResult with
      | true, Some data =>
          if isValid data then
            match remoteRecords (state data) with
            | Some entries => (fold_left (pullEntry policy) entries (mkMerge rs [] []), [])
            | None => (mkMerge rs [] [], [])
            end
          else (mkMerge rs [] [], [])
      | _, _ => (mkMerge rs [] [], [])
      end
  end.

(** The Salesforce block of [pullFromRemote]: records, clock position,
    and what is pushed on [synced] and [failed]. *)
Definition pullSalesforce (clock : Clock) (t : nat) (c : SalesforceClient)
    (rs : JsMap StateRecord) : JsMap StateRecord * nat * list string * list string :=
  match getCRMState c with
  | Throws e => (rs, t, [], ["salesforce:" ++ describe e])
  | Returns crmState =>
      match ok crmState, payload crmState with
      | true, Some data =>
          let '(rs', t') := mergeCRMState clock data (rs, t) in
          (rs', t', ["salesforce:crm_state"], [])
      | _, _ => (rs, t, [], [])
      end
  end.

Definition pullFromRemote (clock : Clock) (t : nat) (m : StateManager)
  : StateSyncResult * StateManager * nat :=
  let rs0 := records (localState m) in
  let '(merge, failed1) :=
    match cloudflare m with
    | Some c => pullCloudflare (conflictResolution m) c rs0
    | None => (mkMerge rs0 [] [], [])
    end in
  let '(rs2, t2, synced2, failed2) :=
    match salesforce m with
    | Some c => pullSalesforce clock t c (mg_records merge)
    | None => (mg_records merge, t, [], [])
    end in
  (mkStateSyncResult true (mg_synced merge ++ synced2) (failed1 ++ failed2) (mg_conflicts merge),
   updateLocalHash (withRecords m rs2),
   t2).

(** *** Push *)

Definition includes (x : string) (l : list string) : bool := existsb (String.eqb x) l.

(** The predicate of the [filter] that builds [recordsToSync]. *)
Definition needsSync (options : SyncOptions) (r : StateRecord) : bool :=
  if match includeTypes options with
     | Some types => negb (includes (r_type r) types)
     | None => false
     end then false
  else if match excludeTypes options with
          | Some types => includes (r_type r) types
          | None => false
          end then false
  else orDefault (force options) false || Nat.ltb (List.length (r_syncedTo r)) 2.

Definition recordsToSync (options : SyncOptions) (m : StateManager) : list StateRecord :=
  filter (needsSync options) (values (records (localState m))).

(** [if (!record.syncedTo.includes(s)) record.syncedTo.push(s)] *)
Definition acknowledge (s : Store) (r : StateRecord) : StateRecord :=
  if existsb (Store_eqb s) (r_syncedTo r) then r
  else withSyncedTo r (r_syncedTo r ++ [s]).

(** The records of [recordsToSync] are the very objects the map holds, so
    the loop over them changes the map's entries: those under [selected],
    the keys of the records chosen before the first push. *)
Definition acknowledgeAll (s : Store) (selected : list string)
    (rs : JsMap StateRecord) : JsMap StateRecord :=
  map (fun e => if includes (fst e) selected then (fst e, acknowledge s (snd e)) else e) rs.

Definition statePayload (ls : StoredState) : Obj :=
  [("records", fromEntries (records ls)); ("lastSync", JStr (lastSync ls));
   ("hash", JStr (stateHash ls))].

(** One adapter block of [pushToRemote]: [reply] is what the store call
    answered. *)
Definition pushTo (s : Store) (reply : Outcome (APIResponse string))
    (toSync : list StateRecord) (selected : list string) (rs : JsMap StateRecord)
  : JsMap StateRecord * list string * list string :=
  match reply with
  | Throws e => (rs, [], [storeName s ++ ":" ++ describe e])
  | Returns result =>
      if ok result
      then (acknowledgeAll s selected rs,
            map (fun r => storeName s ++ ":" ++ r_id r) toSync, [])
      else (rs, [], [])
  end.

Definition pushToRemote (options : SyncOptions) (m : StateManager)
  : StateSyncResult * StateManager :=
  let ls := localState m in
  let toSync := recordsToSync options m in
  let selected := keys (filter (fun e => needsSync options (snd e)) (records ls)) in
  let '(rs1, synced1, failed1) :=
    match cloudflare m with
    | Some c => pushTo Cloudflare (storeState (kvSet c) (statePayload ls))
                       toSync selected (records ls)
    | None => (records ls, [], [])
    end in
  let '(rs2, synced2, failed2) :=
    match salesforce m with
    | Some c => pushTo Salesforce (syncState c) toSync selected rs1
    | None => (rs1, [], [])
    end in
  (mkStateSyncResult true (synced1 ++ synced2) (failed1 ++ failed2) [],
   withRecords m rs2).

(** *** [sync] *)

Definition rejected : StateSyncResult :=
  mkStateSyncResult false [] ["Sync already in progress"] [].


Definition sync (clock : Clock) (options : SyncOptions) (m : StateManager)
  : StateSyncResult * StateManager :=
  if syncInProgress m then (rejected, m)
  else
    let m0 := withSyncInProgress m true in
    let dir := orDefault (direction options) bidirectional in
    let '(pullResult, m1, t1) :=
      match dir with
      | pull | bidirectional => pullFromRemote clock 0 m0
      | push => (emptyResult, m0, 0)
      end in
    let '(pushResult, m2) :=
      match dir with
      | push | bidirectional => pushToRemote options m1
      | pull => (emptyResult, m1)
      end in
    let failures := (failed pullResult ++ failed pushResult)%list in
    let result :=
      mkStateSyncResult (isEmpty failures)
                        (synced pullResult ++ synced pushResult)
                        failures
                        (conflicts pullResult) in
    let ls := localState m2 in
    (result,
     withSyncInProgress
       (withLocalState m2 (mkStoredState (records ls) (clock t1) (stateHash ls)))
       false).

(** ** More of [src/utils/hash.ts] *)

(** The default [previousHash]: ['0'.repeat(64)]. *)
Definition zeroHash : string :=
  "0000000000000000000000000000000000000000000000000000000000000000".

(** Body of the loop of [createHashChain]: the chain so far and
    [currentHash]. *)
Definition chainStep (acc : list string * string) (item : string) : list string * string :=
  let currentHash := sha256 (snd acc ++ ":" ++ item) hex in
  ((fst acc ++ [currentHash])%list, currentHash).

(** [createHashChain]: its result [{ chain, finalHash }] as a pair. *)
Definition createHashChain (items : list string) (previousHash : option string)
  : list string * string :=
  fold_left chainStep items ([], orDefault previousHash zeroHash).

(** The loop of [merkleRoot] that builds [nextLevel]; a last hash without
    a right neighbour is paired with itself. *)
Fixpoint nextLevel (hashes : list string) : list string :=
  match hashes with
  | [] => []
  | [l] => [sha256 (l ++ ":" ++ l) hex]
  | l :: r :: rest => sha256 (l ++ ":" ++ r) hex :: nextLevel rest
  end.

(** [merkleRoot] calls itself on [nextLevel]; [fuel] bounds the depth of
    these calls and [None] is a call that would go deeper. *)
Fixpoint merkleRootWithin (fuel : nat) (hashes : list string) : option string :=
  match hashes with
  | [] => Some (sha256 "empty" hex)
  | [h] => Some h
  | _ =>
      match fuel with
      | O => None
      | S fuel' => merkleRootWithin fuel' (nextLevel hashes)
      end
  end.

Definition merkleRoot (hashes : list string) : option string :=
  merkleRootWithin (List.length hashes) hashes.

(** ** Retry logic of [src/clients/base.ts] *)

(** [String.prototype.toLowerCase] on code units below 256. *)
Definition lowerChar (c : ascii) : ascii :=
  let n := N_of_ascii c in
  if ((65 <=? n) && (n <=? 90) || (192 <=? n) && (n <=? 222) && negb (n =? 215))%N
  then ascii_of_N (n + 32)
  else c.

Fixpoint toLowerCase (s : string) : string :=
  match s with
  | EmptyString => EmptyString
  | String c rest => String (lowerChar c) (toLowerCase rest)
  end.

(** [haystack.includes(needle)] *)
Fixpoint includesText (needle haystack : string) : bool :=
  String.prefix needle haystack
  || match haystack with
     | EmptyString => false
     | String _ rest => includesText needle rest
     end.

Definition retryablePatterns : list string :=
  ["timeout"; "econnreset"; "econnrefused"; "socket hang up"; "network";
   "429"; "502"; "503"; "504"; "rate limit"; "throttl"].

Definition isRetryableError (errorMessage : string) : bool :=
  let message := toLowerCase errorMessage in
  existsb (fun pattern => includesText pattern message) retryablePatterns.

Definition isDigit (c : ascii) : bool :=
  match digitValue c with Some _ => true | None => false end.

(** [message.match(/(\d{3})/)]: the leftmost run of three digits. *)
Fixpoint firstThreeDigits (s : string) : option string :=
  match s with
  | String a (String b (String c _ as r2) as r1) =>
      if isDigit a && isDigit b && isDigit c
      then Some (String a (String b (String c EmptyString)))
      else firstThreeDigits r1
  | _ => None
  end.

Definition extractErrorCode (errorMessage : string) : string :=
  match firstThreeDigits errorMessage with
  | Some status => "HTTP_" ++ status
  | None =>
      if includesText "ECONNREFUSED" errorMessage then "CONNECTION_REFUSED"
      else if includesText "ETIMEDOUT" errorMessage then "TIMEOUT"
      else if includesText "ENOTFOUND" errorMessage then "DNS_NOT_FOUND"
      else "UNKNOWN_ERROR"
  end.

(** [parseError], without the [details] it attaches. *)
Definition parseError (errorMessage : string) : APIError :=
  mkAPIError (extractErrorCode errorMessage) errorMessage (isRetryableError errorMessage).

(** What one call of [operation()] does: it gives data, or throws an error
    with the given message. *)
Inductive Attempt (T : Type) : Type :=
| Gives (data : T)
| Fails (errorMessage : string).
Arguments Fails {T} errorMessage.

(** The loop of [executeWithRetry], from [attempt] on, with [budget]
    iterations left; [operation n] is what the [n]-th call does.  The
    loop sleeps between attempts, which does not change what it returns. *)
Fixpoint retryLoop (T : Type) (operation : nat -> Attempt T) (maxRetries : Z)
    (budget attempt : nat) (lastError : option string) : APIResponse T :=
  match budget with
  | O => mkAPIResponse false None (Some (parseError (orDefault lastError "Unknown error")))
  | S budget' =>
      match operation attempt with
      | Gives data => mkAPIResponse true (Some data) None
      | Fails errorMessage =>
          let apiError := parseError errorMessage in
          if negb (retryable apiError) || (Z.of_nat attempt =? maxRetries)%Z
          then mkAPIResponse false None (Some apiError)
          else retryLoop operation maxRetries budget' (S attempt) (Some errorMessage)
      end
  end.

(** [executeWithRetry]: [for (attempt = 0; attempt <= maxRetries; attempt++)]
    runs [maxRetries + 1] times at most, and not at all when [maxRetries]
    is negative. *)
Definition executeWithRetry (T : Type) (maxRetries : Z) (operation : nat -> Attempt T)
  : APIResponse T :=
  retryLoop operation maxRetries (Z.to_nat (maxRetries + 1)) 0 None.

(** ** More of [src/state/manager.ts] *)

Definition getByType (type : string) (m : StateManager) : list StateRecord :=
  filter (fun r => String.eqb (r_type r) type) (values (records (localState m))).

(** A relative index of [Array.prototype.slice]: counted from the end
    when negative, and kept within the array. *)
Definition relativeIndex (len i : Z) : Z :=
  if (i <? 0)%Z then Z.max (len + i) 0 else Z.min i len.

(** [l.slice(start, end)]; [None] is an omitted [end]. *)
Definition slice (A : Type) (l : list A) (start : Z) (final : option Z) : list A :=
  let len := Z.of_nat (List.length l) in
  let k := relativeIndex len start in
  let stop := match final with
              | Some e => relativeIndex len e
              | None => len
              end in
  firstn (Z.to_nat (Z.max (stop - k) 0)) (skipn (Z.to_nat k) l).

(** The argument of [query]; [limit] and [offset] are integers. *)
Record QueryFilter : Type := mkQueryFilter {
  q_type : option string;                 (* type *)
  q_dataFilter : option (Obj -> bool);    (* dataFilter *)
  q_limit : option Z;                     (* limit *)
  q_offset : option Z                     (* offset *)
}.

(** [query]: each [if (filter.x)] passes over a field that is absent, an
    empty string or zero. *)
Definition query (criteria : QueryFilter) (m : StateManager) : list StateRecord :=
  let results := values (records (localState m)) in
  let results :=
    match q_type criteria with
    | Some t => if String.eqb t EmptyString then results
                else filter (fun r => String.eqb (r_type r) t) results
    | None => results
    end in
  let results :=
    match q_dataFilter criteria with
    | Some dataFilter => filter (fun r => dataFilter (r_data r)) results
    | None => results
    end in
  let results :=
    match q_offset criteria with
    | Some o => if (o =? 0)%Z then results else slice results o None
    | None => results
    end in
  match q_limit criteria with
  | Some l => if (l =? 0)%Z then results else slice results 0 (Some l)
  | None => results
  end.


(** What [exportState] returns; [ex_records] is the object built by
    [Object.fromEntries], held as its entries. *)
Record ExportedState : Type := mkExportedState {
  ex_records : JsMap StateRecord;
  ex_lastSync : string;
  ex_hash : string;
  exportedAt : string
}.

Definition exportState (now : string) (m : StateManager) : ExportedState :=
  let ls := localState m in
  mkExportedState (objectFromEntries (records ls)) (lastSync ls) (stateHash ls) now.

(** An exported document as [importState] reads it. *)
Definition readExport (e : ExportedState) : ImportedState :=
  mkImportedState (Some (ex_records e)) (Some (ex_lastSync e)).

(** ** The task queue ([TaskQueue], in the same file as the state manager) *)

Inductive Priority : Type := low | medium | high | critical.

Inductive TaskStatus : Type := pending_ | in_progress_ | completed_ | failed_ | blocked_.

Definition TaskStatus_eqb (a b : TaskStatus) : bool :=
  match a, b with
  | pending_, pending_ | in_progress_, in_progress_ | completed_, completed_
  | failed_, failed_ | blocked_, blocked_ => true
  | _, _ => false
  end.

Definition Priority_eqb (a b : Priority) : bool :=
  match a, b with
  | low, low | medium, medium | high, high | critical, critical => true
  | _, _ => false
  end.

Record AgentTask : Type := mkAgentTask {
  t_id : string;
  t_type : string;
  t_priority : Priority;
  t_status : TaskStatus;
  t_description : string;
  t_dependencies : list string;
  t_assignedAgent : option string;
  t_createdAt : string;
  t_updatedAt : string;
  t_completedAt : option string;
  t_result : option JSON;
  t_error : option string
}.

(** The [tasks] map of a queue; the methods below read nothing else. *)
Definition TaskQueue : Type := JsMap AgentTask.

Definition all (q : TaskQueue) : list AgentTask := values q.

Definition getByStatus (status : TaskStatus) (q : TaskQueue) : list AgentTask :=
  filter (fun t => TaskStatus_eqb (t_status t) status) (values q).

Definition getByPriority (priority : Priority) (q : TaskQueue) : list AgentTask :=
  filter (fun t => Priority_eqb (t_priority t) priority) (values q).

Definition priorityOrder (p : Priority) : Z :=
  match p with critical => 0 | high => 1 | medium => 2 | low => 3 end.

(** The comparator of [getNext].  The difference of two [getTime()]
    results is [NaN] when one of them is, and [sort] reads a [NaN] from its
    comparator as [+0]. *)
Definition compareTasks (a b : AgentTask) : Z :=
  let priorityDiff := (priorityOrder (t_priority a) - priorityOrder (t_priority b))%Z in
  if negb (priorityDiff =? 0)%Z then priorityDiff
  else match getTime (t_createdAt a), getTime (t_createdAt b) with
       | Some x, Some y => (x - y)%Z
       | _, _ => 0%Z
       end.

(** [Array.prototype.sort] is stable: elements that compare equal keep
    their order.  For a comparator that orders the elements consistently
    this fixes the result, which is computed here by insertion; for any
    other comparator the language leaves the order to the engine. *)
Fixpoint insertSortedBy (A : Type) (compare : A -> A -> Z) (x : A) (l : list A) : list A :=
  match l with
  | [] => [x]
  | y :: rest =>
      if (compare x y <=? 0)%Z then x :: l else y :: insertSortedBy compare x rest
  end.

Definition sortBy (A : Type) (compare : A -> A -> Z) (l : list A) : list A :=
  fold_right (insertSortedBy compare) [] l.

Definition getNext (q : TaskQueue) : option AgentTask :=
  match getByStatus pending_ q with
  | [] => None
  | pending => hd_error (sortBy compareTasks pending)
  end.

Record QueueStats : Type := mkQueueStats {
  total : nat;
  pending : nat;
  inProgress : nat;
  completed : nat;
  failedTasks : nat;                 (* failed *)
  blocked : nat
}.

Definition stats (q : TaskQueue) : QueueStats :=
  let count status :=
    List.length (filter (fun t => TaskStatus_eqb (t_status t) status) (all q)) in
  mkQueueStats (List.length (all q)) (count pending_) (count in_progress_)
               (count completed_) (count failed_) (count blocked_).

(** * Notions used in the statements

    Predicates and readings of the design document that the properties
    below are stated with, and the concrete states they are evaluated on. *)

(** One property of an object, serialised. *)
Definition serializeMember (propertyList : list string) (e : string * JSON)
  : string * string :=
  (fst e, serialize propertyList (snd e)).

(** Two payloads that differ only below the top level: the replica count
    sits in a nested object. *)
Definition nested_one : Obj := [("config", JObj [("replicas", JNum 1)])].
Definition nested_two : Obj := [("config", JObj [("replicas", JNum 2)])].

(** One payload, its keys inserted in two orders. *)
Definition order_ab : Obj := [("app", JStr "x"); ("env", JStr "prod")].
Definition order_ba : Obj := [("env", JStr "prod"); ("app", JStr "x")].

(** [randomBytes(n)] gave [n] bytes. *)
Definition drawsBytes (n : nat) (w : Entropy) : Prop :=
  List.length (random_bytes w) = n
  /\ Forall (fun b => (0 <= b < 256)%Z) (random_bytes w).

(** Options asking for base64 output, and options leaving salt and
    encoding to their defaults. *)
Definition base64_options : HashOptions :=
  mkHashOptions (Some sha256_) (Present 1%Z) (Some "pepper") (Some base64).

Definition infinity_options : HashOptions :=
  mkHashOptions (Some sha_infinity) (Present 2%Z) None None.

(** The scenario of the design document: a deployment record moved from
    [prod] to [staging]. *)
Definition deployment : Obj := [("app", JStr "x"); ("env", JStr "prod")].
Definition demoEntropy : Entropy := mkEntropy 1730000000000 [1; 2; 3; 4; 5; 6; 7; 255]%Z.
Definition deployed : StateRecord * StateManager :=
  create "2024-11-01T10:00:00.000Z" demoEntropy "deployment" deployment
         (createStateManager None None None).

(** A record whose data change below the top level, and one whose version
    has reached [2^53], as an import or a pull can bring it. *)
Definition nestedDeployed : StateRecord * StateManager :=
  create "2024-11-01T10:00:00.000Z" demoEntropy "deployment" nested_one
         (createStateManager None None None).

Definition veteran : StateRecord :=
  mkStateRecord "deployment_1" "deployment" deployment (hashState deployment)
                9007199254740992 "2024-11-01T10:00:00.000Z" "2024-11-01T10:00:00.000Z" [].

Definition longLived : StateManager :=
  mkStateManager latest None None
                 (mkStoredState [("deployment_1", veteran)] EmptyString EmptyString) false.

(** A version that [+ 1] raises exactly: a safe integer. *)
Definition safeVersion (r : StateRecord) : Prop := (Z.abs (r_version r) < 2 ^ 53)%Z.

(** The same manager while a sync is in flight. *)
Definition busy : StateManager := withSyncInProgress (snd deployed) true.
Definition noOptions : SyncOptions := mkSyncOptions None None None None.

(** The store hash is the fingerprint of the records map and [lastSync]. *)
Definition hashCurrent (m : StateManager) : Prop :=
  stateHash (localState m) = hashState (stateData (localState m)).

(** [sync({ direction: 'pull' })] on a manager just constructed. *)
Definition pullOnly : SyncOptions := mkSyncOptions None (Some pull) None None.
Definition fresh : StateManager := createStateManager None None None.
Definition afterFirstSync : StateManager :=
  snd (sync (fun _ => "2024-11-01T10:00:00.000Z") pullOnly fresh).

(** The type filter of the push phase. *)
Definition typeSelected (options : SyncOptions) (r : StateRecord) : bool :=
  match includeTypes options with
  | Some types => includes (r_type r) types
  | None => true
  end
  && match excludeTypes options with
     | Some types => negb (includes (r_type r) types)
     | None => true
     end.

(** The number of remote stores the manager was initialised with. *)
Definition configuredStores (m : StateManager) : nat :=
  match cloudflare m with Some _ => 1 | None => 0 end
  + match salesforce m with Some _ => 1 | None => 0 end.

(** The selection as the design document words it: records not yet synced
    to as many stores as are configured, or all of them under [force]. *)
Definition recordsToSync_spec (options : SyncOptions) (m : StateManager)
  : list StateRecord :=
  filter (fun r => typeSelected options r
                   && (orDefault (force options) false
                       || Nat.ltb (List.length (r_syncedTo r)) (configuredStores m)))
         (values (records (localState m))).

(** A manager with Cloudflare alone, holding a record Cloudflare has
    acknowledged. *)
Definition acked : StateRecord :=
  mkStateRecord "deployment_1" "deployment" deployment (hashState deployment) 1
                "2024-11-01T10:00:00.000Z" "2024-11-01T10:00:00.000Z" [Cloudflare].
Definition edgeOnly : StateManager :=
  mkStateManager latest
    (Some (mkCloudflareClient (Throws None) (Throws None))) None
    (mkStoredState [("deployment_1", acked)] EmptyString EmptyString) false.

(** The manager as it would be had Cloudflare not been configured. *)
Definition withoutCloudflare (m : StateManager) : StateManager :=
  mkStateManager (conflictResolution m) None (salesforce m) (localState m) (syncInProgress m).

(** The blob under the state key fails verification: the fingerprint
    recomputed over its data is not the one it reports. *)
Definition failsVerification (c : CloudflareClient) : Prop :=
  exists resp entry env,
    kvGet c = Returns resp /\ ok resp = true /\ payload resp = Some entry
    /\ parsed entry = Some env
    /\ env_hash env <> Some (hashState (remoteStateObj (env_data env))).

(** A remote copy of a deployment record, in a blob that reports a
    fingerprint which is not that of its data. *)
Definition remoteDeployment : StateRecord :=
  mkStateRecord "deployment_9" "deployment" deployment (hashState deployment) 3
                "2024-10-31T08:00:00.000Z" "2024-10-31T09:00:00.000Z" [].
Definition tamperedBlob : Envelope :=
  mkEnvelope (mkRemoteState (Some [("deployment_9", remoteDeployment)])
                            [("lastSync", JStr "2024-10-31T09:00:00.000Z")])
             (Some "0000000000000000000000000000000000000000000000000000000000000000").
Definition tamperedClient : CloudflareClient :=
  mkCloudflareClient
    (Returns (mkAPIResponse true (Some (mkKVEntry "blackroad_state" (Some tamperedBlob))) None))
    (Throws None).
Definition tamperedManager : StateManager := createStateManager None (Some tamperedClient) None.

(** The conflict the pull loop reports for a local and a remote record. *)
Definition conflictOf (policy : ConflictResolution) (id : string) (l r : StateRecord)
  : StateConflict :=
  mkStateConflict id "data" (r_data l) (r_data r) (fst (resolveConflict policy l r)).

(** Resolution leaves the local record in place. *)
Definition keepsLocal (policy : ConflictResolution) (l r : StateRecord) : Prop :=
  snd (resolveConflict policy l r) = Some l \/ snd (resolveConflict policy l r) = None.

(** A remote entry is settled in a records map when the local record under
    its id has the remote fingerprint, or differs from it in a way that
    resolution keeps, the conflict being among [cs]. *)
Definition settled (policy : ConflictResolution) (rs : JsMap StateRecord)
    (cs : list StateConflict) (e : string * StateRecord) : Prop :=
  exists l, mapGet (fst e) rs = Some l
            /\ (r_hash (snd e) = r_hash l
                \/ (keepsLocal policy l (snd e) /\ In (conflictOf policy (fst e) l (snd e)) cs)).

(** [rs'] holds every record of [rs], under the same id. *)
Definition extends (rs rs' : JsMap StateRecord) : Prop :=
  forall k l, mapGet k rs = Some l -> mapGet k rs' = Some l.

(** Every CRM item has its record in [rs]. *)
Definition covers (rs : JsMap StateRecord) (crm : CRMState) : Prop :=
  (forall a, In a (accounts crm) -> mapHas ("crm_account_" ++ Id a) rs = true)
  /\ (forall a, In a (contacts crm) -> mapHas ("crm_contact_" ++ Id a) rs = true)
  /\ (forall a, In a (opportunities crm) -> mapHas ("crm_opportunity_" ++ Id a) rs = true).

(** The ids of a remote blob are the keys of an object, hence distinct. *)
Definition distinctRemoteIds (c : CloudflareClient) : Prop :=
  forall resp entry env es,
    kvGet c = Returns resp -> payload resp = Some entry -> parsed entry = Some env ->
    remoteRecords (env_data env) = Some es -> NoDup (keys es).

(** The same record edited locally, and a remote blob that reports the
    fingerprint of its data; [diverged] holds the one and pulls the other. *)
Definition localEdit : StateRecord :=
  mkStateRecord "deployment_9" "deployment" [("app", JStr "x"); ("env", JStr "staging")]
                (hashState [("app", JStr "x"); ("env", JStr "staging")]) 4
                "2024-10-31T08:00:00.000Z" "2024-11-01T09:30:00.000Z" [].
Definition honestState : RemoteState :=
  mkRemoteState (Some [("deployment_9", remoteDeployment)])
                [("lastSync", JStr "2024-10-31T09:00:00.000Z")].
Definition honestClient : CloudflareClient :=
  mkCloudflareClient
    (Returns (mkAPIResponse true
                (Some (mkKVEntry "blackroad_state"
                         (Some (mkEnvelope honestState
                                           (Some (hashState (remoteStateObj honestState)))))))
                None))
    (Throws None).
Definition diverged (policy : ConflictResolution) : StateManager :=
  mkStateManager policy (Some honestClient) None
                 (mkStoredState [("deployment_9", localEdit)] EmptyString EmptyString) false.
Definition morning : Clock := fun _ => "2024-11-01T10:00:00.000Z".
Definition noon : Clock := fun _ => "2024-11-01T12:00:00.000Z".

(** What a pull-only [sync] makes of the outcome of [pullFromRemote]. *)
Definition finishPull (clock : Clock) (p : StateSyncResult * StateManager * nat)
  : StateSyncResult * StateManager :=
  let res := fst (fst p) in
  let m1 := snd (fst p) in
  (mkStateSyncResult (isEmpty (failed res ++ [])) (synced res ++ []) (failed res ++ [])
                     (conflicts res),
   withSyncInProgress
     (withLocalState m1 (mkStoredState (records (localState m1)) (clock (snd p))
                                       (stateHash (localState m1))))
     false).

(** A byte, and the sizes of digests in bytes and in hex characters. *)
Definition isByte (b : Z) : Prop := (0 <= b < 256)%Z.

Definition digestBytes (d : Digest) : nat :=
  match d with SHA_256 => 32 | SHA_384 => 48 | SHA_512 => 64 end.

Definition hexLength (a : Algorithm) : nat :=
  match a with
  | sha256_ => 64
  | sha384_ => 96
  | sha512_ | sha_infinity => 128
  end.

(** Options asking for no iteration at all. *)
Definition plain_options : HashOptions :=
  mkHashOptions (Some sha512_) (Present 0%Z) (Some "pepper") None.

(** The three algorithms that [hash] iterates directly. *)
Definition standardAlgorithm (d : Digest) : Algorithm :=
  match d with SHA_256 => sha256_ | SHA_384 => sha384_ | SHA_512 => sha512_ end.

(** The options [verify] recomputes with: what the result records, and hex. *)
Definition recordedOptions (hashResult : HashResult) : HashOptions :=
  mkHashOptions (Some (hr_algorithm hashResult)) (Present (hr_iterations hashResult))
                (Some (hr_salt hashResult)) (Some hex).

(** Reading one character back from the front of its UTF-8 bytes. *)
Definition utf8Head (bytes : list Z) : option (ascii * list Z) :=
  match bytes with
  | [] => None
  | a :: rest =>
      if (a <? 128)%Z then Some (ascii_of_N (Z.to_N a), rest)
      else match rest with
           | b :: rest' => Some (ascii_of_N (Z.to_N ((a - 192) * 64 + (b - 128))), rest')
           | [] => None
           end
  end.

(** A query for the records of type [deployment]. *)
Definition deploymentsOnly : QueryFilter :=
  mkQueryFilter (Some "deployment") None None None.

(** The remote entries a pull merges: those of a blob that was retrieved
    and found valid, and none otherwise. *)
Definition pulledEntries (c : CloudflareClient) : list (string * StateRecord) :=
  match retrieveState (kvGet c) with
  | Returns kvResult =>
      match ok kvResult, payload kvResult with
      | true, Some data =>
          if isValid data then orDefault (remoteRecords (state data)) [] else []
      | _, _ => []
      end
  | Throws _ => []
  end.

(** The fingerprint of a record is that of its data. *)
Definition intact (r : StateRecord) : Prop := r_hash r = hashState (r_data r).

(** [r'] is [r] but for its acknowledgements, of which it has those of [r]
    and maybe more. *)
Definition acknowledgedFrom (r r' : StateRecord) : Prop :=
  r' = withSyncedTo r (r_syncedTo r') /\ incl (r_syncedTo r) (r_syncedTo r').

(** Options for a push alone. *)
Definition pushOnly : SyncOptions := mkSyncOptions None (Some push) None None.

(** The records a pull ends with, phase by phase. *)
Definition afterCloudflare (m : StateManager) : JsMap StateRecord :=
  match cloudflare m with
  | Some c => mg_records (fold_left (pullEntry (conflictResolution m)) (pulledEntries c)
                                    (mkMerge (records (localState m)) [] []))
  | None => records (localState m)
  end.

Definition afterSalesforce (clock : Clock) (t : nat) (m : StateManager)
    (rs : JsMap StateRecord) : JsMap StateRecord :=
  match salesforce m with
  | Some c =>
      match getCRMState c with
      | Returns crmState =>
          match ok crmState, payload crmState with
          | true, Some data => fst (mergeCRMState clock data (rs, t))
          | _, _ => rs
          end
      | Throws _ => rs
      end
  | None => rs
  end.

(** A manager holding the deployment record, with both stores configured
    and accepting what is pushed; and one whose stores answer, without
    throwing, that the call did not succeed. *)
Definition accepting : StateManager :=
  mkStateManager latest
    (Some (mkCloudflareClient (Throws None) (Returns (mkAPIResponse true (Some true) None))))
    (Some (mkSalesforceClient (Throws None)
             (Returns (mkAPIResponse true (Some "BR_environments_STATE") None))))
    (localState (snd deployed)) false.

Definition unavailable : APIError := mkAPIError "HTTP_503" "HTTP 503" true.

Definition refusing : StateManager :=
  mkStateManager latest
    (Some (mkCloudflareClient (Throws None) (Returns (mkAPIResponse false None (Some unavailable)))))
    (Some (mkSalesforceClient (Throws None)
             (Returns (mkAPIResponse false None (Some unavailable)))))
    (localState (snd deployed)) false.

(** A manager just constructed, with the honest blob to pull. *)
Definition subscriber : StateManager := createStateManager None (Some honestClient) None.

(** An attempt that ends the retry loop whatever its number: data, or an
    error that is not retryable. *)
Definition decisive (T : Type) (a : Attempt T) : bool :=
  match a with
  | Gives _ => true
  | Fails errorMessage => negb (isRetryableError errorMessage)
  end.

(** The response the loop returns from the attempt that ends it. *)
Definition replyOf (T : Type) (a : Attempt T) : APIResponse T :=
  match a with
  | Gives data => mkAPIResponse true (Some data) None
  | Fails errorMessage => mkAPIResponse false None (Some (parseError errorMessage))
  end.

(** A request that is refused twice with a retryable error and then
    served. *)
Definition thirdTime : nat -> Attempt string :=
  fun n => if Nat.ltb n 2 then Fails "HTTP 503" else Gives "served".

(** The same manager when the Cloudflare call throws and Salesforce
    accepts. *)
Definition edgeDown : StateManager :=
  mkStateManager latest
    (Some (mkCloudflareClient (Throws None) (Throws (Some "fetch failed"))))
    (salesforce accepting) (localState (snd deployed)) false.

(** Every pending task of the queue has a creation time that is a date. *)
Definition datedPending (q : TaskQueue) : Prop :=
  forall t, In t (getByStatus pending_ q) -> getTime (t_createdAt t) <> None.

(** A queue of three tasks: a finished one, and two pending ones of which
    the later is the more urgent. *)
Definition task (id : string) (priority : Priority) (status : TaskStatus)
    (createdAt : string) : AgentTask :=
  mkAgentTask id "review" priority status "review the change" [] None createdAt createdAt
              None None None.

Definition backlog : TaskQueue :=
  [("task_1", task "task_1" critical completed_ "2024-11-01T08:00:00.000Z");
   ("task_2", task "task_2" medium pending_ "2024-11-01T09:00:00.000Z");
   ("task_3", task "task_3" high pending_ "2024-11-01T10:00:00.000Z")].

(** * Properties *)

(** ** Digest test vectors *)

Example sha256_abc :
  createHash SHA_256 "abc" hex
  = "ba7816bf8f01cfea414140de5dae2223b00361a396177a9cb410ff61f20015ad".
Proof. vm_compute. reflexivity. Qed.

Example sha384_abc_base64 :
  createHash SHA_384 "abc" base64
  = "ywB1P0WjXou1oD1pmsZQBycsMqsO3tFjGotgWkP/W+2AhgcroefMI1i67KE0yCWn".
Proof. vm_compute. reflexivity. Qed.

Example sha512_two_blocks :
  createHash SHA_512
    ("0123456789012345678901234567890123456789012345678901234567890123456789"
     ++ "012345678901234567890123456789012345678901234567890123456789") hex
  = "e112174a3d757acce780e4ea3401ba805993988b9e90804dde2f0394cdda9e42"
    ++ "4a5fc11089f9bb9f7315ac0bb341fb3023c5beab619312746c3e193866d9ddbc".
Proof. vm_compute. reflexivity. Qed.

(** ** The embedding on concrete inputs *)

Example hash_base64_three_rounds :
  hr_hash (hash (mkEntropy 5 (repeat 7%Z 32)) "hello"
                (mkHashOptions None (Present 3%Z) None (Some base64)))
  = "xr2ziE2JTafb/BI7WvJBQNNIch0+ep7bfXfErV0a9DU=".
Proof. vm_compute. reflexivity. Qed.

Example hash_undefined_iterations :
  let h := hash (mkEntropy 5 []) "secret"
                (mkHashOptions (Some sha256_) Undefined (Some "pepper") None) in
  hr_iterations h = 1%Z /\ hr_hash h = createHash SHA_256 "secret:pepper" hex.
Proof. vm_compute. split; reflexivity. Qed.

Example spread_lists_indices_first :
  spread [("b", JNum 1); ("a", JNum 2)] [("10", JNum 3); ("a", JNum 4); ("9", JNum 5)]
  = [("9", JNum 5); ("10", JNum 3); ("b", JNum 1); ("a", JNum 4)].
Proof. vm_compute. reflexivity. Qed.

Example roundToDouble_beyond_safe :
  map roundToDouble [9007199254740992; 9007199254740993; 9007199254740995;
                     18014398509481985; -9007199254740993]%Z
  = [9007199254740992; 9007199254740992; 9007199254740996;
     18014398509481984; -9007199254740992]%Z.
Proof. vm_compute. reflexivity. Qed.

Example stringify_sorts_keys :
  stringify (JObj order_ba) (sort (keys order_ba))
  = "{" ++ quote "app" ++ ":" ++ quote "x" ++ "," ++ quote "env" ++ ":" ++ quote "prod" ++ "}".
Proof. vm_compute. reflexivity. Qed.

Example hashState_deployment :
  hashState deployment = "276b4e633d5ac29d386f5cecfd5fe1644b75954aaa23bc8a7f2eb19021e5a8c0".
Proof. vm_compute. reflexivity. Qed.

Example hashId_deployment : hashId demoEntropy "deployment" = "deployment_ee993e6fcd71".
Proof. vm_compute. reflexivity. Qed.

Example getTime_leap_day : getTime "2024-02-29T12:34:56.789Z" = Some 1709210096789%Z.
Proof. vm_compute. reflexivity. Qed.

Example getTime_not_a_date : getTime "yesterday" = None.
Proof. vm_compute. reflexivity. Qed.

(** ** Key order and sorting *)
Section KeyOrder.

Lemma compare_le_trans (a b c : string) :
  String.compare a b <> Gt -> String.compare b c <> Gt -> String.compare a c <> Gt.
Proof.
  revert b c; induction a as [|x a IH]; intros [|y b] [|z c]; simpl;
    try congruence.
  unfold Ascii.compare.
  destruct (N.compare_spec (N_of_ascii x) (N_of_ascii y)) as [Exy|Lxy|Gxy];
    destruct (N.compare_spec (N_of_ascii y) (N_of_ascii z)) as [Eyz|Lyz|Gyz];
    try congruence; intros Hab Hbc.
  - rewrite Exy, Eyz, N.compare_refl. eauto.
  - rewrite Exy. apply N.compare_lt_iff in Lyz. rewrite Lyz. discriminate.
  - rewrite <- Eyz. apply N.compare_lt_iff in Lxy. rewrite Lxy. discriminate.
  - assert (L : (N_of_ascii x < N_of_ascii z)%N) by lia.
    apply N.compare_lt_iff in L. rewrite L. discriminate.
Qed.

Lemma leb_trans (a b c : string) :
  String.leb a b = true -> String.leb b c = true -> String.leb a c = true.
Proof.
  unfold String.leb. intros Hab Hbc.
  assert (H : String.compare a c <> Gt).
  { apply compare_le_trans with b.
    - destruct (String.compare a b); congruence.
    - destruct (String.compare b c); congruence. }
  destruct (String.compare a c); congruence.
Qed.

Lemma leb_false_flip (a b : string) : String.leb a b = false -> String.leb b a = true.
Proof. destruct (String.leb_total a b); congruence. Qed.

(** Inserting two keys gives the same list in either order. *)
Lemma insertSorted_swap (x y : string) (l : list string) :
  insertSorted x (insertSorted y l) = insertSorted y (insertSorted x l).
Proof.
  induction l as [|e l IH]; simpl.
  - destruct (String.leb x y) eqn:Hxy, (String.leb y x) eqn:Hyx; try reflexivity.
    + rewrite (String.leb_antisym _ _ Hxy Hyx). reflexivity.
    + apply leb_false_flip in Hxy. congruence.
  - destruct (String.leb y e) eqn:Hye, (String.leb x e) eqn:Hxe; simpl.
    + destruct (String.leb x y) eqn:Hxy, (String.leb y x) eqn:Hyx;
        rewrite ?Hye, ?Hxe; try reflexivity.
      * rewrite (String.leb_antisym _ _ Hxy Hyx). reflexivity.
      * apply leb_false_flip in Hxy. congruence.
    + destruct (String.leb x y) eqn:Hxy.
      * rewrite (leb_trans _ _ _ Hxy Hye) in Hxe. discriminate.
      * rewrite Hxe, Hye. reflexivity.
    + destruct (String.leb y x) eqn:Hyx.
      * rewrite (leb_trans _ _ _ Hyx Hxe) in Hye. discriminate.
      * rewrite Hxe, Hye. reflexivity.
    + rewrite Hxe, Hye, IH. reflexivity.
Qed.

(** [sort] depends on the keys only, not on the order they come in. *)
Lemma sort_Permutation (l l' : list string) : Permutation l l' -> sort l = sort l'.
Proof.
  unfold sort. induction 1; simpl; try congruence.
  apply insertSorted_swap.
Qed.

Lemma insertSorted_Permutation (x : string) (l : list string) :
  Permutation (insertSorted x l) (x :: l).
Proof.
  induction l as [|e l IH]; simpl; auto.
  destruct (String.leb x e); auto.
  rewrite IH. apply perm_swap.
Qed.

Lemma sort_is_Permutation (l : list string) : Permutation (sort l) l.
Proof.
  unfold sort. induction l as [|x l IH]; simpl; auto.
  rewrite insertSorted_Permutation. auto.
Qed.

End KeyOrder.

(** ** Property lookup *)
Section Lookup.
Variable A : Type.
Implicit Types (o : list (string * A)) (k : string).

Lemma getProp_In k o v : getProp k o = Some v -> In (k, v) o.
Proof.
  induction o as [|[k' v'] o IH]; simpl; try discriminate.
  destruct (String.eqb_spec k' k) as [->|]; intros H.
  - injection H as ->. auto.
  - auto.
Qed.

Lemma getProp_None k o : getProp k o = None <-> ~ In k (keys o).
Proof.
  unfold keys. induction o as [|[k' v'] o IH]; simpl.
  - tauto.
  - destruct (String.eqb_spec k' k); split; intros H;
      try tauto; try discriminate; simpl in *; tauto.
Qed.

Lemma In_getProp k o v : NoDup (keys o) -> In (k, v) o -> getProp k o = Some v.
Proof.
  unfold keys. induction o as [|[k' v'] o IH]; simpl; [tauto|].
  intros Hnd [E|Hin]; inversion Hnd as [|? ? Hk Hnd']; subst.
  - injection E as -> ->. rewrite String.eqb_refl. reflexivity.
  - destruct (String.eqb_spec k' k) as [->|]; auto.
    exfalso. apply Hk. change k with (fst (k, v)). apply in_map. exact Hin.
Qed.

(** Two property lists with the same pairs answer every read alike. *)
Lemma getProp_Permutation k o o' :
  NoDup (keys o) -> Permutation o o' -> getProp k o = getProp k o'.
Proof.
  intros Hnd Hp.
  assert (Hnd' : NoDup (keys o')).
  { unfold keys. eapply Permutation_NoDup; [|exact Hnd]. apply Permutation_map, Hp. }
  destruct (getProp k o) as [v|] eqn:E.
  - symmetry. apply In_getProp; auto.
    eapply Permutation_in; [exact Hp|]. apply getProp_In, E.
  - symmetry. apply getProp_None. apply getProp_None in E.
    intros Hin. apply E. unfold keys in *.
    eapply Permutation_in; [|exact Hin]. apply Permutation_map. symmetry. exact Hp.
Qed.
End Lookup.

(** ** Fingerprints of record data *)
Section Fingerprint.

(** The object case of [serialize], with its inner loop read as a [map]. *)
Lemma serialize_JObj (pl : list string) (o : Obj) :
  serialize pl (JObj o)
  = "{" ++ String.concat ","
             (flat_map (fun P => match getProp P (map (serializeMember pl) o) with
                                 | Some str => [quote P ++ ":" ++ str]
                                 | None => []
                                 end) pl)
        ++ "}".
Proof.
  simpl. do 3 f_equal.
  assert (E : forall ps,
             (fix each (ps : list (string * JSON)) : list (string * string) :=
                match ps with
                | [] => []
                | (k, v) :: rest => (k, serialize pl v) :: each rest
                end) ps = map (serializeMember pl) ps).
  { induction ps as [|[k v] ps IH]; simpl; [reflexivity|]. rewrite IH. reflexivity. }
  rewrite E. reflexivity.
Qed.

Lemma keys_map_member (pl : list string) (o : Obj) :
  keys (map (serializeMember pl) o) = keys o.
Proof. unfold keys. rewrite map_map. reflexivity. Qed.

Lemma serialize_JObj_Permutation (pl : list string) (o o' : Obj) :
  NoDup (keys o) -> Permutation o o' -> serialize pl (JObj o) = serialize pl (JObj o').
Proof.
  intros Hnd Hp. rewrite !serialize_JObj. do 3 f_equal.
  apply flat_map_ext. intros P.
  rewrite (@getProp_Permutation _ P (map (serializeMember pl) o)
                                (map (serializeMember pl) o')).
  - reflexivity.
  - rewrite keys_map_member. exact Hnd.
  - apply Permutation_map, Hp.
Qed.

(** Whatever sits below the top level under keys that do not occur at
    the top level never reaches the fingerprint. *)
Lemma hashState_blind_below_top (k : string) (o1 o2 : Obj) :
  ~ In k (keys o1) -> ~ In k (keys o2) ->
  hashState [(k, JObj o1)] = hashState [(k, JObj o2)].
Proof.
  intros H1 H2. unfold hashState, stringify. f_equal.
  change (dedupe (sort (keys [(k, JObj o1)]))) with [k].
  change (dedupe (sort (keys [(k, JObj o2)]))) with [k].
  assert (E : forall o, ~ In k (keys o) ->
                        serialize [k] (JObj o) = "{" ++ String.concat "," [] ++ "}").
  { intros o Ho. rewrite serialize_JObj. cbn [flat_map].
    assert (N : getProp k (map (serializeMember [k]) o) = None).
    { apply getProp_None. rewrite keys_map_member. exact Ho. }
    rewrite N. reflexivity. }
  rewrite !serialize_JObj. cbn [map flat_map serializeMember fst snd getProp].
  rewrite String.eqb_refl, (E o1 H1), (E o2 H2). reflexivity.
Qed.

End Fingerprint.

(** C1, evaluated on the code: the array replacer that [hashState] passes to
    [JSON.stringify] serves as the key list of nested objects too, so the
    nested key [replicas] is left out of both serialisations and two
    payloads that differ in its value have one and the same fingerprint. *)
Theorem hashState_drops_nested_values :
  nested_one <> nested_two
  /\ stringify (JObj nested_one) (sort (keys nested_one)) = "{" ++ quote "config" ++ ":{}}"
  /\ stringify (JObj nested_two) (sort (keys nested_two)) = "{" ++ quote "config" ++ ":{}}"
  /\ hashState nested_one = hashState nested_two.
Proof.
  split; [discriminate|].
  split; [vm_compute; reflexivity|].
  split; vm_compute; reflexivity.
Qed.

(** C2: two payloads with the same key-to-value pairs, whatever the order
    in which the keys were inserted, have the same fingerprint. *)
Theorem hashState_key_order_invariant (d1 d2 : Obj) :
  NoDup (keys d1) -> Permutation d1 d2 -> hashState d1 = hashState d2.
Proof.
  intros Hnd Hp. unfold hashState, stringify.
  assert (Hk : sort (keys d1) = sort (keys d2)).
  { apply sort_Permutation. unfold keys. apply Permutation_map, Hp. }
  rewrite <- Hk.
  rewrite (serialize_JObj_Permutation (dedupe (sort (keys d1))) Hnd Hp).
  reflexivity.
Qed.

Lemma hashState_key_order_invariant_witness :
  NoDup (keys order_ab) /\ Permutation order_ab order_ba
  /\ hashState order_ab = hashState order_ba.
Proof.
  assert (Hnd : NoDup (keys order_ab)).
  { unfold keys; simpl. repeat constructor; simpl; intuition discriminate. }
  assert (Hp : Permutation order_ab order_ba) by apply perm_swap.
  split; [exact Hnd|]. split; [exact Hp|].
  exact (hashState_key_order_invariant Hnd Hp).
Defined.

(** ** [hash] and [verify] *)
Section Verify.

Lemma char_at_hexDigits (q : Z) :
  (0 <= q < 16)%Z -> exists c, char_at hexDigits q = String c EmptyString.
Proof.
  intros H.
  assert (C : (q = 0 \/ q = 1 \/ q = 2 \/ q = 3 \/ q = 4 \/ q = 5 \/ q = 6 \/ q = 7
               \/ q = 8 \/ q = 9 \/ q = 10 \/ q = 11 \/ q = 12 \/ q = 13 \/ q = 14
               \/ q = 15)%Z) by lia.
  repeat (destruct C as [->|C]; [eexists; reflexivity|]).
  subst q. eexists; reflexivity.
Qed.

Lemma toHex_nonempty (b : Z) (bytes : list Z) :
  (0 <= b < 256)%Z -> toHex (b :: bytes) <> EmptyString.
Proof.
  intros H. unfold toHex.
  destruct (@char_at_hexDigits (b / 16)) as [c Hc].
  { split; [apply Z.div_pos; lia | apply Z.div_lt_upper_bound; lia]. }
  simpl map. simpl String.concat. rewrite Hc.
  destruct (map _ bytes); simpl; discriminate.
Qed.

Lemma generateSalt_nonempty (w : Entropy) :
  drawsBytes 32 w -> generateSalt (random_bytes w) <> EmptyString.
Proof.
  intros [Hlen Hall]. unfold generateSalt.
  destruct (random_bytes w) as [|b bytes]; [discriminate|].
  apply toHex_nonempty. inversion Hall; assumption.
Qed.

(** The salt a [HashResult] records is never empty. *)
Lemma hash_salt_nonempty (w : Entropy) (data : string) (options : HashOptions) :
  drawsBytes 32 w -> hr_salt (hash w data options) <> EmptyString.
Proof.
  intros Hw. unfold hash. cbn [hr_salt].
  destruct (String.eqb_spec (orDefault (opt_salt options) EmptyString) EmptyString);
    [apply generateSalt_nonempty, Hw | assumption].
Qed.

(** With a salt given, [hash] reads neither the random source nor, for its
    digest, the clock. *)
Lemma hash_with_salt (w w' : Entropy) (data salt : string) (a : Algorithm) (n : Z) (e : Encoding) :
  salt <> EmptyString ->
  hr_hash (hash w data (mkHashOptions (Some a) (Present n) (Some salt) (Some e)))
  = hr_hash (hash w' data (mkHashOptions (Some a) (Present n) (Some salt) (Some e))).
Proof.
  intros Hs. unfold hash, shaInfinity, opts_iterations.
  cbn [hr_hash orDefault opt_algorithm opt_iterations opt_salt opt_encoding].
  apply String.eqb_neq in Hs. rewrite !Hs. reflexivity.
Qed.

Lemma timingSafeEqual_same (buf : list Z) : timingSafeEqual buf buf = Some true.
Proof.
  unfold timingSafeEqual. rewrite Nat.eqb_refl. f_equal.
  induction buf as [|b buf IH]; simpl; [reflexivity|].
  rewrite Z.eqb_refl. exact IH.
Qed.

Lemma timingSafeCompare_same (a : string) : timingSafeCompare a a = Some true.
Proof.
  unfold timingSafeCompare. rewrite Nat.eqb_refl. simpl. apply timingSafeEqual_same.
Qed.

(** With hex output, the result of [hash] holds just what [verify] feeds
    back to [hash], unless [shaInfinity] ran on the default of its
    parameter. *)
Lemma hash_replay (w : Entropy) (data : string) (options : HashOptions) :
  orDefault (opt_encoding options) hex = hex ->
  (orDefault (opt_algorithm options) sha256_ = sha_infinity ->
   opt_iterations options <> Undefined) ->
  let h := hash w data options in
  hr_hash h
  = hr_hash (hash w data (mkHashOptions (Some (hr_algorithm h)) (Present (hr_iterations h))
                                        (Some (hr_salt h)) (Some hex))).
Proof.
  intros He Hit h.
  assert (Hs : String.eqb (hr_salt h) EmptyString
               = String.eqb (generateSalt (random_bytes w)) EmptyString
                 && String.eqb (orDefault (opt_salt options) EmptyString) EmptyString).
  { subst h. unfold hash. cbn [hr_salt].
    destruct (String.eqb (orDefault (opt_salt options) EmptyString) EmptyString) eqn:E;
      [rewrite andb_true_r | rewrite andb_false_r]; auto. }
  assert (Hbase : orDefault (opt_algorithm options) sha256_ = sha_infinity ->
                  orDefault (opts_iterations options) 10000%Z
                  = orDefault (opts_iterations options) 1%Z).
  { intros Ha. specialize (Hit Ha). unfold opts_iterations.
    destruct (opt_iterations options); [reflexivity|contradiction|reflexivity]. }
  subst h. unfold hash in *.
  cbn [hr_hash hr_algorithm hr_iterations hr_salt opt_algorithm opt_iterations opt_salt
       opt_encoding] in *.
  change (opts_iterations (mkHashOptions ?a (Present ?n) ?s ?e)) with (Some n).
  cbn [orDefault] in *. rewrite He. unfold shaInfinity.
  destruct (orDefault (opt_algorithm options) sha256_);
    try rewrite (Hbase eq_refl);
    (destruct (String.eqb (orDefault (opt_salt options) EmptyString) EmptyString) eqn:E;
     [destruct (String.eqb (generateSalt (random_bytes w)) EmptyString) eqn:G;
      rewrite ?G; reflexivity
     |rewrite !E; reflexivity]).
Qed.

(** What the exclusion above leaves out: under [sha_infinity], with the
    iteration count present as [undefined], [hash] runs [shaInfinity] from
    its default base of 10000 and records 1, from which [verify] then
    recomputes. *)
Lemma hash_infinity_undefined_iterations (w w' : Entropy) (data : string)
    (salt : option string) :
  let h := hash w data (mkHashOptions (Some sha_infinity) Undefined salt None) in
  hr_iterations h = 1%Z
  /\ hr_hash h = shaInfinity (random_bytes w) data (hr_salt h) 10000 hex
  /\ hr_hash (hash w' data (mkHashOptions (Some (hr_algorithm h)) (Present (hr_iterations h))
                                          (Some (hr_salt h)) (Some hex)))
     = shaInfinity (random_bytes w') data
                   (if String.eqb (hr_salt h) EmptyString
                    then generateSalt (random_bytes w') else hr_salt h) 1 hex.
Proof. cbn zeta. repeat split. Qed.

End Verify.

(** C9 as stated fails: a hash asked for in base64 is not accepted by
    [verify], which recomputes in hex and compares the two texts. *)
Lemma verify_rejects_base64_hash :
  option_map valid
    (verify (mkEntropy 2 []) "secret" (hash (mkEntropy 1 []) "secret" base64_options))
  = Some false.
Proof. vm_compute. reflexivity. Qed.

(** C9, amended: for every input, algorithm, iteration count and salt, and
    with hex output (the default), [verify] accepts what [hash] returned:
    it recomputes with the algorithm, iteration count and salt recorded in
    the result.  Under [sha_infinity] the iteration count is absent or a
    number, not present as [undefined]. *)
Theorem verify_accepts_hex_hash (w w' : Entropy) (data : string) (options : HashOptions) :
  drawsBytes 32 w ->
  orDefault (opt_encoding options) hex = hex ->
  (orDefault (opt_algorithm options) sha256_ = sha_infinity ->
   opt_iterations options <> Undefined) ->
  verify w' data (hash w data options)
  = Some (mkHashVerification true (hash w data options) data).
Proof.
  intros Hw He Hit. unfold verify.
  rewrite (@hash_with_salt w' w); [|apply hash_salt_nonempty, Hw].
  rewrite <- (hash_replay w data options He Hit).
  rewrite timingSafeCompare_same. reflexivity.
Qed.

Lemma verify_accepts_hex_hash_witness :
  drawsBytes 32 (mkEntropy 1 (repeat 7%Z 32))
  /\ orDefault (opt_encoding infinity_options) hex = hex
  /\ opt_iterations infinity_options <> Undefined
  /\ verify (mkEntropy 2 []) "secret" (hash (mkEntropy 1 (repeat 7%Z 32)) "secret" infinity_options)
     = Some (mkHashVerification true
               (hash (mkEntropy 1 (repeat 7%Z 32)) "secret" infinity_options) "secret").
Proof.
  assert (Hw : drawsBytes 32 (mkEntropy 1 (repeat 7%Z 32))).
  { split; [reflexivity|]. simpl. repeat constructor; lia. }
  assert (Hit : opt_iterations infinity_options <> Undefined) by discriminate.
  split; [exact Hw|]. split; [reflexivity|]. split; [exact Hit|].
  exact (@verify_accepts_hex_hash _ (mkEntropy 2 []) "secret" infinity_options Hw eq_refl
           (fun _ => Hit)).
Defined.

(** ** The records map *)
Section MapLemmas.
Variable V : Type.
Implicit Types (m : JsMap V) (k : string) (v : V).

Lemma mapGet_mapSet_same k v m : mapGet k (mapSet k v m) = Some v.
Proof.
  unfold mapGet. induction m as [|[k' v'] m IH]; simpl.
  - rewrite String.eqb_refl. reflexivity.
  - destruct (String.eqb k' k) eqn:E; simpl; rewrite E; auto.
Qed.

Lemma mapGet_mapSet_other k k' v m : k' <> k -> mapGet k' (mapSet k v m) = mapGet k' m.
Proof.
  unfold mapGet. intros Hne. induction m as [|[k0 v0] m IH]; simpl.
  - destruct (String.eqb_spec k k'); congruence.
  - destruct (String.eqb_spec k0 k) as [->|]; simpl.
    + destruct (String.eqb_spec k k'); congruence.
    + destruct (String.eqb k0 k'); auto.
Qed.

(** Storing again what a key already holds changes nothing. *)
Lemma mapSet_unchanged k v m : mapGet k m = Some v -> mapSet k v m = m.
Proof.
  unfold mapGet. induction m as [|[k' v'] m IH]; simpl; [discriminate|].
  destruct (String.eqb k' k) eqn:E; intros H.
  - injection H as ->. reflexivity.
  - rewrite IH; auto.
Qed.

Lemma mapHas_true k m : mapHas k m = true <-> exists v, mapGet k m = Some v.
Proof.
  unfold mapHas. destruct (mapGet k m); split; eauto; try discriminate.
  intros [? ?]; discriminate.
Qed.
End MapLemmas.

(** ** Own keys of an object *)
Section OwnKeys.
Variable A : Type.
Implicit Types (o : list (string * A)).

Lemma mapSet_new (k : string) (v : A) o :
  ~ In k (keys o) -> mapSet k v o = (o ++ [(k, v)])%list.
Proof.
  unfold keys. induction o as [|[k' v'] o IH]; intros Hk; [reflexivity|].
  cbn [mapSet app]. destruct (String.eqb_spec k' k) as [->|Hne].
  - exfalso. apply Hk. left. reflexivity.
  - rewrite IH; [reflexivity|]. intros Hin. apply Hk. right. exact Hin.
Qed.

(** Entries with distinct keys make the object that lists them in order. *)
Lemma setAll_distinct (entries : list (string * A)) o :
  NoDup (keys (o ++ entries)) ->
  fold_left (fun acc e => mapSet (fst e) (snd e) acc) entries o = (o ++ entries)%list.
Proof.
  revert o. induction entries as [|[k v] entries IH]; intros o Hnd.
  - cbn [fold_left]. rewrite app_nil_r. reflexivity.
  - cbn [fold_left fst snd]. rewrite mapSet_new.
    + rewrite IH.
      * rewrite <- app_assoc. reflexivity.
      * rewrite <- app_assoc. exact Hnd.
    + unfold keys in *. rewrite map_app in Hnd. cbn [map fst] in Hnd.
      apply NoDup_remove_2 in Hnd. intros Hin. apply Hnd. apply in_or_app. left. exact Hin.
Qed.

Lemma insertByIndex_Permutation (n : Z) (e : string * A) (l : list (Z * (string * A))) :
  Permutation (insertByIndex n e l) ((n, e) :: l).
Proof.
  induction l as [|[n' e'] l IH]; cbn [insertByIndex]; [reflexivity|].
  destruct (n <? n')%Z; [reflexivity|]. rewrite IH. apply perm_swap.
Qed.

Lemma ownKeyOrder_Permutation o : Permutation (ownKeyOrder o) o.
Proof.
  unfold ownKeyOrder. induction o as [|e o IH]; [reflexivity|].
  cbn [indexedProps filter]. destruct (arrayIndex (fst e)) as [n|].
  - rewrite insertByIndex_Permutation. cbn [map snd app]. apply perm_skip, IH.
  - rewrite <- Permutation_middle. apply perm_skip, IH.
Qed.

Lemma objectFromEntries_Permutation (entries : list (string * A)) :
  NoDup (keys entries) -> Permutation (objectFromEntries entries) entries.
Proof.
  intros Hnd. unfold objectFromEntries.
  rewrite (@setAll_distinct entries []) by exact Hnd. apply ownKeyOrder_Permutation.
Qed.

End OwnKeys.

(** ** Record store operations *)
Section Store.

Lemma getProp_setAll (k : string) (source target : Obj) :
  NoDup (keys source) ->
  getProp k (fold_left (fun acc e => mapSet (fst e) (snd e) acc) source target)
  = match getProp k source with
    | Some v => Some v
    | None => getProp k target
    end.
Proof.
  unfold keys. revert target.
  induction source as [|[k1 v1] source IH]; intros target Hnd; simpl; [reflexivity|].
  inversion Hnd as [|? ? Hk Hnd']; subst. rewrite IH by assumption.
  destruct (String.eqb_spec k1 k) as [->|Hne].
  - assert (E : getProp k source = None) by (apply getProp_None; exact Hk).
    rewrite E. apply mapGet_mapSet_same.
  - destruct (getProp k source); [reflexivity|].
    apply mapGet_mapSet_other. congruence.
Qed.

Lemma keys_mapSet (V : Type) (k : string) (v : V) (m : JsMap V) :
  keys (mapSet k v m) = if mapHas k m then keys m else (keys m ++ [k])%list.
Proof.
  unfold keys, mapHas, mapGet. induction m as [|[k' v'] m IH]; [reflexivity|].
  cbn [mapSet getProp map fst]. destruct (String.eqb k' k); [reflexivity|].
  cbn [map fst]. rewrite IH. destruct (getProp k m); reflexivity.
Qed.

Lemma NoDup_mapSet (V : Type) (k : string) (v : V) (m : JsMap V) :
  NoDup (keys m) -> NoDup (keys (mapSet k v m)).
Proof.
  intros Hnd. rewrite keys_mapSet. destruct (mapHas k m) eqn:E; [exact Hnd|].
  apply NoDup_app; [exact Hnd|repeat constructor; intros []|].
  intros x Hx [->|[]]. unfold mapHas, mapGet in E.
  assert (En : getProp x m = None) by (destruct (getProp x m); [discriminate|reflexivity]).
  apply getProp_None in En. contradiction.
Qed.

Lemma NoDup_setAll (V : Type) (entries m : JsMap V) :
  NoDup (keys m) ->
  NoDup (keys (fold_left (fun acc e => mapSet (fst e) (snd e) acc) entries m)).
Proof.
  revert m. induction entries as [|e entries IH]; intros m Hnd; [exact Hnd|].
  cbn [fold_left]. apply IH, NoDup_mapSet, Hnd.
Qed.

(** The shallow merge, read key by key. *)
Lemma getProp_spread (k : string) (source target : Obj) :
  NoDup (keys target) -> NoDup (keys source) ->
  getProp k (spread target source)
  = match getProp k source with
    | Some v => Some v
    | None => getProp k target
    end.
Proof.
  intros Ht Hs. unfold spread, objectFromEntries.
  rewrite <- (@getProp_Permutation _ k
                (fold_left (fun o e => mapSet (fst e) (snd e) o) (target ++ source)%list [])).
  - rewrite fold_left_app, getProp_setAll by exact Hs.
    destruct (getProp k source); [reflexivity|].
    rewrite getProp_setAll by exact Ht. destruct (getProp k target); reflexivity.
  - apply NoDup_setAll. constructor.
  - symmetry. apply ownKeyOrder_Permutation.
Qed.

Lemma roundToDouble_exact (x : Z) : (Z.abs x <= 2 ^ 53)%Z -> roundToDouble x = x.
Proof.
  intros H. unfold roundToDouble. apply Z.leb_le in H. rewrite H. reflexivity.
Qed.

Lemma records_updateLocalHash (m : StateManager) :
  records (localState (updateLocalHash m)) = records (localState m).
Proof. reflexivity. Qed.

End Store.

(** C7 as stated fails: a change of the data below the top level leaves
    the fingerprint as it was, and a version that has reached [2^53] is not
    raised by [+ 1], numbers being doubles. *)
Lemma update_misses_stated_changes :
  (get (r_id (fst nestedDeployed)) (snd nestedDeployed) = Some (fst nestedDeployed)
   /\ r_data (fst nestedDeployed) = nested_one
   /\ option_map r_data
        (fst (update "2024-11-01T10:05:00.000Z" (r_id (fst nestedDeployed)) nested_two
                     (snd nestedDeployed)))
      = Some nested_two
   /\ nested_two <> nested_one
   /\ option_map r_hash
        (fst (update "2024-11-01T10:05:00.000Z" (r_id (fst nestedDeployed)) nested_two
                     (snd nestedDeployed)))
      = Some (r_hash (fst nestedDeployed)))
  /\ (get "deployment_1" longLived = Some veteran
      /\ option_map r_version
           (fst (update "2024-11-01T10:05:00.000Z" "deployment_1" [("env", JStr "staging")]
                        longLived))
         = Some (r_version veteran)).
Proof.
  split; [|split; vm_compute; reflexivity].
  split; [vm_compute; reflexivity|]. split; [reflexivity|].
  split; [vm_compute; reflexivity|]. split; [discriminate|].
  vm_compute. reflexivity.
Qed.

(** C7, amended: [update] of a stored record returns that record with its
    data shallowly merged with the partial data, the fingerprint of the
    merged data, the version raised by exactly one when it is a safe
    integer, and an empty [syncedTo], and puts it in the store under the
    same id. *)
Theorem update_present (now id : string) (partialData : Obj) (m : StateManager)
    (r : StateRecord) :
  get id m = Some r ->
  exists u,
    fst (update now id partialData m) = Some u
    /\ r_data u = spread (r_data r) partialData
    /\ (NoDup (keys (r_data r)) -> NoDup (keys partialData) ->
        forall k, getProp k (r_data u)
                  = match getProp k partialData with
                    | Some v => Some v
                    | None => getProp k (r_data r)
                    end)
    /\ r_hash u = hashState (r_data u)
    /\ (safeVersion r -> r_version u = (r_version r + 1)%Z)
    /\ r_syncedTo u = []
    /\ r_id u = r_id r /\ r_type u = r_type r /\ r_createdAt u = r_createdAt r
    /\ r_updatedAt u = now
    /\ get id (snd (update now id partialData m)) = Some u.
Proof.
  unfold get, update. intros Hget. rewrite Hget.
  eexists. split; [reflexivity|]. cbn [r_data r_hash r_version r_syncedTo r_id r_type
                                          r_createdAt r_updatedAt snd].
  split; [reflexivity|]. split; [intros Ht Hs k; apply getProp_spread; assumption|].
  split; [reflexivity|]. split.
  - unfold safeVersion. intros Hsafe. apply roundToDouble_exact. lia.
  - repeat split. rewrite records_updateLocalHash. apply mapGet_mapSet_same.
Qed.

Lemma update_present_witness :
  get (r_id (fst deployed)) (snd deployed) = Some (fst deployed)
  /\ exists u,
       fst (update "2024-11-01T10:05:00.000Z" (r_id (fst deployed))
                   [("env", JStr "staging")] (snd deployed)) = Some u
       /\ r_hash u <> r_hash (fst deployed)
       /\ r_version u = 2%Z /\ r_syncedTo u = [].
Proof.
  assert (H : get (r_id (fst deployed)) (snd deployed) = Some (fst deployed))
    by (vm_compute; reflexivity).
  split; [exact H|].
  destruct (@update_present "2024-11-01T10:05:00.000Z" _ [("env", JStr "staging")] _ _ H)
    as (u & Hu & Hd & _ & Hh & Hv & Hs & _).
  exists u. split; [exact Hu|]. split; [|split; [|exact Hs]].
  - rewrite Hh, Hd. vm_compute. discriminate.
  - rewrite Hv; [reflexivity|]. unfold safeVersion. vm_compute. reflexivity.
Defined.

(** C10: [update] of an id the store does not hold returns [null] and
    leaves the manager exactly as it was: no record is created or changed
    and the store-wide hash is not recomputed. *)
Theorem update_absent (now id : string) (partialData : Obj) (m : StateManager) :
  get id m = None -> update now id partialData m = (None, m).
Proof. unfold get, update. intros H. rewrite H. reflexivity. Qed.

Lemma update_absent_witness :
  get "deployment_missing" (snd deployed) = None
  /\ update "2024-11-01T10:05:00.000Z" "deployment_missing" [("env", JStr "staging")]
            (snd deployed)
     = (None, snd deployed).
Proof.
  assert (H : get "deployment_missing" (snd deployed) = None) by (vm_compute; reflexivity).
  split; [exact H|].
  exact (@update_absent "2024-11-01T10:05:00.000Z" _ [("env", JStr "staging")] _ H).
Defined.

(** C4: while a sync is in flight, [sync] returns at once the failure
    naming that condition and leaves the manager, hence the records, the
    last sync time and the store hash, exactly as it was. *)
Theorem sync_rejected_while_in_progress (clock : Clock) (options : SyncOptions)
    (m : StateManager) :
  syncInProgress m = true ->
  sync clock options m
  = (mkStateSyncResult false [] ["Sync already in progress"] [], m).
Proof. unfold sync. intros H. rewrite H. reflexivity. Qed.

Lemma sync_rejected_while_in_progress_witness :
  syncInProgress busy = true
  /\ sync (fun _ => "2024-11-01T10:06:00.000Z") noOptions busy
     = (mkStateSyncResult false [] ["Sync already in progress"] [], busy).
Proof.
  split; [reflexivity|].
  exact (@sync_rejected_while_in_progress _ noOptions busy eq_refl).
Defined.

(** ** The store-wide hash *)
Section StoreHash.

Lemma updateLocalHash_current (m : StateManager) : hashCurrent (updateLocalHash m).
Proof. reflexivity. Qed.

Lemma create_current now w type data m : hashCurrent (snd (create now w type data m)).
Proof. unfold create. cbn [snd]. apply updateLocalHash_current. Qed.

Lemma update_current now id data m :
  hashCurrent m -> hashCurrent (snd (update now id data m)).
Proof.
  unfold update. destruct (mapGet id (records (localState m))); cbn [snd].
  - intros _. apply updateLocalHash_current.
  - intros H. exact H.
Qed.

Lemma delete_current id m : hashCurrent m -> hashCurrent (snd (delete id m)).
Proof.
  unfold delete. destruct (mapHas id (records (localState m))); cbn [snd].
  - intros _. apply updateLocalHash_current.
  - intros H. exact H.
Qed.

Lemma importState_current state m : hashCurrent (importState state m).
Proof. unfold importState. apply updateLocalHash_current. Qed.

Lemma pullFromRemote_current clock t m :
  hashCurrent (snd (fst (pullFromRemote clock t m))).
Proof.
  unfold pullFromRemote.
  destruct (match cloudflare m with Some _ => _ | None => _ end) as [merge failed1].
  destruct (match salesforce m with Some _ => _ | None => _ end) as [[[rs2 t2] synced2] failed2].
  cbn [fst snd]. apply updateLocalHash_current.
Qed.

End StoreHash.

(** After a pull-only [sync] of an idle manager the store hash is the
    fingerprint of the records it returns with, but with the [lastSync]
    it started from. *)
Lemma sync_pull_hash (clock : Clock) (m : StateManager) :
  syncInProgress m = false ->
  let m' := snd (sync clock pullOnly m) in
  stateHash (localState m')
  = hashState (stateData (mkStoredState (records (localState m')) (lastSync (localState m))
                                        (stateHash (localState m')))).
Proof.
  intros Hidle. unfold sync. rewrite Hidle. cbn [direction pullOnly orDefault].
  unfold pullFromRemote. cbn [cloudflare salesforce conflictResolution localState
                                withSyncInProgress].
  destruct (match cloudflare m with Some _ => _ | None => _ end) as [merge failed1].
  destruct (match salesforce m with Some _ => _ | None => _ end) as [[[rs2 t2] synced2] failed2].
  reflexivity.
Qed.

(** C8, evaluated on the code: [sync] recomputes the store hash at the end
    of the pull phase and sets [lastSync] afterwards, so that on return the
    hash is still the fingerprint taken with the previous [lastSync] and not
    that of the current records map and [lastSync]. *)
Theorem sync_leaves_stale_hash :
  lastSync (localState afterFirstSync) = "2024-11-01T10:00:00.000Z"
  /\ stateHash (localState afterFirstSync) = hashState (stateData (localState fresh))
  /\ stateHash (localState afterFirstSync)
     <> hashState (stateData (localState afterFirstSync)).
Proof.
  split; [reflexivity|]. split; [reflexivity|].
  vm_compute. discriminate.
Qed.

(** ** Push selection *)

Lemma needsSync_unfold (options : SyncOptions) (r : StateRecord) :
  needsSync options r
  = typeSelected options r
    && (orDefault (force options) false || Nat.ltb (List.length (r_syncedTo r)) 2).
Proof.
  unfold needsSync, typeSelected.
  destruct (includeTypes options) as [inc|], (excludeTypes options) as [exc|]; simpl;
    repeat match goal with |- context [includes ?x ?l] => destruct (includes x l) end;
    reflexivity.
Qed.

(** C6 as stated fails: with Cloudflare alone configured, a record that
    Cloudflare has acknowledged is still selected for push. *)
Lemma recordsToSync_ignores_configuration :
  configuredStores edgeOnly = 1
  /\ recordsToSync noOptions edgeOnly = [acked]
  /\ recordsToSync_spec noOptions edgeOnly = [].
Proof. repeat split. Qed.

(** C6, amended: without [force] the push phase selects exactly the
    type-filtered records whose [syncedTo] has fewer than two entries, two
    being a constant of the code and not the number of stores configured;
    with [force] it selects all type-filtered records.  When both stores
    are configured this is the selection of the design document. *)
Theorem recordsToSync_fixed_threshold (options : SyncOptions) (m : StateManager) :
  (forall r, In r (recordsToSync options m)
             <-> In r (values (records (localState m)))
                 /\ typeSelected options r = true
                 /\ (force options = Some true \/ List.length (r_syncedTo r) < 2))
  /\ (force options = Some true ->
      recordsToSync options m = filter (typeSelected options) (values (records (localState m))))
  /\ (configuredStores m = 2 -> recordsToSync options m = recordsToSync_spec options m).
Proof.
  unfold recordsToSync, recordsToSync_spec. repeat split.
  - rewrite filter_In, needsSync_unfold in H. tauto.
  - rewrite filter_In, needsSync_unfold in H.
    destruct H as [_ H]. apply andb_prop in H. tauto.
  - rewrite filter_In, needsSync_unfold in H.
    destruct H as [_ H]. apply andb_prop in H. destruct H as [_ H].
    apply orb_prop in H. destruct H as [H|H].
    + left. destruct (force options) as [[|]|]; simpl in H; congruence.
    + right. apply Nat.ltb_lt. exact H.
  - intros (Hin & Ht & Hf). rewrite filter_In, needsSync_unfold, Ht. split; [exact Hin|].
    destruct Hf as [->|Hf]; simpl; [reflexivity|].
    apply Nat.ltb_lt in Hf. rewrite Hf. apply orb_true_r.
  - intros Hf. apply filter_ext. intros r. rewrite needsSync_unfold, Hf. simpl.
    apply andb_true_r.
  - intros Hc. apply filter_ext. intros r. rewrite needsSync_unfold, Hc. reflexivity.
Qed.

(** ** Pull and unverified blobs *)

Lemma failsVerification_invalid (c : CloudflareClient) :
  failsVerification c ->
  exists data : Retrieved,
    retrieveState (kvGet c) = Returns (mkAPIResponse true (Some data) None)
    /\ isValid data = false.
Proof.
  intros (resp & entry & env & Hkv & Hok & Hp & Hparsed & Hh).
  unfold retrieveState. rewrite Hkv, Hok, Hp, Hparsed.
  eexists. split; [reflexivity|]. cbn [isValid].
  destruct (env_hash env) as [h|]; [|reflexivity].
  apply String.eqb_neq. congruence.
Qed.

Lemma pullCloudflare_unverified (policy : ConflictResolution) (c : CloudflareClient)
    (rs : JsMap StateRecord) :
  failsVerification c -> pullCloudflare policy c rs = (mkMerge rs [] [], []).
Proof.
  intros H. destruct (failsVerification_invalid H) as (data & Hr & Hv).
  unfold pullCloudflare. rewrite Hr. cbn [ok payload]. rewrite Hv. reflexivity.
Qed.

Lemma pullFromRemote_unverified (clock : Clock) (t : nat) (m : StateManager)
    (c : CloudflareClient) :
  cloudflare m = Some c -> failsVerification c ->
  let out := pullFromRemote clock t m in
  let ref := pullFromRemote clock t (withoutCloudflare m) in
  fst (fst out) = fst (fst ref)
  /\ localState (snd (fst out)) = localState (snd (fst ref))
  /\ snd out = snd ref.
Proof.
  intros Hc Hf. unfold pullFromRemote. cbn [cloudflare withoutCloudflare salesforce
                                            localState conflictResolution].
  rewrite Hc, (pullCloudflare_unverified _ _ Hf).
  destruct (match salesforce m with Some _ => _ | None => _ end) as [[[rs2 t2] synced2] failed2].
  cbn [fst snd]. repeat split.
Qed.

Lemma tamperedClient_failsVerification : failsVerification tamperedClient.
Proof.
  exists (mkAPIResponse true (Some (mkKVEntry "blackroad_state" (Some tamperedBlob))) None),
         (mkKVEntry "blackroad_state" (Some tamperedBlob)), tamperedBlob.
  split; [reflexivity|]. split; [reflexivity|]. split; [reflexivity|].
  split; [reflexivity|].
  vm_compute. discriminate.
Qed.

(** C3 as stated fails: a blob whose reported fingerprint does not match is
    skipped, yet the result lists no failure and reports success. *)
Lemma unverified_blob_not_reported :
  failsVerification tamperedClient
  /\ sync (fun _ => "2024-11-01T10:00:00.000Z") pullOnly tamperedManager
     = (mkStateSyncResult true [] [] [],
        snd (sync (fun _ => "2024-11-01T10:00:00.000Z") pullOnly tamperedManager))
  /\ records (localState (snd (sync (fun _ => "2024-11-01T10:00:00.000Z") pullOnly
                                    tamperedManager))) = [].
Proof.
  split; [exact tamperedClient_failsVerification|].
  split; vm_compute; reflexivity.
Qed.

Lemma pullFromRemote_failed_edge (clock : Clock) (t : nat) (m : StateManager) :
  cloudflare m = None ->
  forall e, In e (failed (fst (fst (pullFromRemote clock t m)))) ->
            String.prefix "cloudflare:" e = false.
Proof.
  intros Hc e. unfold pullFromRemote. rewrite Hc.
  destruct (salesforce m) as [sf|]; [unfold pullSalesforce|].
  - destruct (getCRMState sf) as [crm|msg].
    + destruct (ok crm), (payload crm) as [data|];
        try destruct (mergeCRMState _ _ _); cbn [fst failed app]; intros [].
    + cbn [fst failed app]. intros [<-|[]]. reflexivity.
  - cbn [fst failed app]. intros [].
Qed.

Lemma pullFromRemote_no_adapter (clock : Clock) (t : nat) (m : StateManager) :
  cloudflare m = None -> salesforce m = None ->
  records (localState (snd (fst (pullFromRemote clock t m)))) = records (localState m).
Proof. intros Hc Hs. unfold pullFromRemote. rewrite Hc, Hs. reflexivity. Qed.

(** C3, amended: when the blob retrieved from an adapter fails fingerprint
    verification, a pull merges no record from that adapter, and it records
    nothing about it either: result and local state are those of the same
    pull with that adapter not configured, so no entry of [failed] names
    the adapter. *)
Theorem sync_pull_skips_unverified_blob (clock : Clock) (m : StateManager)
    (c : CloudflareClient) :
  cloudflare m = Some c -> failsVerification c ->
  let out := sync clock pullOnly m in
  let ref := sync clock pullOnly (withoutCloudflare m) in
  fst out = fst ref
  /\ localState (snd out) = localState (snd ref)
  /\ (salesforce m = None -> records (localState (snd out)) = records (localState m))
  /\ (forall e, In e (failed (fst out)) -> String.prefix "cloudflare:" e = false).
Proof.
  intros Hc Hf. unfold sync. cbn [withoutCloudflare syncInProgress].
  destruct (syncInProgress m) eqn:Hbusy.
  - cbn [fst snd rejected failed]. repeat split. intros e [<-|[]]. reflexivity.
  - cbn [direction pullOnly orDefault].
    pose proof (@pullFromRemote_unverified clock 0 (withSyncInProgress m true) c Hc Hf)
      as (Hres & Hls & Ht).
    pose proof (@pullFromRemote_failed_edge clock 0
                  (withoutCloudflare (withSyncInProgress m true)) eq_refl) as Hfail.
    pose proof (@pullFromRemote_no_adapter clock 0
                  (withoutCloudflare (withSyncInProgress m true)) eq_refl) as Hkeep.
    change (withSyncInProgress (withoutCloudflare m) true)
      with (withoutCloudflare (withSyncInProgress m true)).
    destruct (pullFromRemote clock 0 (withSyncInProgress m true)) as [[res m1] t1].
    destruct (pullFromRemote clock 0 (withoutCloudflare (withSyncInProgress m true)))
      as [[res0 m0] t0].
    cbn [fst snd] in *. subst res0 t0.
    cbn [localState withSyncInProgress withLocalState fst snd failed emptyResult].
    rewrite Hls. repeat split.
    + intros Hsf. cbn [records]. apply Hkeep. exact Hsf.
    + intros e. rewrite app_nil_r. apply Hfail.
Qed.

Lemma sync_pull_skips_unverified_blob_witness :
  cloudflare tamperedManager = Some tamperedClient
  /\ failsVerification tamperedClient
  /\ fst (sync (fun _ => "2024-11-01T10:00:00.000Z") pullOnly tamperedManager)
     = fst (sync (fun _ => "2024-11-01T10:00:00.000Z") pullOnly
                 (withoutCloudflare tamperedManager)).
Proof.
  split; [reflexivity|]. split; [exact tamperedClient_failsVerification|].
  exact (proj1 (@sync_pull_skips_unverified_blob (fun _ => "2024-11-01T10:00:00.000Z")
                  tamperedManager tamperedClient eq_refl
                  tamperedClient_failsVerification)).
Defined.

(** ** Pulling twice from an unchanged remote *)
Section PullTwice.
Variable policy : ConflictResolution.

Lemma resolveConflict_cases (l r : StateRecord) :
  keepsLocal policy l r
  \/ snd (resolveConflict policy l r) = Some (withSyncedTo r [Cloudflare; Salesforce]).
Proof.
  unfold keepsLocal, resolveConflict. destruct policy; cbn [snd]; auto.
  destruct (timeGe _ _); cbn [snd]; auto.
Qed.

Lemma pullEntry_settles (acc : Merge) (e : string * StateRecord) :
  settled policy (mg_records (pullEntry policy acc e)) (mg_conflicts (pullEntry policy acc e)) e.
Proof.
  destruct e as [id r]. unfold settled, pullEntry. cbn [fst snd].
  destruct (mapGet id (mg_records acc)) as [l|] eqn:Hget.
  - destruct (String.eqb_spec (r_hash r) (r_hash l)) as [Heq|Hne]; cbn [negb].
    + exists l. auto.
    + destruct (resolveConflict_cases l r) as [[Hk|Hk]|Hk]; rewrite Hk;
        cbn [mg_records mg_conflicts].
      * exists l. split; [apply mapGet_mapSet_same|]. right. split.
        -- left. exact Hk.
        -- apply in_or_app. right. left. reflexivity.
      * exists l. split; [exact Hget|]. right. split.
        -- right. exact Hk.
        -- apply in_or_app. right. left. reflexivity.
      * eexists. split; [apply mapGet_mapSet_same|]. left. reflexivity.
  - cbn [mg_records mg_conflicts]. eexists. split; [apply mapGet_mapSet_same|].
    left. reflexivity.
Qed.

Lemma pullEntry_other (acc : Merge) (e : string * StateRecord) (k : string) :
  k <> fst e ->
  mapGet k (mg_records (pullEntry policy acc e)) = mapGet k (mg_records acc).
Proof.
  destruct e as [id r]. cbn [fst]. intros Hne. unfold pullEntry.
  destruct (mapGet id (mg_records acc)) as [l|].
  - destruct (negb _); [|reflexivity].
    destruct (snd (resolveConflict policy l r)); cbn [mg_records]; [|reflexivity].
    apply mapGet_mapSet_other. exact Hne.
  - cbn [mg_records]. apply mapGet_mapSet_other. exact Hne.
Qed.

Lemma pullEntry_conflicts_grow (acc : Merge) (e : string * StateRecord) (c : StateConflict) :
  In c (mg_conflicts acc) -> In c (mg_conflicts (pullEntry policy acc e)).
Proof.
  destruct e as [id r]. intros Hin. unfold pullEntry.
  destruct (mapGet id (mg_records acc)) as [l|]; [|exact Hin].
  destruct (negb _); [|exact Hin].
  destruct (snd (resolveConflict policy l r)); cbn [mg_conflicts];
    apply in_or_app; left; exact Hin.
Qed.

Lemma pullEntry_keeps_settled (acc : Merge) (e e' : string * StateRecord) :
  fst e' <> fst e ->
  settled policy (mg_records acc) (mg_conflicts acc) e' ->
  settled policy (mg_records (pullEntry policy acc e)) (mg_conflicts (pullEntry policy acc e)) e'.
Proof.
  intros Hne (l & Hget & Hl). exists l. split.
  - rewrite pullEntry_other; assumption.
  - destruct Hl as [Hl|[Hk Hin]]; [left; exact Hl|right].
    split; [exact Hk|]. apply pullEntry_conflicts_grow. exact Hin.
Qed.

Lemma pull_keeps_settled (es : list (string * StateRecord)) (acc : Merge)
    (e' : string * StateRecord) :
  ~ In (fst e') (keys es) ->
  settled policy (mg_records acc) (mg_conflicts acc) e' ->
  settled policy (mg_records (fold_left (pullEntry policy) es acc))
          (mg_conflicts (fold_left (pullEntry policy) es acc)) e'.
Proof.
  revert acc. induction es as [|e es IH]; intros acc Hnot Hs; [exact Hs|].
  cbn [fold_left]. apply IH.
  - intros Hin. apply Hnot. right. exact Hin.
  - apply pullEntry_keeps_settled; [|exact Hs].
    intros Heq. apply Hnot. left. symmetry. exact Heq.
Qed.

(** After the loop, every entry of a remote object is settled. *)
Lemma pull_settles (es : list (string * StateRecord)) (acc : Merge) :
  NoDup (keys es) ->
  forall e, In e es ->
            settled policy (mg_records (fold_left (pullEntry policy) es acc))
                    (mg_conflicts (fold_left (pullEntry policy) es acc)) e.
Proof.
  revert acc. induction es as [|e0 es IH]; intros acc Hnd e Hin; [destruct Hin|].
  inversion Hnd as [|? ? Hk Hnd']; subst. cbn [fold_left]. destruct Hin as [<-|Hin].
  - apply pull_keeps_settled; [exact Hk|]. apply pullEntry_settles.
  - apply IH; assumption.
Qed.

(** On a settled entry the loop body keeps the records and reports at most
    a conflict already known. *)
Lemma pullEntry_settled (rs : JsMap StateRecord) (cs : list StateConflict)
    (acc : Merge) (e : string * StateRecord) :
  settled policy rs cs e -> mg_records acc = rs -> incl (mg_conflicts acc) cs ->
  mg_records (pullEntry policy acc e) = rs
  /\ incl (mg_conflicts (pullEntry policy acc e)) cs.
Proof.
  destruct e as [id r]. intros (l & Hget & Hl) Hrs Hincl. cbn [fst snd] in *.
  unfold pullEntry. rewrite Hrs, Hget.
  destruct (String.eqb_spec (r_hash r) (r_hash l)) as [Heq|Hne]; cbn [negb]; [auto|].
  destruct Hl as [Hl|[Hk Hin]]; [contradiction|].
  assert (Hc : incl (mg_conflicts acc
                     ++ [mkStateConflict id "data" (r_data l) (r_data r)
                                         (fst (resolveConflict policy l r))]) cs).
  { apply incl_app; [exact Hincl|]. intros c [<-|[]]. exact Hin. }
  destruct Hk as [Hk|Hk]; rewrite Hk; cbn [mg_records mg_conflicts]; split; auto.
  apply mapSet_unchanged. exact Hget.
Qed.

Lemma pull_settled (rs : JsMap StateRecord) (cs : list StateConflict)
    (es : list (string * StateRecord)) (acc : Merge) :
  (forall e, In e es -> settled policy rs cs e) ->
  mg_records acc = rs -> incl (mg_conflicts acc) cs ->
  mg_records (fold_left (pullEntry policy) es acc) = rs
  /\ incl (mg_conflicts (fold_left (pullEntry policy) es acc)) cs.
Proof.
  revert acc. induction es as [|e es IH]; intros acc Hall Hrs Hincl; [auto|].
  cbn [fold_left].
  destruct (@pullEntry_settled rs cs acc e) as [Hrs' Hincl']; auto.
  { apply Hall. left. reflexivity. }
  apply IH; auto. intros e' He'. apply Hall. right. exact He'.
Qed.

(** Under [remote] a settled entry has the remote fingerprint. *)
Lemma settled_remote (rs : JsMap StateRecord) (cs : list StateConflict)
    (e : string * StateRecord) :
  policy = remote -> settled policy rs cs e ->
  exists l, mapGet (fst e) rs = Some l /\ r_hash (snd e) = r_hash l.
Proof.
  intros Hp (l & Hget & Hl). exists l. split; [exact Hget|].
  destruct Hl as [Hl|[Hk _]]; [exact Hl|].
  unfold keepsLocal, resolveConflict in Hk. rewrite Hp in Hk. cbn [snd] in Hk.
  destruct Hk as [Hk|Hk]; [|discriminate].
  injection Hk as <-. reflexivity.
Qed.

Lemma pull_settled_remote (rs : JsMap StateRecord) (cs : list StateConflict)
    (es : list (string * StateRecord)) (acc : Merge) :
  policy = remote -> (forall e, In e es -> settled policy rs cs e) -> mg_records acc = rs ->
  fold_left (pullEntry policy) es acc = acc.
Proof.
  intros Hp. induction es as [|e es IH]; intros Hall Hrs; [reflexivity|].
  cbn [fold_left].
  assert (He : pullEntry policy acc e = acc).
  { destruct (@settled_remote rs cs e Hp) as (l & Hget & Hh).
    { apply Hall. left. reflexivity. }
    destruct e as [id r]. cbn [fst snd] in *. unfold pullEntry.
    rewrite Hrs, Hget, Hh, String.eqb_refl. reflexivity. }
  rewrite He. apply IH; [|exact Hrs]. intros e' He'. apply Hall. right. exact He'.
Qed.

Lemma extends_refl (rs : JsMap StateRecord) : extends rs rs.
Proof. intros k l H. exact H. Qed.

Lemma extends_trans (a b c : JsMap StateRecord) : extends a b -> extends b c -> extends a c.
Proof. intros Hab Hbc k l H. apply Hbc, Hab, H. Qed.

Lemma settled_extends (rs rs' : JsMap StateRecord) (cs : list StateConflict)
    (e : string * StateRecord) :
  extends rs rs' -> settled policy rs cs e -> settled policy rs' cs e.
Proof. intros Hx (l & Hget & Hl). exists l. split; [apply Hx, Hget|exact Hl]. Qed.

Lemma mapHas_extends (rs rs' : JsMap StateRecord) (k : string) :
  extends rs rs' -> mapHas k rs = true -> mapHas k rs' = true.
Proof.
  intros Hx H. apply mapHas_true in H. destruct H as [l Hl].
  apply mapHas_true. exists l. apply Hx, Hl.
Qed.

(** *** The CRM loops *)
Section Adopt.
Variables (clock : Clock) (type idPrefix : string).

Lemma adoptCRM_extends (acc : JsMap StateRecord * nat) (item : SalesforceRecord) :
  extends (fst acc) (fst (adoptCRM clock type idPrefix acc item)).
Proof.
  destruct acc as [rs t]. unfold adoptCRM.
  destruct (mapHas (idPrefix ++ Id item) rs) eqn:Hhas; cbn [fst]; [apply extends_refl|].
  intros k l Hget. rewrite mapGet_mapSet_other; [exact Hget|].
  intros ->. unfold mapHas in Hhas. rewrite Hget in Hhas. discriminate.
Qed.

Lemma adoptCRM_present (acc : JsMap StateRecord * nat) (item : SalesforceRecord) :
  mapHas (idPrefix ++ Id item) (fst (adoptCRM clock type idPrefix acc item)) = true.
Proof.
  destruct acc as [rs t]. unfold adoptCRM.
  destruct (mapHas (idPrefix ++ Id item) rs) eqn:Hhas; cbn [fst]; [exact Hhas|].
  unfold mapHas. rewrite mapGet_mapSet_same. reflexivity.
Qed.

Lemma adoptAll_extends (items : list SalesforceRecord) (acc : JsMap StateRecord * nat) :
  extends (fst acc) (fst (fold_left (adoptCRM clock type idPrefix) items acc)).
Proof.
  revert acc. induction items as [|item items IH]; intros acc; [apply extends_refl|].
  cbn [fold_left]. eapply extends_trans; [apply adoptCRM_extends|apply IH].
Qed.

Lemma adoptAll_present (items : list SalesforceRecord) (acc : JsMap StateRecord * nat) :
  forall item, In item items ->
    mapHas (idPrefix ++ Id item)
           (fst (fold_left (adoptCRM clock type idPrefix) items acc)) = true.
Proof.
  revert acc. induction items as [|item0 items IH]; intros acc item Hin; [destruct Hin|].
  cbn [fold_left]. destruct Hin as [<-|Hin].
  - eapply mapHas_extends; [apply adoptAll_extends|apply adoptCRM_present].
  - apply IH, Hin.
Qed.

Lemma adoptAll_nothing (items : list SalesforceRecord) (rs : JsMap StateRecord) (t : nat) :
  (forall item, In item items -> mapHas (idPrefix ++ Id item) rs = true) ->
  fold_left (adoptCRM clock type idPrefix) items (rs, t) = (rs, t).
Proof.
  induction items as [|item items IH]; intros Hall; [reflexivity|].
  cbn [fold_left]. unfold adoptCRM at 2. rewrite (Hall item (or_introl eq_refl)).
  apply IH. intros item' Hin. apply Hall. right. exact Hin.
Qed.
End Adopt.

Lemma mergeCRMState_extends (clock : Clock) (crm : CRMState) (acc : JsMap StateRecord * nat) :
  extends (fst acc) (fst (mergeCRMState clock crm acc)).
Proof.
  unfold mergeCRMState.
  eapply extends_trans; [|apply adoptAll_extends].
  eapply extends_trans; [|apply adoptAll_extends].
  apply adoptAll_extends.
Qed.

Lemma mergeCRMState_covers (clock : Clock) (crm : CRMState) (acc : JsMap StateRecord * nat) :
  covers (fst (mergeCRMState clock crm acc)) crm.
Proof.
  unfold mergeCRMState, covers. repeat split; intros a Hin.
  - eapply mapHas_extends; [apply adoptAll_extends|].
    eapply mapHas_extends; [apply adoptAll_extends|].
    apply adoptAll_present, Hin.
  - eapply mapHas_extends; [apply adoptAll_extends|].
    apply adoptAll_present, Hin.
  - apply adoptAll_present, Hin.
Qed.

(** Merging a CRM state that is already covered adds nothing and reads no
    clock. *)
Lemma mergeCRMState_covered (clock : Clock) (crm : CRMState) (rs : JsMap StateRecord)
    (t : nat) :
  covers rs crm -> mergeCRMState clock crm (rs, t) = (rs, t).
Proof.
  intros (Ha & Hc & Ho). unfold mergeCRMState.
  rewrite !adoptAll_nothing; auto.
Qed.

Lemma pullSalesforce_twice (clock : Clock) (t : nat) (c : SalesforceClient)
    (rs : JsMap StateRecord) :
  let out := pullSalesforce clock t c rs in
  extends rs (fst (fst (fst out)))
  /\ forall clock' t',
       pullSalesforce clock' t' c (fst (fst (fst out)))
       = (fst (fst (fst out)), t', snd (fst out), snd out).
Proof.
  unfold pullSalesforce. destruct (getCRMState c) as [crm|msg].
  - destruct (ok crm), (payload crm) as [data|]; cbn [fst snd];
      try (split; [apply extends_refl|reflexivity]).
    pose proof (mergeCRMState_extends clock data (rs, t)) as Hx.
    pose proof (mergeCRMState_covers clock data (rs, t)) as Hc.
    destruct (mergeCRMState clock data (rs, t)) as [rs' t0]. cbn [fst snd] in *.
    split; [exact Hx|]. intros clock' t'.
    rewrite (mergeCRMState_covered clock' t' Hc). reflexivity.
  - cbn [fst snd]. split; [apply extends_refl|reflexivity].
Qed.

(** The Cloudflare block runs the loop over some list of entries, which
    is empty when nothing is retrieved or trusted. *)
Lemma pullCloudflare_shape (c : CloudflareClient) :
  distinctRemoteIds c ->
  exists es failures,
    NoDup (keys es)
    /\ forall rs, pullCloudflare policy c rs
                  = (fold_left (pullEntry policy) es (mkMerge rs [] []), failures).
Proof.
  intros Hd. unfold pullCloudflare, retrieveState.
  assert (Hnil : NoDup (keys (@nil (string * StateRecord)))) by constructor.
  destruct (kvGet c) as [resp|msg] eqn:Hkv.
  - destruct (ok resp) eqn:Hok; [destruct (payload resp) as [entry|] eqn:Hp|].
    + destruct (parsed entry) as [env|] eqn:Hparsed.
      * cbn [ok payload isValid state].
        destruct (match env_hash env with Some h => _ | None => false end).
        -- destruct (remoteRecords (env_data env)) as [es|] eqn:Hes.
           ++ exists es, []. split; [|reflexivity].
              apply (Hd resp entry env es); auto.
           ++ exists [], []. split; [exact Hnil|reflexivity].
        -- exists [], []. split; [exact Hnil|reflexivity].
      * exists [], []. split; [exact Hnil|reflexivity].
    + exists [], []. split; [exact Hnil|reflexivity].
    + exists [], []. split; [exact Hnil|]. intros rs. cbn [ok payload].
      destruct (payload resp); reflexivity.
  - exists [], ["cloudflare:" ++ describe msg]. split; [exact Hnil|reflexivity].
Qed.

Lemma pullCloudflare_twice (c : CloudflareClient) (rs0 rs2 : JsMap StateRecord) :
  distinctRemoteIds c ->
  extends (mg_records (fst (pullCloudflare policy c rs0))) rs2 ->
  mg_records (fst (pullCloudflare policy c rs2)) = rs2
  /\ incl (mg_conflicts (fst (pullCloudflare policy c rs2)))
          (mg_conflicts (fst (pullCloudflare policy c rs0)))
  /\ (policy = remote -> mg_conflicts (fst (pullCloudflare policy c rs2)) = []).
Proof.
  intros Hd Hx. destruct (pullCloudflare_shape Hd) as (es & failures & Hnd & Hshape).
  rewrite !Hshape in *. cbn [fst] in *.
  assert (Hall : forall e, In e es ->
            settled policy rs2
                    (mg_conflicts (fold_left (pullEntry policy) es (mkMerge rs0 [] []))) e).
  { intros e He. eapply settled_extends; [exact Hx|]. apply pull_settles; assumption. }
  destruct (@pull_settled rs2 _ es (mkMerge rs2 [] []) Hall eq_refl) as [Hrs Hincl].
  { intros c0 []. }
  repeat split; try assumption.
  intros Hp. rewrite (@pull_settled_remote rs2 _ es (mkMerge rs2 [] []) Hp Hall eq_refl).
  reflexivity.
Qed.

End PullTwice.

Lemma records_pulled (m : StateManager) (rs : JsMap StateRecord) :
  records (localState (updateLocalHash (withRecords m rs))) = rs.
Proof. reflexivity. Qed.

Lemma pullFromRemote_twice (clock1 clock2 : Clock) (t1 t2 : nat) (m m' : StateManager) :
  (forall c, cloudflare m = Some c -> distinctRemoteIds c) ->
  cloudflare m' = cloudflare m -> salesforce m' = salesforce m ->
  conflictResolution m' = conflictResolution m ->
  records (localState m') = records (localState (snd (fst (pullFromRemote clock1 t1 m)))) ->
  let first := fst (pullFromRemote clock1 t1 m) in
  let second := fst (pullFromRemote clock2 t2 m') in
  records (localState (snd second)) = records (localState (snd first))
  /\ incl (conflicts (fst second)) (conflicts (fst first))
  /\ (conflictResolution m = remote -> conflicts (fst second) = []).
Proof.
  intros Hd Hcf Hsf Hpol. unfold pullFromRemote. rewrite Hcf, Hsf, Hpol.
  set (policy := conflictResolution m). set (rs0 := records (localState m)).
  destruct (cloudflare m) as [c|] eqn:Hc.
  - specialize (Hd c eq_refl).
    destruct (pullCloudflare policy c rs0) as [merge1 failed1] eqn:H1.
    pose proof (@pullCloudflare_twice policy c rs0) as Htwice. rewrite H1 in Htwice.
    cbn [fst] in Htwice.
    destruct (salesforce m) as [sf|].
    + pose proof (@pullSalesforce_twice clock1 t1 sf (mg_records merge1)) as [Hx Hagain].
      destruct (pullSalesforce clock1 t1 sf (mg_records merge1)) as [[[rs2 t] sy] fl].
      cbn [fst snd] in *. rewrite records_pulled. intros Hrec. rewrite Hrec.
      destruct (Htwice rs2 Hd Hx) as (Hrs & Hincl & Hrem).
      destruct (pullCloudflare policy c rs2) as [merge2 failed2]. cbn [fst] in *.
      rewrite Hrs, Hagain. cbn [fst snd conflicts]. rewrite records_pulled. auto.
    + cbn [fst snd]. rewrite records_pulled. intros Hrec. rewrite Hrec.
      destruct (Htwice (mg_records merge1) Hd (@extends_refl _)) as (Hrs & Hincl & Hrem).
      destruct (pullCloudflare policy c (mg_records merge1)) as [merge2 failed2].
      cbn [fst snd conflicts] in *. rewrite records_pulled. auto.
  - cbn [mg_records mg_conflicts].
    destruct (salesforce m) as [sf|].
    + pose proof (@pullSalesforce_twice clock1 t1 sf rs0) as [Hx Hagain].
      destruct (pullSalesforce clock1 t1 sf rs0) as [[[rs2 t] sy] fl].
      cbn [fst snd] in *. rewrite records_pulled. intros Hrec. rewrite Hrec, Hagain.
      cbn [fst snd conflicts]. rewrite records_pulled. repeat split. intros c [].
    + cbn [fst snd conflicts]. rewrite records_pulled. intros Hrec. rewrite Hrec.
      cbn [fst snd conflicts]. rewrite records_pulled. repeat split. intros c [].
Qed.

Lemma pullFromRemote_manager (clock : Clock) (t : nat) (m : StateManager) :
  let m1 := snd (fst (pullFromRemote clock t m)) in
  cloudflare m1 = cloudflare m /\ salesforce m1 = salesforce m
  /\ conflictResolution m1 = conflictResolution m.
Proof.
  unfold pullFromRemote.
  destruct (match cloudflare m with Some _ => _ | None => _ end) as [merge failed1].
  destruct (match salesforce m with Some _ => _ | None => _ end) as [[[rs2 t2] synced2] failed2].
  cbn [fst snd]. repeat split.
Qed.

(** C5 as stated fails: under [local] the second pull reports the conflict
    of the first once more, the local record still differing from the
    remote one. *)
Lemma second_pull_repeats_conflict :
  conflicts (fst (sync noon pullOnly (snd (sync morning pullOnly (diverged local)))))
  = [mkStateConflict "deployment_9" "data" (r_data localEdit) (r_data remoteDeployment)
                     (Some res_local)].
Proof. vm_compute. reflexivity. Qed.

Lemma sync_pull_idle (clock : Clock) (m : StateManager) :
  syncInProgress m = false ->
  sync clock pullOnly m
  = finishPull clock (pullFromRemote clock 0 (withSyncInProgress m true)).
Proof.
  intros H. unfold sync, finishPull. rewrite H. cbn [direction pullOnly orDefault].
  destruct (pullFromRemote clock 0 (withSyncInProgress m true)) as [[res m1] t1].
  reflexivity.
Qed.

(** What [sync] returns when a sync is in flight. *)
Lemma sync_busy (clock : Clock) (options : SyncOptions) (m : StateManager) :
  syncInProgress m = true -> sync clock options m = (rejected, m).
Proof. intros H. unfold sync. rewrite H. reflexivity. Qed.

(** C5, amended: a second pull from an unchanged remote leaves every local
    record, hence every fingerprint, as the first pull left it, and it
    reports no new conflict: each conflict of its result was in the result
    of the first pull.  Under [remote] its conflicts list is empty; under
    the other policies it lists again the conflicts that were resolved by
    keeping the local record. *)
Theorem sync_pull_twice (clock1 clock2 : Clock) (m : StateManager) :
  (forall c, cloudflare m = Some c -> distinctRemoteIds c) ->
  let first := sync clock1 pullOnly m in
  let second := sync clock2 pullOnly (snd first) in
  records (localState (snd second)) = records (localState (snd first))
  /\ (forall id, option_map r_hash (get id (snd second))
                 = option_map r_hash (get id (snd first)))
  /\ incl (conflicts (fst second)) (conflicts (fst first))
  /\ (conflictResolution m = remote -> conflicts (fst second) = []).
Proof.
  intros Hd first second.
  assert (H : records (localState (snd second)) = records (localState (snd first))
              /\ incl (conflicts (fst second)) (conflicts (fst first))
              /\ (conflictResolution m = remote -> conflicts (fst second) = [])).
  { subst first second. destruct (syncInProgress m) eqn:Hbusy.
    - rewrite (sync_busy clock1 pullOnly m Hbusy). cbn [snd fst].
      rewrite (sync_busy clock2 pullOnly m Hbusy). cbn [fst snd conflicts rejected].
      repeat split. intros c [].
    - rewrite (sync_pull_idle clock1 m Hbusy).
      pose proof (pullFromRemote_manager clock1 0 (withSyncInProgress m true))
        as (Hcf & Hsf & Hpol).
      set (p1 := pullFromRemote clock1 0 (withSyncInProgress m true)) in *.
      rewrite sync_pull_idle by reflexivity.
      set (m' := withSyncInProgress (snd (finishPull clock1 p1)) true).
      destruct (@pullFromRemote_twice clock1 clock2 0 0 (withSyncInProgress m true) m' Hd
                  Hcf Hsf Hpol eq_refl) as (Hrec & Hincl & Hrem).
      fold p1 in Hrec, Hincl, Hrem.
      unfold finishPull at 1 3 5. cbn [fst snd conflicts localState withSyncInProgress
                                          withLocalState records].
      unfold finishPull. cbn [fst snd conflicts localState withSyncInProgress
                                 withLocalState records].
      auto. }
  destruct H as (Hrec & Hincl & Hrem). repeat split; try assumption.
  intros id. unfold get. rewrite Hrec. reflexivity.
Qed.

Lemma honestClient_distinct :
  forall c, cloudflare (diverged remote) = Some c -> distinctRemoteIds c.
Proof.
  intros c Hc. injection Hc as <-. intros resp entry env es Hkv Hp Hparsed Hes.
  injection Hkv as <-. injection Hp as <-. injection Hparsed as <-. injection Hes as <-.
  unfold keys; simpl. repeat constructor. intros [].
Qed.

Lemma sync_pull_twice_witness :
  (forall c, cloudflare (diverged remote) = Some c -> distinctRemoteIds c)
  /\ conflicts (fst (sync morning pullOnly (diverged remote))) <> []
  /\ conflicts (fst (sync noon pullOnly (snd (sync morning pullOnly (diverged remote))))) = [].
Proof.
  split; [exact honestClient_distinct|]. split; [vm_compute; discriminate|].
  exact (proj2 (proj2 (proj2 (@sync_pull_twice morning noon (diverged remote)
                                 honestClient_distinct))) eq_refl).
Defined.

(** ** Further properties of the code *)

(** ** Lengths of digests *)
Section DigestLength.

Lemma length_append (a b : string) :
  String.length (a ++ b) = String.length a + String.length b.
Proof. induction a as [|c a IH]; simpl; [reflexivity|]. rewrite IH. reflexivity. Qed.

Lemma length_substring_0 (n : nat) (s : string) :
  String.length (substring 0 n s) = Nat.min n (String.length s).
Proof.
  revert s. induction n as [|n IH]; intros [|c s]; simpl; try reflexivity.
  rewrite IH. reflexivity.
Qed.

Lemma length_char_at_hex (q : Z) :
  (0 <= q < 16)%Z -> String.length (char_at hexDigits q) = 1.
Proof.
  intros H. destruct (char_at_hexDigits H) as [c Hc]. rewrite Hc. reflexivity.
Qed.

Lemma length_toHex (bytes : list Z) :
  Forall isByte bytes -> String.length (toHex bytes) = 2 * List.length bytes.
Proof.
  unfold toHex. induction 1 as [|b bytes Hb Hall IH]; [reflexivity|].
  assert (H2 : String.length (char_at hexDigits (b / 16) ++ char_at hexDigits (b mod 16)) = 2).
  { unfold isByte in Hb. rewrite length_append, !length_char_at_hex; [reflexivity| |].
    - apply Z.mod_pos_bound. lia.
    - split; [apply Z.div_pos; lia | apply Z.div_lt_upper_bound; lia]. }
  destruct bytes as [|b' bytes'].
  - cbn [map String.concat List.length]. rewrite H2. reflexivity.
  - change (String.length
              ((char_at hexDigits (b / 16) ++ char_at hexDigits (b mod 16))
               ++ EmptyString
               ++ String.concat EmptyString
                    (map (fun b0 => char_at hexDigits (b0 / 16) ++ char_at hexDigits (b0 mod 16))
                         (b' :: bytes')))
            = 2 * List.length (b :: b' :: bytes')).
    rewrite (length_append (_ ++ _)), H2. cbn [append].
    rewrite IH. cbn [List.length]. lia.
Qed.

Lemma be_bytes_spec (n : nat) (x : Z) :
  List.length (Sha2.be_bytes n x) = n /\ Forall isByte (Sha2.be_bytes n x).
Proof.
  revert x. induction n as [|n IH]; intros x; simpl; [split; constructor|].
  destruct (IH (x / 256)%Z) as [Hl Hb]. split.
  - rewrite length_app, Hl. simpl. lia.
  - apply Forall_app. split; [exact Hb|]. constructor; [|constructor].
    apply Z.mod_pos_bound. lia.
Qed.

Lemma flat_map_be_bytes (n : nat) (ws : list Z) :
  List.length (flat_map (Sha2.be_bytes n) ws) = n * List.length ws
  /\ Forall isByte (flat_map (Sha2.be_bytes n) ws).
Proof.
  induction ws as [|x ws [IHl IHb]]; simpl; [split; [lia|constructor]|].
  destruct (be_bytes_spec n x) as [Hl Hb]. split.
  - rewrite length_app, Hl, IHl. lia.
  - apply Forall_app. split; assumption.
Qed.

Lemma length_compress (v : Sha2.Variant) (H block : list Z) :
  List.length H = 8 -> List.length (Sha2.compress v H block) = 8.
Proof.
  intros HH. unfold Sha2.compress. rewrite length_map, length_combine, HH.
  destruct (fold_left _ _ _) as [[[[[[[a b] c] d] e] f] g] h]. reflexivity.
Qed.

Lemma length_fold_compress (v : Sha2.Variant) (blocks : list (list Z)) (H : list Z) :
  List.length H = 8 -> List.length (fold_left (Sha2.compress v) blocks H) = 8.
Proof.
  revert H. induction blocks as [|b blocks IH]; intros H HH; [exact HH|].
  simpl. apply IH, length_compress, HH.
Qed.

(** A digest has as many bytes as its algorithm says. *)
Lemma digest_spec (d : Digest) (msg : list Z) :
  List.length (Sha2.digest (variantOf d) msg) = digestBytes d
  /\ Forall isByte (Sha2.digest (variantOf d) msg).
Proof.
  unfold Sha2.digest.
  set (H := fold_left _ _ _).
  assert (HH : List.length H = 8).
  { subst H. apply length_fold_compress. destruct d; reflexivity. }
  destruct (flat_map_be_bytes (Sha2.wordBytes (variantOf d))
                              (firstn (Sha2.digestWords (variantOf d)) H)) as [Hl Hb].
  split; [|exact Hb]. rewrite Hl, length_firstn, HH. destruct d; reflexivity.
Qed.

Lemma length_createHash_hex (d : Digest) (data : string) :
  String.length (createHash d data hex) = 2 * digestBytes d.
Proof.
  unfold createHash, bufferToString. destruct (digest_spec d (utf8 data)) as [Hl Hb].
  rewrite length_toHex, Hl; auto.
Qed.

End DigestLength.

(** ** Shapes of ids and hashes *)

(** X1: an id made by [hashId] is the prefix, an underscore and twelve
    characters, whatever the clock and the random bytes. *)
Theorem hashId_format (w : Entropy) (prefix : string) :
  exists suffix,
    hashId w prefix = prefix ++ "_" ++ suffix /\ String.length suffix = 12.
Proof.
  unfold hashId. eexists. split; [reflexivity|].
  rewrite length_substring_0. unfold sha256. rewrite length_createHash_hex. reflexivity.
Qed.

Lemma iterateDigest_last (d : Digest) (n : nat) (r : string) :
  iterateDigest d (S n) r = createHash d (iterateDigest d n r) hex.
Proof.
  revert r. induction n as [|n IH]; intros r; [reflexivity|].
  change (iterateDigest d (S (S n)) r) with (iterateDigest d (S n) (createHash d r hex)).
  rewrite IH. reflexivity.
Qed.


(** X2: with hex output, a hash takes 64, 96 or 128 characters by its
    algorithm, provided the algorithm is [sha_infinity] or at least one
    iteration is run: the count asked for, the default when none is, and
    one when it is present as [undefined]. *)
Theorem hash_hex_length (w : Entropy) (data : string) (options : HashOptions) :
  orDefault (opt_encoding options) hex = hex ->
  orDefault (opt_algorithm options) sha256_ = sha_infinity
  \/ (1 <= orDefault (opts_iterations options) 1)%Z ->
  String.length (hr_hash (hash w data options))
  = hexLength (orDefault (opt_algorithm options) sha256_).
Proof.
  intros He Hrun. unfold hash. cbn [hr_hash]. rewrite He.
  assert (Hstd : forall d r, (1 <= orDefault (opts_iterations options) 1)%Z ->
            String.length (iterateDigest d (Z.to_nat (orDefault (opts_iterations options)
                                                                1%Z)) r)
            = 2 * digestBytes d).
  { intros d r Hn. destruct (Z.to_nat _) as [|n] eqn:E; [lia|].
    rewrite iterateDigest_last. apply length_createHash_hex. }
  destruct (orDefault (opt_algorithm options) sha256_);
    try (destruct Hrun as [Hrun|Hrun]; [discriminate|]; rewrite Hstd by exact Hrun;
         reflexivity).
  unfold shaInfinity. rewrite length_createHash_hex. reflexivity.
Qed.

Lemma hash_hex_length_witness :
  orDefault (opt_encoding infinity_options) hex = hex
  /\ (orDefault (opt_algorithm infinity_options) sha256_ = sha_infinity
      \/ (1 <= orDefault (opts_iterations infinity_options) 1)%Z)
  /\ String.length (hr_hash (hash (mkEntropy 1 (repeat 7%Z 32)) "secret" infinity_options))
     = 128.
Proof.
  split; [reflexivity|]. split; [left; reflexivity|].
  exact (@hash_hex_length (mkEntropy 1 (repeat 7%Z 32)) "secret" infinity_options
           eq_refl (or_introl eq_refl)).
Defined.

(** X3: asked for no iteration, [hash] with a standard algorithm and hex
    output returns the data and the salt in clear, joined by a colon. *)
Theorem hash_without_iterations (w : Entropy) (data : string) (options : HashOptions) :
  orDefault (opt_encoding options) hex = hex ->
  orDefault (opt_algorithm options) sha256_ <> sha_infinity ->
  (orDefault (opts_iterations options) 1 <= 0)%Z ->
  hr_hash (hash w data options) = data ++ ":" ++ hr_salt (hash w data options).
Proof.
  intros He Ha Hn. unfold hash. cbn [hr_hash hr_salt]. rewrite He.
  assert (E : Z.to_nat (orDefault (opts_iterations options) 1%Z) = 0) by lia.
  rewrite E. destruct (orDefault (opt_algorithm options) sha256_); try reflexivity.
  contradiction.
Qed.

Lemma hash_without_iterations_witness :
  orDefault (opt_encoding plain_options) hex = hex
  /\ orDefault (opt_algorithm plain_options) sha256_ <> sha_infinity
  /\ (orDefault (opts_iterations plain_options) 1 <= 0)%Z
  /\ hr_hash (hash (mkEntropy 1 []) "secret" plain_options) = "secret:pepper".
Proof.
  assert (Ha : orDefault (opt_algorithm plain_options) sha256_ <> sha_infinity)
    by discriminate.
  assert (Hn : (orDefault (opts_iterations plain_options) 1 <= 0)%Z)
    by (vm_compute; discriminate).
  split; [reflexivity|]. split; [exact Ha|]. split; [exact Hn|].
  exact (@hash_without_iterations (mkEntropy 1 []) "secret" plain_options eq_refl Ha Hn).
Defined.

(** ** Hex text and bytes *)
Section HexRoundTrip.

Lemma append_empty (s : string) : s ++ EmptyString = s.
Proof. induction s as [|c s IH]; simpl; [reflexivity|]. rewrite IH. reflexivity. Qed.

Lemma toHex_cons (b : Z) (bytes : list Z) :
  toHex (b :: bytes)
  = (char_at hexDigits (b / 16) ++ char_at hexDigits (b mod 16)) ++ toHex bytes.
Proof.
  unfold toHex. destruct bytes as [|b' bytes'].
  - cbn [map String.concat]. rewrite append_empty. reflexivity.
  - reflexivity.
Qed.

Lemma hexValue_char_at (q : Z) :
  (0 <= q < 16)%Z ->
  exists c, char_at hexDigits q = String c EmptyString /\ hexValue c = Some q.
Proof.
  intros H.
  assert (C : (q = 0 \/ q = 1 \/ q = 2 \/ q = 3 \/ q = 4 \/ q = 5 \/ q = 6 \/ q = 7
               \/ q = 8 \/ q = 9 \/ q = 10 \/ q = 11 \/ q = 12 \/ q = 13 \/ q = 14
               \/ q = 15)%Z) by lia.
  repeat (destruct C as [->|C]; [eexists; split; reflexivity|]).
  subst q. eexists; split; reflexivity.
Qed.

(** [Buffer.from(text, 'hex')] gives back the bytes that were written in hex. *)
Lemma fromHex_toHex (bytes : list Z) : Forall isByte bytes -> fromHex (toHex bytes) = bytes.
Proof.
  induction 1 as [|b bytes Hb Hall IH]; [reflexivity|].
  unfold isByte in Hb. rewrite toHex_cons.
  destruct (@hexValue_char_at (b / 16)) as (c1 & E1 & V1).
  { split; [apply Z.div_pos; lia | apply Z.div_lt_upper_bound; lia]. }
  destruct (@hexValue_char_at (b mod 16)) as (c2 & E2 & V2).
  { apply Z.mod_pos_bound. lia. }
  rewrite E1, E2. cbn [append fromHex]. rewrite V1, V2, IH. f_equal.
  rewrite (Z.div_mod b 16) at 3 by lia. reflexivity.
Qed.

End HexRoundTrip.

(** X4: with a standard algorithm and at least one iteration, the hash in
    any output encoding is the digest of the last iteration written in
    that encoding: decoding the hex text loses nothing. *)
Theorem hash_in_encoding (w : Entropy) (data : string) (options : HashOptions)
    (d : Digest) (n : nat) :
  orDefault (opt_algorithm options) sha256_ = standardAlgorithm d ->
  orDefault (opts_iterations options) 1%Z = Z.of_nat (S n) ->
  hr_hash (hash w data options)
  = createHash d (iterateDigest d n (data ++ ":" ++ hr_salt (hash w data options)))
               (orDefault (opt_encoding options) hex).
Proof.
  intros Ha Hn. unfold hash. cbn [hr_hash hr_salt]. rewrite Ha, Hn.
  replace (Z.to_nat (Z.of_nat (S n))) with (S n) by lia.
  assert (E : forall e r,
            match e with
            | hex => iterateDigest d (S n) r
            | _ => bufferToString e (fromHex (iterateDigest d (S n) r))
            end = createHash d (iterateDigest d n r) e).
  { intros e r. rewrite iterateDigest_last. destruct e; try reflexivity;
      unfold createHash at 1; cbn [bufferToString];
      rewrite fromHex_toHex by apply digest_spec; reflexivity. }
  destruct d; cbn [standardAlgorithm]; apply E.
Qed.

Lemma hash_in_encoding_witness :
  orDefault (opt_algorithm base64_options) sha256_ = standardAlgorithm SHA_256
  /\ orDefault (opts_iterations base64_options) 1%Z = Z.of_nat 1
  /\ hr_hash (hash (mkEntropy 1 []) "secret" base64_options)
     = createHash SHA_256 "secret:pepper" base64.
Proof.
  split; [reflexivity|]. split; [reflexivity|].
  exact (@hash_in_encoding (mkEntropy 1 []) "secret" base64_options SHA_256 0
           eq_refl eq_refl).
Defined.

(** ** Comparing hash texts *)
Section Compare.

Lemma utf8Head_utf8 (c : ascii) (s : string) :
  utf8Head (utf8 (String c s)) = Some (c, utf8 s).
Proof.
  unfold utf8. cbn [list_ascii_of_string flat_map].
  destruct c as [[] [] [] [] [] [] [] []]; reflexivity.
Qed.

Lemma utf8_injective (a b : string) : utf8 a = utf8 b -> a = b.
Proof.
  revert b. induction a as [|c a IH]; intros [|c' b] H.
  - reflexivity.
  - apply (f_equal utf8Head) in H. rewrite utf8Head_utf8 in H. discriminate.
  - apply (f_equal utf8Head) in H. rewrite utf8Head_utf8 in H. discriminate.
  - apply (f_equal utf8Head) in H. rewrite !utf8Head_utf8 in H.
    injection H as -> H. rewrite (IH b H). reflexivity.
Qed.

Lemma same_bytes (x y : list Z) :
  List.length x = List.length y ->
  forallb (fun p => Z.eqb (fst p) (snd p)) (combine x y) = true -> x = y.
Proof.
  revert y. induction x as [|a x IH]; intros [|b y] Hl H; try discriminate; [reflexivity|].
  simpl in *. apply andb_prop in H. destruct H as [Hab H].
  apply Z.eqb_eq in Hab. subst b. f_equal. apply IH; [lia|exact H].
Qed.

(** [timingSafeCompare] answers true for equal strings only, and throws
    just when two strings of one length differ in byte length. *)
Lemma timingSafeCompare_true (a b : string) : timingSafeCompare a b = Some true <-> a = b.
Proof.
  split; [|intros ->; apply timingSafeCompare_same].
  unfold timingSafeCompare, timingSafeEqual.
  destruct (Nat.eqb (String.length a) (String.length b)); cbn [negb]; [|discriminate].
  destruct (Nat.eqb_spec (List.length (utf8 a)) (List.length (utf8 b))) as [Hl|]; [|discriminate].
  intros H. injection H as H. apply utf8_injective, same_bytes; assumption.
Qed.

Lemma timingSafeCompare_throws (a b : string) :
  timingSafeCompare a b = None
  <-> String.length a = String.length b /\ List.length (utf8 a) <> List.length (utf8 b).
Proof.
  unfold timingSafeCompare, timingSafeEqual.
  destruct (Nat.eqb_spec (String.length a) (String.length b)) as [Hs|Hs]; cbn [negb].
  - destruct (Nat.eqb_spec (List.length (utf8 a)) (List.length (utf8 b))) as [Hl|Hl];
      split; try discriminate; try tauto.
  - split; [discriminate|tauto].
Qed.

End Compare.

(** X5: [verify] reports a hash valid exactly when its text is the hash
    recomputed in hex from the recorded algorithm, iteration count and
    salt; it throws, instead of reporting invalid, exactly when the text
    has as many characters as the recomputed one but not as many bytes. *)
Theorem verify_outcome (w : Entropy) (data : string) (hashResult : HashResult) :
  let recomputed := hr_hash (hash w data (recordedOptions hashResult)) in
  (verify w data hashResult = Some (mkHashVerification true hashResult data)
   <-> hr_hash hashResult = recomputed)
  /\ (verify w data hashResult = None
      <-> String.length (hr_hash hashResult) = String.length recomputed
          /\ List.length (utf8 (hr_hash hashResult)) <> List.length (utf8 recomputed)).
Proof.
  unfold verify. fold (recordedOptions hashResult).
  set (recomputed := hr_hash (hash w data (recordedOptions hashResult))).
  cbv zeta. split; split.
  - destruct (timingSafeCompare recomputed (hr_hash hashResult)) as [[|]|] eqn:E;
      try discriminate.
    intros _. symmetry. apply timingSafeCompare_true, E.
  - intros H. symmetry in H. apply timingSafeCompare_true in H. rewrite H. reflexivity.
  - destruct (timingSafeCompare recomputed (hr_hash hashResult)) as [v|] eqn:E;
      [discriminate|].
    intros _. apply timingSafeCompare_throws in E. destruct E as [E1 E2].
    split; [congruence|]. intros e. apply E2. congruence.
  - intros [H1 H2].
    assert (E : timingSafeCompare recomputed (hr_hash hashResult) = None).
    { apply timingSafeCompare_throws. split; [congruence|]. intros e. apply H2. congruence. }
    rewrite E. reflexivity.
Qed.

(** ** Hash chains and Merkle roots *)
Section Chains.

Lemma chain_from (items : list string) (chain : list string) (h : string) :
  fold_left chainStep items (chain, h)
  = ((chain ++ fst (fold_left chainStep items ([], h)))%list,
     snd (fold_left chainStep items ([], h))).
Proof.
  revert chain h. induction items as [|item items IH]; intros chain h.
  - cbn [fold_left fst snd]. rewrite app_nil_r. reflexivity.
  - cbn [fold_left]. unfold chainStep at 2 4 6. cbn [fst snd].
    rewrite (IH (chain ++ _)%list), (IH ([] ++ _)%list). cbn [fst snd app].
    rewrite <- app_assoc. reflexivity.
Qed.

Lemma length_chain (items : list string) (h : string) :
  List.length (fst (fold_left chainStep items ([], h))) = List.length items.
Proof.
  revert h. induction items as [|item items IH]; intros h; [reflexivity|].
  cbn [fold_left]. unfold chainStep at 2. cbn [fst snd app].
  rewrite chain_from. cbn [fst]. rewrite length_app, IH. reflexivity.
Qed.

Lemma last_cons (A : Type) (l : list A) (a d : A) : last (a :: l) d = last l a.
Proof.
  revert a d. induction l as [|b l IH]; intros a d; [reflexivity|].
  change (last (a :: b :: l) d) with (last (b :: l) d). rewrite !IH. reflexivity.
Qed.

Lemma last_chain (items : list string) (h : string) :
  snd (fold_left chainStep items ([], h))
  = last (fst (fold_left chainStep items ([], h))) h.
Proof.
  revert h. induction items as [|item items IH]; intros h; [reflexivity|].
  cbn [fold_left]. unfold chainStep at 2 4. cbn [fst snd app].
  rewrite chain_from. cbn [fst snd app]. rewrite last_cons. apply IH.
Qed.

End Chains.

(** X6: a hash chain has one link per item, its final hash is its last
    link (or the starting hash when there is no item), and the chain over
    two lists in a row is the chain over the first followed by the chain
    over the second started from the first's final hash. *)
Theorem createHashChain_append (items more : list string) (previousHash : option string) :
  let first := createHashChain items previousHash in
  let second := createHashChain more (Some (snd first)) in
  createHashChain (items ++ more) previousHash = ((fst first ++ fst second)%list, snd second)
  /\ List.length (fst first) = List.length items
  /\ snd first = last (fst first) (orDefault previousHash zeroHash).
Proof.
  unfold createHashChain. cbn [orDefault]. repeat split.
  - rewrite fold_left_app.
    destruct (fold_left chainStep items ([], orDefault previousHash zeroHash)) as [c h].
    cbn [fst snd]. apply chain_from.
  - apply length_chain.
  - apply last_chain.
Qed.

Section Merkle.

(** Induction over a list two elements at a time, as [nextLevel] reads it. *)
Lemma pairs_ind (A : Type) (P : list A -> Prop) :
  P [] -> (forall a, P [a]) -> (forall a b l, P l -> P (a :: b :: l)) -> forall l, P l.
Proof.
  intros H0 H1 H2 l.
  assert (H : P l /\ forall a, P (a :: l)).
  { induction l as [|b l [IHl IHc]]; [split; auto|]. split; [apply IHc|].
    intros a. apply H2, IHl. }
  exact (proj1 H).
Qed.

Lemma length_nextLevel (l : list string) :
  2 * List.length (nextLevel l) = List.length l + Nat.b2n (Nat.odd (List.length l)).
Proof.
  induction l as [|a|a b rest IH] using pairs_ind; try reflexivity.
  cbn [nextLevel List.length].
  change (Nat.odd (S (S (List.length rest)))) with (Nat.odd (List.length rest)).
  lia.
Qed.

Lemma nextLevel_shorter (a b : string) (rest : list string) :
  List.length (nextLevel (a :: b :: rest)) < List.length (a :: b :: rest)
  /\ 1 <= List.length (nextLevel (a :: b :: rest)).
Proof.
  pose proof (length_nextLevel (a :: b :: rest)) as H.
  destruct (Nat.odd (List.length (a :: b :: rest))); cbn [Nat.b2n List.length] in *; lia.
Qed.

(** Deep enough, the recursion returns, and the same root at any depth. *)
Lemma merkleRootWithin_enough (n : nat) :
  forall l fuel, List.length l <= n -> n <= fuel ->
    exists root, merkleRootWithin fuel l = Some root
                 /\ forall fuel', n <= fuel' -> merkleRootWithin fuel' l = Some root.
Proof.
  induction n as [|n IH]; intros l fuel Hl Hf.
  - destruct l; [|simpl in Hl; lia]. eexists. split; [destruct fuel; reflexivity|].
    intros fuel' _. destruct fuel'; reflexivity.
  - destruct l as [|a [|b rest]].
    + eexists. split; [destruct fuel; reflexivity|]. intros fuel' _. destruct fuel'; reflexivity.
    + eexists. split; [destruct fuel; reflexivity|]. intros fuel' _. destruct fuel'; reflexivity.
    + destruct fuel as [|fuel]; [lia|].
      destruct (nextLevel_shorter a b rest) as [Hlt _].
      destruct (IH (nextLevel (a :: b :: rest)) fuel) as (root & Hr & Hall); [lia|lia|].
      exists root. split; [exact Hr|].
      intros [|fuel'] Hf'; [lia|]. apply Hall. lia.
Qed.

Lemma merkleRoot_step (a b : string) (rest : list string) :
  merkleRoot (a :: b :: rest) = merkleRoot (nextLevel (a :: b :: rest)).
Proof.
  unfold merkleRoot.
  destruct (nextLevel_shorter a b rest) as [Hlt _].
  destruct (@merkleRootWithin_enough (List.length (nextLevel (a :: b :: rest)))
              (nextLevel (a :: b :: rest)) (List.length (nextLevel (a :: b :: rest))))
    as (root & Hr & Hall); [lia|lia|].
  rewrite Hr.
  change (merkleRootWithin (List.length (a :: b :: rest)) (a :: b :: rest))
    with (merkleRootWithin (S (List.length rest)) (nextLevel (a :: b :: rest))).
  apply Hall. change (List.length (a :: b :: rest)) with (S (S (List.length rest))) in Hlt.
  lia.
Qed.

Lemma nextLevel_hashes (l : list string) :
  Forall (fun h => String.length h = 64) (nextLevel l).
Proof.
  induction l as [|a|a b rest IH] using pairs_ind.
  - constructor.
  - repeat constructor. unfold sha256. apply length_createHash_hex.
  - cbn [nextLevel]. constructor; [unfold sha256; apply length_createHash_hex|].
    exact IH.
Qed.

Lemma merkleRoot_of_hashes (n : nat) :
  forall l, List.length l <= n -> l <> [] -> Forall (fun h => String.length h = 64) l ->
    exists root, merkleRoot l = Some root /\ String.length root = 64.
Proof.
  induction n as [|n IH]; intros l Hl Hne Hall.
  - destruct l; [contradiction|cbn [List.length] in Hl; lia].
  - destruct l as [|a [|b rest]]; [contradiction| |].
    + exists a. split; [reflexivity|]. inversion Hall; assumption.
    + rewrite merkleRoot_step. destruct (nextLevel_shorter a b rest) as [Hlt Hpos].
      apply IH; [cbn [List.length] in *; lia| |apply nextLevel_hashes].
      intros E. rewrite E in Hpos. cbn [List.length] in Hpos. lia.
Qed.

Lemma nextLevel_duplicated_last (l : list string) (x : string) :
  Nat.even (List.length l) = true -> nextLevel (l ++ [x]) = nextLevel (l ++ [x; x]).
Proof.
  induction l as [|a|a b rest IH] using pairs_ind; intros He.
  - reflexivity.
  - discriminate.
  - cbn [app nextLevel]. f_equal. apply IH. exact He.
Qed.

End Merkle.

(** X7: [merkleRoot] returns for every list; the root of two hashes or
    more is a SHA-256 text of 64 characters, while a single entry is
    returned as it is. *)
Theorem merkleRoot_returns (hashes : list string) :
  exists root,
    merkleRoot hashes = Some root
    /\ (2 <= List.length hashes -> String.length root = 64)
    /\ (forall h, hashes = [h] -> root = h).
Proof.
  destruct hashes as [|a [|b rest]].
  - eexists. split; [reflexivity|]. split; [|discriminate].
    intros H. exfalso. cbn [List.length] in H. lia.
  - exists a. split; [reflexivity|]. split.
    + intros H. exfalso. cbn [List.length] in H. lia.
    + intros h E. injection E as ->. reflexivity.
  - rewrite merkleRoot_step. destruct (nextLevel_shorter a b rest) as [_ Hpos].
    destruct (@merkleRoot_of_hashes (List.length (nextLevel (a :: b :: rest)))
                (nextLevel (a :: b :: rest))) as (root & Hr & Hlen).
    + lia.
    + intros E. rewrite E in Hpos. cbn [List.length] in Hpos. lia.
    + apply nextLevel_hashes.
    + exists root. split; [exact Hr|]. split; [intros _; exact Hlen|discriminate].
Qed.

(** X8: the root does not tell a list of odd length, three or more, from
    the same list with its last hash given twice. *)
Theorem merkleRoot_duplicated_last (hashes : list string) (x : string) :
  hashes <> [] -> Nat.even (List.length hashes) = true ->
  merkleRoot (hashes ++ [x]) = merkleRoot (hashes ++ [x; x]).
Proof.
  intros Hne He. destruct hashes as [|a [|b rest]]; [contradiction|discriminate|].
  cbn [app]. rewrite !merkleRoot_step.
  change (a :: b :: rest ++ [x])%list with ((a :: b :: rest) ++ [x])%list.
  change (a :: b :: rest ++ [x; x])%list with ((a :: b :: rest) ++ [x; x])%list.
  rewrite nextLevel_duplicated_last by exact He. reflexivity.
Qed.

Lemma merkleRoot_duplicated_last_witness :
  ["a"; "b"] <> [] /\ Nat.even (List.length ["a"; "b"]) = true
  /\ merkleRoot ["a"; "b"; "c"] = merkleRoot ["a"; "b"; "c"; "c"].
Proof.
  assert (Hne : ["a"; "b"] <> []) by discriminate.
  split; [exact Hne|]. split; [reflexivity|].
  exact (@merkleRoot_duplicated_last ["a"; "b"] "c" Hne eq_refl).
Defined.

(** ** The record store: create, delete, query *)
Section StoreMore.

Lemma mapGet_mapDelete_same (V : Type) (k : string) (m : JsMap V) :
  mapGet k (mapDelete k m) = None.
Proof.
  unfold mapGet, mapDelete. induction m as [|[k' v] m IH]; [reflexivity|].
  cbn [filter fst]. destruct (String.eqb_spec k' k) as [->|Hne]; cbn [negb]; [exact IH|].
  cbn [getProp]. destruct (String.eqb_spec k' k); [contradiction|exact IH].
Qed.

Lemma mapGet_mapDelete_other (V : Type) (k k' : string) (m : JsMap V) :
  k' <> k -> mapGet k' (mapDelete k m) = mapGet k' m.
Proof.
  intros Hne. unfold mapGet, mapDelete. induction m as [|[k0 v] m IH]; [reflexivity|].
  cbn [filter fst getProp]. destruct (String.eqb_spec k0 k) as [->|H0]; cbn [negb].
  - destruct (String.eqb_spec k k'); [congruence|exact IH].
  - cbn [getProp]. destruct (String.eqb k0 k'); [reflexivity|exact IH].
Qed.

Lemma In_firstn (A : Type) (n : nat) (l : list A) (x : A) : In x (firstn n l) -> In x l.
Proof.
  revert l. induction n as [|n IH]; intros [|a l]; simpl; try tauto.
  intros [H|H]; [left; exact H|right; apply IH, H].
Qed.

Lemma In_skipn (A : Type) (n : nat) (l : list A) (x : A) : In x (skipn n l) -> In x l.
Proof.
  revert l. induction n as [|n IH]; intros [|a l]; simpl; try tauto.
  intros H. right. apply IH, H.
Qed.

Lemma In_slice (A : Type) (l : list A) (start : Z) (final : option Z) (x : A) :
  In x (slice l start final) -> In x l.
Proof. unfold slice. intros H. eapply In_skipn, In_firstn, H. Qed.

Lemma length_slice_head (A : Type) (l : list A) (n : Z) :
  (0 < n)%Z -> List.length (slice l 0 (Some n)) <= Z.to_nat n.
Proof.
  intros Hn. unfold slice, relativeIndex. rewrite length_firstn.
  destruct (0 <? 0)%Z eqn:E0; [discriminate|].
  destruct (n <? 0)%Z eqn:En; [lia|]. lia.
Qed.

End StoreMore.

(** X9: [create] stores the new record under its id, where [get] finds it,
    whether or not that id was in use, leaves every other record as it
    was, and brings the store hash up to date.  The record has version 1,
    no acknowledgement and the fingerprint of its data. *)
Theorem create_then_get (now : string) (w : Entropy) (type : string) (data : Obj)
    (m : StateManager) :
  let r := fst (create now w type data m) in
  let m' := snd (create now w type data m) in
  get (r_id r) m' = Some r
  /\ (forall id, id <> r_id r -> get id m' = get id m)
  /\ r_id r = hashId w type /\ r_version r = 1%Z /\ r_syncedTo r = []
  /\ r_hash r = hashState data /\ r_createdAt r = now /\ r_updatedAt r = now
  /\ hashCurrent m'.
Proof.
  unfold create, get. cbn [fst snd]. rewrite records_updateLocalHash.
  cbn [withRecords withLocalState localState records r_id r_version r_syncedTo r_hash
       r_createdAt r_updatedAt].
  split; [apply mapGet_mapSet_same|]. split.
  - intros id Hne. apply mapGet_mapSet_other. exact Hne.
  - repeat split.
Qed.

(** X10: [delete] tells whether the id was present; afterwards the id is
    absent and every other record is as it was, and deleting an absent id
    changes nothing at all, the store hash included. *)
Theorem delete_then_get (id : string) (m : StateManager) :
  fst (delete id m) = mapHas id (records (localState m))
  /\ get id (snd (delete id m)) = None
  /\ (forall id', id' <> id -> get id' (snd (delete id m)) = get id' m)
  /\ (get id m = None -> delete id m = (false, m)).
Proof.
  unfold delete, get.
  destruct (mapHas id (records (localState m))) eqn:Hhas; cbn [fst snd].
  - rewrite records_updateLocalHash.
    cbn [withRecords withLocalState localState records].
    split; [reflexivity|]. split; [apply mapGet_mapDelete_same|]. split.
    + intros id' Hne. apply mapGet_mapDelete_other. exact Hne.
    + intros Hnone. unfold mapHas in Hhas. rewrite Hnone in Hhas. discriminate.
  - split; [reflexivity|]. split.
    + unfold mapHas in Hhas. destruct (mapGet id (records (localState m))); [discriminate|].
      reflexivity.
    + split; reflexivity.
Qed.

(** X11: every record [query] returns is in the store, has the type asked
    for when a non-empty one is given, and passes the data filter when one
    is given. *)
Theorem query_sound (criteria : QueryFilter) (m : StateManager) (r : StateRecord) :
  In r (query criteria m) ->
  In r (values (records (localState m)))
  /\ (forall t, q_type criteria = Some t -> t <> EmptyString -> r_type r = t)
  /\ (forall dataFilter, q_dataFilter criteria = Some dataFilter -> dataFilter (r_data r) = true).
Proof.
  unfold query.
  set (typed := match q_type criteria with
                | Some t => if String.eqb t EmptyString then _ else _
                | None => _
                end).
  set (filtered := match q_dataFilter criteria with
                   | Some dataFilter => filter (fun r => dataFilter (r_data r)) typed
                   | None => typed
                   end).
  set (skipped := match q_offset criteria with
                  | Some o => if (o =? 0)%Z then filtered else slice filtered o None
                  | None => filtered
                  end).
  intros H.
  assert (H1 : In r skipped).
  { destruct (q_limit criteria) as [l|]; [|exact H].
    destruct (l =? 0)%Z; [exact H|]. eapply In_slice, H. }
  assert (H2 : In r filtered).
  { subst skipped. destruct (q_offset criteria) as [o|]; [|exact H1].
    destruct (o =? 0)%Z; [exact H1|]. eapply In_slice, H1. }
  assert (H3 : In r typed
               /\ forall dataFilter, q_dataFilter criteria = Some dataFilter ->
                                     dataFilter (r_data r) = true).
  { subst filtered. destruct (q_dataFilter criteria) as [p|].
    - apply filter_In in H2. destruct H2 as [H2 Hp]. split; [exact H2|].
      intros p' E. injection E as <-. exact Hp.
    - split; [exact H2|discriminate]. }
  destruct H3 as [H3 Hfilter].
  assert (H4 : In r (values (records (localState m)))
               /\ forall t, q_type criteria = Some t -> t <> EmptyString -> r_type r = t).
  { subst typed. destruct (q_type criteria) as [t|].
    - destruct (String.eqb t EmptyString) eqn:E0.
      + apply String.eqb_eq in E0. split; [exact H3|]. intros t' E Ht'. congruence.
      + apply filter_In in H3. destruct H3 as [H3 Ht]. apply String.eqb_eq in Ht.
        split; [exact H3|]. intros t' E _. congruence.
    - split; [exact H3|discriminate]. }
  destruct H4 as [H4 Htype]. auto.
Qed.

Lemma query_sound_witness :
  In (fst deployed) (query deploymentsOnly (snd deployed))
  /\ r_type (fst deployed) = "deployment".
Proof.
  assert (H : In (fst deployed) (query deploymentsOnly (snd deployed)))
    by (left; reflexivity).
  split; [exact H|].
  exact (proj1 (proj2 (@query_sound deploymentsOnly (snd deployed) (fst deployed) H))
               "deployment" eq_refl ltac:(discriminate)).
Defined.

(** X12: a positive [limit] bounds the number of records returned, while
    a [limit] of zero is passed over like an absent one, so that every
    match is returned and not none. *)
Theorem query_limit (criteria : QueryFilter) (m : StateManager) :
  (forall l, q_limit criteria = Some l -> (0 < l)%Z ->
             List.length (query criteria m) <= Z.to_nat l)
  /\ (q_limit criteria = Some 0%Z ->
      query criteria m
      = query (mkQueryFilter (q_type criteria) (q_dataFilter criteria) None
                             (q_offset criteria)) m).
Proof.
  unfold query. cbn [q_type q_dataFilter q_limit q_offset]. split.
  - intros l Hl Hpos. rewrite Hl.
    destruct (Z.eqb_spec l 0) as [->|_]; [lia|]. apply length_slice_head, Hpos.
  - intros Hl. rewrite Hl. reflexivity.
Qed.

(** X13: [getByType] gives what [query] gives for that type alone, except
    for the empty type, which [query] passes over, returning every record. *)
Theorem getByType_as_query (type : string) (m : StateManager) :
  (type <> EmptyString ->
   getByType type m = query (mkQueryFilter (Some type) None None None) m)
  /\ query (mkQueryFilter (Some EmptyString) None None None) m
     = values (records (localState m)).
Proof.
  unfold getByType, query. cbn [q_type q_dataFilter q_limit q_offset]. split.
  - intros Hne. destruct (String.eqb_spec type EmptyString); [contradiction|reflexivity].
  - reflexivity.
Qed.

(** ** Export and import *)

Lemma keys_Permutation (A : Type) (o o' : list (string * A)) :
  Permutation o o' -> Permutation (keys o) (keys o').
Proof. unfold keys. apply Permutation_map. Qed.

(** The fingerprint of the store does not depend on the order of the
    records map. *)
Lemma stateData_Permutation (rs rs' : JsMap StateRecord) (stamp : string) (h h' : string) :
  NoDup (keys rs) -> Permutation rs rs' ->
  hashState (stateData (mkStoredState rs stamp h))
  = hashState (stateData (mkStoredState rs' stamp h')).
Proof.
  intros Hnd Hp. unfold hashState, stringify, stateData. cbn [records lastSync].
  f_equal. change (keys [("records", fromEntries rs); ("lastSync", JStr stamp)])
    with ["records"; "lastSync"].
  change (keys [("records", fromEntries rs'); ("lastSync", JStr stamp)])
    with ["records"; "lastSync"].
  set (pl := dedupe (sort ["records"; "lastSync"])).
  rewrite !serialize_JObj. cbn [map serializeMember fst snd].
  assert (E : serialize pl (fromEntries rs) = serialize pl (fromEntries rs')).
  { unfold fromEntries. apply serialize_JObj_Permutation.
    - unfold keys. rewrite map_map. exact Hnd.
    - apply Permutation_map, Hp. }
  unfold serializeMember. cbn [fst snd]. rewrite E. reflexivity.
Qed.

(** X14: importing what [exportState] exported gives a store in which
    every id finds the record it found in the exported store, with the
    same [lastSync] and with the store hash recomputed: the hash the
    exported store has when its own is up to date. *)
Theorem import_export (now : string) (m target : StateManager) :
  NoDup (keys (records (localState m))) ->
  let m' := importState (readExport (exportState now m)) target in
  (forall id, get id m' = get id m)
  /\ Permutation (records (localState m')) (records (localState m))
  /\ lastSync (localState m') = lastSync (localState m)
  /\ stateHash (localState m') = hashState (stateData (localState m))
  /\ (hashCurrent m -> stateHash (localState m') = stateHash (localState m)).
Proof.
  intros Hnd m'.
  assert (Hp : Permutation (records (localState m')) (records (localState m))).
  { apply objectFromEntries_Permutation, Hnd. }
  assert (Hh : stateHash (localState m') = hashState (stateData (localState m))).
  { change (stateHash (localState m'))
      with (hashState (stateData (mkStoredState (records (localState m'))
                                                 (lastSync (localState m))
                                                 (stateHash (localState target))))).
    destruct (localState m) as [rs stamp h] eqn:E. cbn [records lastSync] in *.
    symmetry. apply stateData_Permutation; [exact Hnd|]. symmetry. exact Hp. }
  split; [|split; [exact Hp|split; [reflexivity|split; [exact Hh|]]]].
  - intros id. unfold get, mapGet. symmetry. apply getProp_Permutation; [exact Hnd|].
    symmetry. exact Hp.
  - intros Hc. rewrite Hh. symmetry. exact Hc.
Qed.

Lemma import_export_witness :
  NoDup (keys (records (localState (snd deployed))))
  /\ get (r_id (fst deployed))
         (importState (readExport (exportState "2024-11-01T11:00:00.000Z" (snd deployed)))
                      fresh)
     = get (r_id (fst deployed)) (snd deployed).
Proof.
  assert (Hnd : NoDup (keys (records (localState (snd deployed))))).
  { unfold keys. cbn. repeat constructor. intros []. }
  split; [exact Hnd|].
  exact (proj1 (@import_export "2024-11-01T11:00:00.000Z" (snd deployed) fresh Hnd)
               (r_id (fst deployed))).
Defined.

(** ** What a sync keeps *)
Section SyncKeeps.

Lemma pullCloudflare_loop (policy : ConflictResolution) (c : CloudflareClient)
    (rs : JsMap StateRecord) :
  fst (pullCloudflare policy c rs)
  = fold_left (pullEntry policy) (pulledEntries c) (mkMerge rs [] []).
Proof.
  unfold pullCloudflare, pulledEntries.
  destruct (retrieveState (kvGet c)) as [kvResult|msg]; [|reflexivity].
  destruct (ok kvResult); [|reflexivity].
  destruct (payload kvResult) as [data|]; [|reflexivity].
  destruct (isValid data); [|reflexivity].
  destruct (remoteRecords (state data)); reflexivity.
Qed.

Lemma records_pullFromRemote (clock : Clock) (t : nat) (m : StateManager) :
  records (localState (snd (fst (pullFromRemote clock t m))))
  = afterSalesforce clock t m (afterCloudflare m).
Proof.
  unfold pullFromRemote, afterCloudflare, afterSalesforce.
  destruct (cloudflare m) as [c|].
  - pose proof (pullCloudflare_loop (conflictResolution m) c (records (localState m))) as E.
    destruct (pullCloudflare _ c _) as [merge failed1]. cbn [fst] in E. rewrite <- E.
    destruct (salesforce m) as [sf|]; [|reflexivity]. unfold pullSalesforce.
    destruct (getCRMState sf) as [crm|msg]; [|reflexivity].
    destruct (ok crm); [|reflexivity]. destruct (payload crm); [|reflexivity].
    destruct (mergeCRMState _ _ _). reflexivity.
  - cbn [mg_records].
    destruct (salesforce m) as [sf|]; [|reflexivity]. unfold pullSalesforce.
    destruct (getCRMState sf) as [crm|msg]; [|reflexivity].
    destruct (ok crm); [|reflexivity]. destruct (payload crm); [|reflexivity].
    destruct (mergeCRMState _ _ _). reflexivity.
Qed.

(** The records a push ends with are the records it began with, or these
    acknowledged by one store or by both. *)
Lemma records_pushToRemote (options : SyncOptions) (m : StateManager) :
  let rs := records (localState m) in
  let selected := keys (filter (fun e => needsSync options (snd e)) rs) in
  exists viaCloudflare viaSalesforce : bool,
    records (localState (snd (pushToRemote options m)))
    = (if viaSalesforce then acknowledgeAll Salesforce selected else fun x => x)
        ((if viaCloudflare then acknowledgeAll Cloudflare selected else fun x => x) rs).
Proof.
  unfold pushToRemote, pushTo.
  destruct (cloudflare m) as [c|];
    [destruct (storeState (kvSet c) _) as [r1|e1]; [destruct (ok r1)|]|];
    (destruct (salesforce m) as [sf|];
     [destruct (syncState sf) as [r2|e2]; [destruct (ok r2)|]|]);
    cbn [snd localState withRecords withLocalState records];
    first [ exists true, true; reflexivity | exists true, false; reflexivity
          | exists false, true; reflexivity | exists false, false; reflexivity ].
Qed.

Variable P : JsMap StateRecord -> Prop.
Variable fromRemote : string * StateRecord -> Prop.
Hypothesis P_pullEntry :
  forall policy acc e, fromRemote e -> P (mg_records acc) ->
                       P (mg_records (pullEntry policy acc e)).
Hypothesis P_adopt :
  forall clock type idPrefix acc item,
    P (fst acc) -> P (fst (adoptCRM clock type idPrefix acc item)).
Hypothesis P_acknowledge :
  forall s selected rs, P rs -> P (acknowledgeAll s selected rs).

Lemma pull_preserves (policy : ConflictResolution) (es : list (string * StateRecord))
    (acc : Merge) :
  Forall fromRemote es -> P (mg_records acc) ->
  P (mg_records (fold_left (pullEntry policy) es acc)).
Proof.
  intros Hes. revert acc. induction Hes as [|e es He Hes IH]; intros acc Hacc; [exact Hacc|].
  cbn [fold_left]. apply IH, P_pullEntry; assumption.
Qed.

Lemma adoptAll_preserves (clock : Clock) (type idPrefix : string)
    (items : list SalesforceRecord) (acc : JsMap StateRecord * nat) :
  P (fst acc) -> P (fst (fold_left (adoptCRM clock type idPrefix) items acc)).
Proof.
  revert acc. induction items as [|item items IH]; intros acc Hacc; [exact Hacc|].
  cbn [fold_left]. apply IH, P_adopt, Hacc.
Qed.

Lemma mergeCRMState_preserves (clock : Clock) (crm : CRMState)
    (acc : JsMap StateRecord * nat) :
  P (fst acc) -> P (fst (mergeCRMState clock crm acc)).
Proof.
  intros H. unfold mergeCRMState. repeat apply adoptAll_preserves. exact H.
Qed.

(** A property of the records map that the loops of [sync] keep is kept by
    [sync], whatever its direction. *)
Lemma sync_preserves (clock : Clock) (options : SyncOptions) (m : StateManager) :
  (forall c, cloudflare m = Some c -> Forall fromRemote (pulledEntries c)) ->
  P (records (localState m)) ->
  P (records (localState (snd (sync clock options m)))).
Proof.
  intros Hremote HP.
  assert (Hpull : forall m0, cloudflare m0 = cloudflare m ->
                             records (localState m0) = records (localState m) ->
                             P (records (localState (snd (fst (pullFromRemote clock 0 m0)))))).
  { intros m0 Hc Hr. rewrite records_pullFromRemote.
    assert (H1 : P (afterCloudflare m0)).
    { unfold afterCloudflare. rewrite Hc, Hr. destruct (cloudflare m) as [c|]; [|exact HP].
      apply pull_preserves; [apply Hremote; reflexivity|exact HP]. }
    unfold afterSalesforce. destruct (salesforce m0) as [sf|]; [|exact H1].
    destruct (getCRMState sf) as [crm|msg]; [|exact H1].
    destruct (ok crm); [|exact H1]. destruct (payload crm) as [data|]; [|exact H1].
    apply (mergeCRMState_preserves clock data (afterCloudflare m0, 0)). exact H1. }
  assert (Hpush : forall m1, P (records (localState m1)) ->
                             P (records (localState (snd (pushToRemote options m1))))).
  { intros m1 H1. destruct (records_pushToRemote options m1) as (b1 & b2 & E).
    rewrite E. destruct b1, b2; auto. }
  unfold sync. destruct (syncInProgress m); [exact HP|].
  specialize (Hpull (withSyncInProgress m true) eq_refl eq_refl).
  destruct (orDefault (direction options) bidirectional).
  - specialize (Hpush (withSyncInProgress m true) HP).
    destruct (pushToRemote options (withSyncInProgress m true)) as [pushResult m2].
    exact Hpush.
  - destruct (pullFromRemote clock 0 (withSyncInProgress m true)) as [[pullResult m1] t1].
    exact Hpull.
  - destruct (pullFromRemote clock 0 (withSyncInProgress m true)) as [[pullResult m1] t1].
    cbn [fst snd] in Hpull. specialize (Hpush m1 Hpull).
    destruct (pushToRemote options m1) as [pushResult m2]. exact Hpush.
Qed.

End SyncKeeps.

Section Acknowledge.

Lemma mapHas_mapSet_keep (V : Type) (k k' : string) (v : V) (m : JsMap V) :
  mapHas k m = true -> mapHas k (mapSet k' v m) = true.
Proof.
  unfold mapHas. intros H. destruct (String.eqb_spec k k') as [->|Hne].
  - rewrite mapGet_mapSet_same. reflexivity.
  - rewrite mapGet_mapSet_other by exact Hne. exact H.
Qed.

Lemma mapGet_acknowledgeAll (s : Store) (selected : list string) (rs : JsMap StateRecord)
    (k : string) :
  mapGet k (acknowledgeAll s selected rs)
  = option_map (fun r => if includes k selected then acknowledge s r else r) (mapGet k rs).
Proof.
  unfold mapGet, acknowledgeAll. induction rs as [|[k' r] rs IH]; [reflexivity|].
  cbn [map fst snd]. destruct (includes k' selected) eqn:Hin; cbn [getProp fst];
    destruct (String.eqb_spec k' k) as [->|Hne]; try exact IH;
    cbn [option_map]; rewrite ?Hin; reflexivity.
Qed.

Lemma acknowledgedFrom_refl (r : StateRecord) : acknowledgedFrom r r.
Proof. split; [destruct r; reflexivity|apply incl_refl]. Qed.

Lemma acknowledgedFrom_trans (a b c : StateRecord) :
  acknowledgedFrom a b -> acknowledgedFrom b c -> acknowledgedFrom a c.
Proof.
  intros [Hab Iab] [Hbc Ibc]. split; [|eapply incl_tran; eassumption].
  rewrite Hbc at 1. rewrite Hab. reflexivity.
Qed.

Lemma acknowledgedFrom_acknowledge (s : Store) (r : StateRecord) :
  acknowledgedFrom r (acknowledge s r).
Proof.
  unfold acknowledge. destruct (existsb _ _); [apply acknowledgedFrom_refl|].
  split; [reflexivity|]. cbn [withSyncedTo r_syncedTo]. apply incl_appl, incl_refl.
Qed.

Lemma acknowledgeAll_get (s : Store) (selected : list string) (rs : JsMap StateRecord)
    (k : string) :
  match mapGet k rs, mapGet k (acknowledgeAll s selected rs) with
  | Some r, Some r' => acknowledgedFrom r r'
  | None, None => True
  | _, _ => False
  end.
Proof.
  rewrite mapGet_acknowledgeAll. destruct (mapGet k rs) as [r|]; cbn [option_map]; [|exact I].
  destruct (includes k selected); [apply acknowledgedFrom_acknowledge|apply acknowledgedFrom_refl].
Qed.

End Acknowledge.


(** X15: whatever the direction and the replies, and also when it is
    rejected, [sync] reports success exactly when its [failed] list is
    empty; it leaves the in-progress flag as it found it and the clients
    and the policy untouched. *)
Theorem sync_result_shape (clock : Clock) (options : SyncOptions) (m : StateManager) :
  let out := sync clock options m in
  success (fst out) = isEmpty (failed (fst out))
  /\ syncInProgress (snd out) = syncInProgress m
  /\ cloudflare (snd out) = cloudflare m
  /\ salesforce (snd out) = salesforce m
  /\ conflictResolution (snd out) = conflictResolution m.
Proof.
  unfold sync. destruct (syncInProgress m) eqn:Hbusy; [repeat split; exact Hbusy|].
  assert (Hpush : forall m1, let m2 := snd (pushToRemote options m1) in
            cloudflare m2 = cloudflare m1 /\ salesforce m2 = salesforce m1
            /\ conflictResolution m2 = conflictResolution m1).
  { intros m1. unfold pushToRemote.
    destruct (match cloudflare m1 with Some _ => _ | None => _ end) as [[rs1 s1] f1].
    destruct (match salesforce m1 with Some _ => _ | None => _ end) as [[rs2 s2] f2].
    repeat split. }
  pose proof (pullFromRemote_manager clock 0 (withSyncInProgress m true)) as Hpull.
  destruct (orDefault (direction options) bidirectional).
  - specialize (Hpush (withSyncInProgress m true)).
    destruct (pushToRemote options (withSyncInProgress m true)) as [pushResult m2].
    cbn [fst snd] in *. repeat split; apply Hpush.
  - destruct (pullFromRemote clock 0 (withSyncInProgress m true)) as [[pullResult m1] t1].
    cbn [fst snd] in *. repeat split; apply Hpull.
  - destruct (pullFromRemote clock 0 (withSyncInProgress m true)) as [[pullResult m1] t1].
    specialize (Hpush m1). destruct (pushToRemote options m1) as [pushResult m2].
    cbn [fst snd] in *. destruct Hpull as (H1 & H2 & H3), Hpush as (H4 & H5 & H6).
    cbn [withSyncInProgress withLocalState syncInProgress cloudflare salesforce
         conflictResolution] in *.
    repeat split; congruence.
Qed.

(** X16: [sync] never removes a record: an id the store holds before a
    sync, it holds after it, whatever the direction, the policy and the
    replies of the remote stores. *)
Theorem sync_never_deletes (clock : Clock) (options : SyncOptions) (m : StateManager)
    (id : string) :
  mapHas id (records (localState m)) = true ->
  mapHas id (records (localState (snd (sync clock options m)))) = true.
Proof.
  apply (@sync_preserves (fun rs => mapHas id rs = true) (fun _ => True)).
  - intros policy acc [k r] _ H. unfold pullEntry.
    destruct (mapGet k (mg_records acc)) as [l|].
    + destruct (negb _); [|exact H].
      destruct (snd (resolveConflict policy l r)); cbn [mg_records]; [|exact H].
      apply mapHas_mapSet_keep, H.
    + cbn [mg_records]. apply mapHas_mapSet_keep, H.
  - intros c type idPrefix acc item H.
    eapply mapHas_extends; [apply adoptCRM_extends|exact H].
  - intros s selected rs H. unfold mapHas in *. rewrite mapGet_acknowledgeAll.
    destruct (mapGet id rs); [reflexivity|discriminate].
  - intros c _. apply Forall_forall. intros e _. exact I.
Qed.

Lemma sync_never_deletes_witness :
  mapHas "deployment_9" (records (localState (diverged remote))) = true
  /\ mapHas "deployment_9"
            (records (localState (snd (sync morning noOptions (diverged remote))))) = true.
Proof.
  split; [reflexivity|].
  exact (@sync_never_deletes morning noOptions (diverged remote) "deployment_9" eq_refl).
Defined.

(** X17: if every local record and every remote record that is merged
    carries the fingerprint of its data, then so does every record of the
    store after [sync]: the loops copy fingerprints and data together and
    never one without the other. *)
Theorem sync_keeps_fingerprints (clock : Clock) (options : SyncOptions) (m : StateManager) :
  (forall c, cloudflare m = Some c -> Forall (fun e => intact (snd e)) (pulledEntries c)) ->
  (forall id r, get id m = Some r -> intact r) ->
  forall id r, get id (snd (sync clock options m)) = Some r -> intact r.
Proof.
  intros Hremote. unfold get.
  apply (@sync_preserves (fun rs => forall id r, mapGet id rs = Some r -> intact r)
                         (fun e => intact (snd e))); [| | |exact Hremote].
  - intros policy acc [k r] Hr H id r0. cbn [snd] in Hr. unfold pullEntry.
    assert (Hset : forall v, intact v ->
              mapGet id (mapSet k v (mg_records acc)) = Some r0 -> intact r0).
    { intros v Hv. destruct (String.eqb_spec id k) as [->|Hne].
      - rewrite mapGet_mapSet_same. intros E. injection E as <-. exact Hv.
      - rewrite mapGet_mapSet_other by exact Hne. apply H. }
    destruct (mapGet k (mg_records acc)) as [l|] eqn:Hl.
    + destruct (negb _); [|apply H].
      destruct (resolveConflict_cases policy l r) as [[Hk|Hk]|Hk]; rewrite Hk;
        cbn [mg_records]; [apply Hset, (H k), Hl|apply H|apply Hset, Hr].
    + cbn [mg_records]. apply Hset, Hr.
  - intros c type idPrefix [rs t] item H id r0. unfold adoptCRM.
    destruct (mapHas (idPrefix ++ Id item) rs); cbn [fst] in *; [apply H|].
    destruct (String.eqb_spec id (idPrefix ++ Id item)) as [->|Hne].
    + rewrite mapGet_mapSet_same. intros E. injection E as <-. reflexivity.
    + rewrite mapGet_mapSet_other by exact Hne. apply H.
  - intros s selected rs H id r0. rewrite mapGet_acknowledgeAll.
    destruct (mapGet id rs) as [r|] eqn:Hr; [|discriminate]. cbn [option_map].
    intros E. injection E as <-. specialize (H id r Hr). unfold intact in *.
    destruct (includes id selected); [|exact H].
    unfold acknowledge. destruct (existsb _ _); exact H.
Qed.

Lemma sync_keeps_fingerprints_witness :
  intact localEdit
  /\ match get "deployment_9" (snd (sync morning noOptions (diverged remote))) with
     | Some r => intact r
     | None => True
     end.
Proof.
  assert (Hlocal : intact localEdit).
  { unfold intact, localEdit. cbn [r_hash r_data]. reflexivity. }
  split; [exact Hlocal|].
  destruct (get "deployment_9" (snd (sync morning noOptions (diverged remote))))
    as [r|] eqn:Hr; [|exact I].
  refine (@sync_keeps_fingerprints morning noOptions (diverged remote) _ _ "deployment_9" r Hr).
  - intros c E. injection E as <-.
    assert (Es : pulledEntries honestClient = [("deployment_9", remoteDeployment)])
      by (vm_compute; reflexivity).
    rewrite Es. constructor; [|constructor].
    unfold intact, remoteDeployment. cbn [snd r_hash r_data]. reflexivity.
  - intros id r0. unfold get, diverged, mapGet. cbn [localState records getProp fst snd].
    destruct (String.eqb "deployment_9" id); [|discriminate].
    intros E. injection E as <-. exact Hlocal.
Defined.

Section Push.

Lemma Store_eqb_eq (a b : Store) : Store_eqb a b = true <-> a = b.
Proof. destruct a, b; split; intros H; try reflexivity; discriminate. Qed.

Lemma acknowledge_In (s : Store) (r : StateRecord) : In s (r_syncedTo (acknowledge s r)).
Proof.
  unfold acknowledge. destruct (existsb (Store_eqb s) (r_syncedTo r)) eqn:E.
  - apply existsb_exists in E. destruct E as (x & Hx & Hs).
    apply Store_eqb_eq in Hs. subst x. exact Hx.
  - cbn [withSyncedTo r_syncedTo]. apply in_or_app. right. left. reflexivity.
Qed.

Lemma two_members (A : Type) (a b : A) (l : list A) :
  a <> b -> In a l -> In b l -> 2 <= List.length l.
Proof.
  intros Hne Ha Hb. destruct l as [|x [|y l]]; cbn [List.length]; [destruct Ha| |lia].
  destruct Ha as [<-|[]], Hb as [<-|[]]. exfalso. apply Hne. reflexivity.
Qed.

Lemma acknowledged_by_both (r : StateRecord) :
  2 <= List.length (r_syncedTo (acknowledge Salesforce (acknowledge Cloudflare r))).
Proof.
  apply (@two_members Store Cloudflare Salesforce); [discriminate| |apply acknowledge_In].
  apply (acknowledgedFrom_acknowledge Salesforce (acknowledge Cloudflare r)), acknowledge_In.
Qed.

Lemma keys_acknowledgeAll (s : Store) (selected : list string) (rs : JsMap StateRecord) :
  keys (acknowledgeAll s selected rs) = keys rs.
Proof.
  unfold keys, acknowledgeAll. rewrite map_map. apply map_ext. intros e.
  destruct (includes (fst e) selected); reflexivity.
Qed.

Lemma pushToRemote_store (options : SyncOptions) (m : StateManager) :
  snd (pushToRemote options m)
  = withRecords m (records (localState (snd (pushToRemote options m)))).
Proof.
  unfold pushToRemote.
  destruct (match cloudflare m with Some _ => _ | None => _ end) as [[rs1 s1] f1].
  destruct (match salesforce m with Some _ => _ | None => _ end) as [[rs2 s2] f2].
  reflexivity.
Qed.

Lemma selected_key (options : SyncOptions) (rs : JsMap StateRecord) (e : string * StateRecord) :
  In e rs -> needsSync options (snd e) = true ->
  includes (fst e) (keys (filter (fun e => needsSync options (snd e)) rs)) = true.
Proof.
  intros Hin Hneeds. unfold includes. apply existsb_exists. exists (fst e). split.
  - unfold keys. apply in_map, filter_In. split; assumption.
  - apply String.eqb_refl.
Qed.

Lemma filter_none (A : Type) (f : A -> bool) (l : list A) :
  (forall x, In x l -> f x = false) -> filter f l = [].
Proof.
  induction l as [|a l IH]; intros H; [reflexivity|]. cbn [filter].
  rewrite (H a) by (left; reflexivity). apply IH. intros x Hx. apply H. right. exact Hx.
Qed.

End Push.

(** X18: the push phase changes no record except to add acknowledgements:
    the store has the same ids in the same order, every record is the one
    it was but for a [syncedTo] list that contains the former one, and
    [lastSync] and the store hash are as they were. *)
Theorem pushToRemote_only_acknowledges (options : SyncOptions) (m : StateManager) :
  let m' := snd (pushToRemote options m) in
  keys (records (localState m')) = keys (records (localState m))
  /\ (forall id, match get id m, get id m' with
                 | Some r, Some r' => acknowledgedFrom r r'
                 | None, None => True
                 | _, _ => False
                 end)
  /\ lastSync (localState m') = lastSync (localState m)
  /\ stateHash (localState m') = stateHash (localState m).
Proof.
  cbn zeta. split; [|split; [|rewrite pushToRemote_store; split; reflexivity]].
  - destruct (records_pushToRemote options m) as (viaCloudflare & viaSalesforce & E).
    rewrite E. destruct viaCloudflare, viaSalesforce;
      rewrite ?keys_acknowledgeAll; reflexivity.
  - intros id. unfold get.
    destruct (records_pushToRemote options m) as (viaCloudflare & viaSalesforce & E).
    rewrite E. clear E.
    set (selected := keys (filter (fun e => needsSync options (snd e)) (records (localState m)))).
    set (rs := records (localState m)).
    pose proof (acknowledgeAll_get Cloudflare selected rs id) as H1.
    pose proof (acknowledgeAll_get Salesforce selected rs id) as H2.
    pose proof (acknowledgeAll_get Salesforce selected (acknowledgeAll Cloudflare selected rs) id)
      as H3.
    destruct viaCloudflare, viaSalesforce; try assumption.
    + destruct (mapGet id rs) as [r|], (mapGet id (acknowledgeAll Cloudflare selected rs)) as [r1|];
        try contradiction;
        destruct (mapGet id (acknowledgeAll Salesforce selected
                                            (acknowledgeAll Cloudflare selected rs))) as [r2|];
        try contradiction; [|exact I].
      eapply acknowledgedFrom_trans; eassumption.
    + destruct (mapGet id rs); [apply acknowledgedFrom_refl|exact I].
Qed.

(** X19: when both stores are configured and accept the push, and no type
    filter is given, the push reports no failure and leaves no record
    pending: each has two acknowledgements or more. *)
Theorem pushToRemote_full (options : SyncOptions) (m : StateManager)
    (c : CloudflareClient) (sf : SalesforceClient)
    (stored : APIResponse bool) (upserted : APIResponse string) :
  cloudflare m = Some c -> kvSet c = Returns stored -> ok stored = true ->
  salesforce m = Some sf -> syncState sf = Returns upserted -> ok upserted = true ->
  includeTypes options = None -> excludeTypes options = None ->
  let out := pushToRemote options m in
  failed (fst out) = []
  /\ pendingSync (getSyncStatus (snd out)) = 0
  /\ List.length (synced (fst out)) = 2 * List.length (recordsToSync options m).
Proof.
  intros Hc Hset Hok1 Hsf Hsync Hok2 Hinc Hexc. cbn zeta.
  unfold pushToRemote, storeState, pushTo. rewrite Hc, Hsf, Hset, Hsync.
  cbn [ok]. rewrite Hok1, Hok2. cbn [fst snd failed synced app]. repeat split.
  - unfold getSyncStatus.
    cbn [pendingSync localState withRecords withLocalState records].
    rewrite filter_none; [reflexivity|]. intros r Hr. unfold values in Hr.
    apply in_map_iff in Hr. destruct Hr as (e2 & <- & He2).
    unfold acknowledgeAll in He2. apply in_map_iff in He2. destruct He2 as (e1 & <- & He1).
    apply in_map_iff in He1. destruct He1 as (e & <- & He).
    apply Nat.ltb_ge.
    destruct (includes (fst e) _) eqn:Hsel; cbn [fst snd]; rewrite Hsel; cbn [snd].
    + apply acknowledged_by_both.
    + destruct (needsSync options (snd e)) eqn:Hneeds.
      * rewrite (selected_key options _ e He Hneeds) in Hsel. discriminate.
      * unfold needsSync in Hneeds. rewrite Hinc, Hexc in Hneeds.
        apply Bool.orb_false_iff in Hneeds. apply Nat.ltb_ge, Hneeds.
  - rewrite length_app, !length_map. lia.
Qed.

Lemma pushToRemote_full_witness :
  pendingSync (getSyncStatus accepting) = 1
  /\ pendingSync (getSyncStatus (snd (pushToRemote noOptions accepting))) = 0.
Proof.
  split; [reflexivity|].
  exact (proj1 (proj2 (@pushToRemote_full noOptions accepting _ _ _ _
                         eq_refl eq_refl eq_refl eq_refl eq_refl eq_refl eq_refl eq_refl))).
Defined.

(** X20: a store that answers the push without throwing, but without
    success, is neither acknowledged nor reported: when every configured
    store answers so, a push-only [sync] says it succeeded, with nothing
    synced and nothing failed, and the records are as they were. *)
Theorem sync_push_unsuccessful_reply (clock : Clock) (options : SyncOptions)
    (m : StateManager) :
  syncInProgress m = false -> direction options = Some push ->
  (forall c, cloudflare m = Some c -> exists reply, kvSet c = Returns reply /\ ok reply = false) ->
  (forall sf, salesforce m = Some sf ->
              exists reply, syncState sf = Returns reply /\ ok reply = false) ->
  fst (sync clock options m) = mkStateSyncResult true [] [] []
  /\ records (localState (snd (sync clock options m))) = records (localState m).
Proof.
  intros Hidle Hdir Hcf Hsf. unfold sync. rewrite Hidle, Hdir. cbn [orDefault].
  unfold pushToRemote, storeState, pushTo.
  cbn [cloudflare salesforce withSyncInProgress localState].
  destruct (cloudflare m) as [c|].
  - destruct (Hcf c eq_refl) as (r1 & -> & Hok1). rewrite Hok1.
    destruct (salesforce m) as [sf|].
    + destruct (Hsf sf eq_refl) as (r2 & -> & Hok2). rewrite Hok2. split; reflexivity.
    + split; reflexivity.
  - destruct (salesforce m) as [sf|].
    + destruct (Hsf sf eq_refl) as (r2 & -> & Hok2). rewrite Hok2. split; reflexivity.
    + split; reflexivity.
Qed.

Lemma sync_push_unsuccessful_reply_witness :
  fst (sync morning pushOnly refusing) = mkStateSyncResult true [] [] []
  /\ records (localState (snd (sync morning pushOnly refusing))) = records (localState refusing).
Proof.
  apply (@sync_push_unsuccessful_reply morning pushOnly refusing eq_refl eq_refl).
  - intros c E. injection E as <-. eexists. split; reflexivity.
  - intros sf E. injection E as <-. eexists. split; reflexivity.
Defined.

(** X21: a throw of the Cloudflare store does not keep the push from
    Salesforce: the failure is reported under [cloudflare:] and every
    selected record is reported, and acknowledged, for Salesforce
    alone. *)
Theorem pushToRemote_isolates_failure (options : SyncOptions) (m : StateManager)
    (c : CloudflareClient) (sf : SalesforceClient) (e : option string)
    (upserted : APIResponse string) :
  cloudflare m = Some c -> kvSet c = Throws e ->
  salesforce m = Some sf -> syncState sf = Returns upserted -> ok upserted = true ->
  let out := pushToRemote options m in
  failed (fst out) = ["cloudflare:" ++ describe e]
  /\ synced (fst out) = map (fun r => "salesforce:" ++ r_id r) (recordsToSync options m)
  /\ forall r, In r (recordsToSync options m) ->
               exists r', In r' (values (records (localState (snd out))))
                          /\ acknowledgedFrom r r' /\ In Salesforce (r_syncedTo r')
                          /\ (In Cloudflare (r_syncedTo r') -> In Cloudflare (r_syncedTo r)).
Proof.
  intros Hc Hset Hsf Hsync Hok. cbn zeta.
  unfold pushToRemote, storeState, pushTo. rewrite Hc, Hsf, Hset, Hsync, Hok.
  cbn [fst snd failed synced app storeName]. repeat split.
  intros r Hr. unfold recordsToSync, values in Hr. apply filter_In in Hr.
  destruct Hr as [Hr Hneeds]. apply in_map_iff in Hr. destruct Hr as (e0 & <- & He0).
  exists (acknowledge Salesforce (snd e0)). repeat split.
  - cbn [localState withRecords withLocalState records]. unfold values, acknowledgeAll.
    rewrite map_map. apply in_map_iff. exists e0. split; [|exact He0].
    rewrite (selected_key options _ e0 He0 Hneeds). reflexivity.
  - apply (acknowledgedFrom_acknowledge Salesforce (snd e0)).
  - apply (acknowledgedFrom_acknowledge Salesforce (snd e0)).
  - apply acknowledge_In.
  - unfold acknowledge. destruct (existsb _ _); [exact (fun H => H)|].
    cbn [withSyncedTo r_syncedTo]. intros H. apply in_app_or in H.
    destruct H as [H|[H|[]]]; [exact H|discriminate].
Qed.

Lemma pushToRemote_isolates_failure_witness :
  failed (fst (pushToRemote noOptions edgeDown)) = ["cloudflare:fetch failed"].
Proof.
  exact (proj1 (@pushToRemote_isolates_failure noOptions edgeDown _ _ _ _
                  eq_refl eq_refl eq_refl eq_refl eq_refl)).
Defined.

Section Pull.

Variable policy : ConflictResolution.

Lemma pull_other (es : list (string * StateRecord)) (acc : Merge) (k : string) :
  ~ In k (keys es) ->
  mapGet k (mg_records (fold_left (pullEntry policy) es acc)) = mapGet k (mg_records acc).
Proof.
  revert acc. induction es as [|e es IH]; intros acc Hk; [reflexivity|].
  cbn [fold_left]. rewrite IH.
  - apply pullEntry_other. intros ->. apply Hk. left. reflexivity.
  - intros H. apply Hk. right. exact H.
Qed.

Lemma pull_adopts (es : list (string * StateRecord)) (acc : Merge) (id : string)
    (r : StateRecord) :
  NoDup (keys es) -> In (id, r) es -> mapGet id (mg_records acc) = None ->
  mapGet id (mg_records (fold_left (pullEntry policy) es acc))
  = Some (withSyncedTo r [Cloudflare]).
Proof.
  revert acc. induction es as [|e es IH]; intros acc Hnd Hin Hnone; [destruct Hin|].
  unfold keys in Hnd. cbn [map] in Hnd. inversion Hnd as [|k ks Hk Hnd']. subst k ks.
  cbn [fold_left]. destruct Hin as [->|Hin].
  - rewrite pull_other by exact Hk. unfold pullEntry. rewrite Hnone.
    cbn [mg_records]. apply mapGet_mapSet_same.
  - apply IH; [exact Hnd'|exact Hin|]. rewrite pullEntry_other; [exact Hnone|].
    intros ->. apply Hk. apply (in_map fst) in Hin. exact Hin.
Qed.

Lemma mapSet_same_extends (k : string) (l : StateRecord) (rs : JsMap StateRecord) :
  mapGet k rs = Some l -> extends rs (mapSet k l rs).
Proof.
  intros Hl k' l' Hk'. destruct (String.eqb_spec k' k) as [->|Hne].
  - rewrite mapGet_mapSet_same. congruence.
  - rewrite mapGet_mapSet_other by exact Hne. exact Hk'.
Qed.

Lemma mapSet_new_extends (k : string) (v : StateRecord) (rs : JsMap StateRecord) :
  mapGet k rs = None -> extends rs (mapSet k v rs).
Proof.
  intros Hnone k' l' Hk'. destruct (String.eqb_spec k' k) as [->|Hne].
  - congruence.
  - rewrite mapGet_mapSet_other by exact Hne. exact Hk'.
Qed.

Lemma pullEntry_keeps_local (acc : Merge) (e : string * StateRecord) :
  policy = local \/ policy = manual ->
  extends (mg_records acc) (mg_records (pullEntry policy acc e)).
Proof.
  intros Hpolicy. destruct e as [k r]. unfold pullEntry.
  destruct (mapGet k (mg_records acc)) as [l|] eqn:Hl.
  - destruct (negb _); [|apply extends_refl].
    destruct Hpolicy as [-> | ->]; cbn [resolveConflict snd mg_records];
      [apply mapSet_same_extends, Hl|apply extends_refl].
  - cbn [mg_records]. apply mapSet_new_extends, Hl.
Qed.

Lemma pull_keeps_local (es : list (string * StateRecord)) (acc : Merge) :
  policy = local \/ policy = manual ->
  extends (mg_records acc) (mg_records (fold_left (pullEntry policy) es acc)).
Proof.
  intros Hpolicy. revert acc. induction es as [|e es IH]; intros acc; [apply extends_refl|].
  cbn [fold_left]. eapply extends_trans; [apply pullEntry_keeps_local, Hpolicy|apply IH].
Qed.

End Pull.

Lemma afterSalesforce_extends (clock : Clock) (t : nat) (m : StateManager)
    (rs : JsMap StateRecord) :
  extends rs (afterSalesforce clock t m rs).
Proof.
  unfold afterSalesforce. destruct (salesforce m) as [sf|]; [|apply extends_refl].
  destruct (getCRMState sf) as [crm|e]; [|apply extends_refl].
  destruct (ok crm); [|apply extends_refl]. destruct (payload crm); [|apply extends_refl].
  apply (mergeCRMState_extends clock c (rs, t)).
Qed.

(** X22: a pull adopts every record of a valid remote blob whose id the
    store does not hold, as the remote copy with Cloudflare for its only
    acknowledgement; so a record deleted locally comes back with the next
    pull as long as the blob holds it. *)
Theorem pullFromRemote_adopts (clock : Clock) (t : nat) (m : StateManager)
    (c : CloudflareClient) (id : string) (r : StateRecord) :
  cloudflare m = Some c -> NoDup (keys (pulledEntries c)) ->
  In (id, r) (pulledEntries c) -> get id m = None ->
  get id (snd (fst (pullFromRemote clock t m))) = Some (withSyncedTo r [Cloudflare]).
Proof.
  intros Hc Hnd Hin Hnone. unfold get. rewrite records_pullFromRemote.
  apply afterSalesforce_extends. unfold afterCloudflare. rewrite Hc.
  apply pull_adopts; assumption.
Qed.

Lemma pullFromRemote_adopts_witness :
  get "deployment_9" (snd (delete "deployment_9" (diverged manual))) = None
  /\ get "deployment_9"
         (snd (fst (pullFromRemote morning 0 (snd (delete "deployment_9" (diverged manual))))))
     = Some (withSyncedTo remoteDeployment [Cloudflare]).
Proof.
  assert (Hnone : get "deployment_9" (snd (delete "deployment_9" (diverged manual))) = None)
    by reflexivity.
  split; [exact Hnone|].
  apply (@pullFromRemote_adopts morning 0 (snd (delete "deployment_9" (diverged manual)))
           honestClient "deployment_9" remoteDeployment eq_refl).
  - vm_compute. repeat constructor. intros [].
  - vm_compute. left. reflexivity.
  - exact Hnone.
Defined.

(** X23: under the policies [local] and [manual] a pull overwrites
    nothing: every record the store held is still there unchanged, and the
    pull can only have added records. *)
Theorem pullFromRemote_keeps_local (clock : Clock) (t : nat) (m : StateManager) :
  conflictResolution m = local \/ conflictResolution m = manual ->
  forall id r, get id m = Some r -> get id (snd (fst (pullFromRemote clock t m))) = Some r.
Proof.
  intros Hpolicy id r. unfold get. rewrite records_pullFromRemote. intros Hr.
  apply afterSalesforce_extends. unfold afterCloudflare.
  destruct (cloudflare m) as [c|]; [|exact Hr].
  apply (pull_keeps_local (pulledEntries c) (mkMerge (records (localState m)) [] []) Hpolicy).
  exact Hr.
Qed.

Lemma pullFromRemote_keeps_local_witness :
  get "deployment_9" (snd (fst (pullFromRemote morning 0 (diverged local)))) = Some localEdit.
Proof.
  exact (@pullFromRemote_keeps_local morning 0 (diverged local) (or_introl eq_refl)
           "deployment_9" localEdit eq_refl).
Defined.

(** X24: [mergeCRMState] keeps every record the store held, leaves the
    store with a record for each account, contact and opportunity of the
    CRM state, and changes nothing when run again on its own outcome. *)
Theorem mergeCRMState_adds_missing (clock : Clock) (crm : CRMState)
    (rs : JsMap StateRecord) (t : nat) :
  let out := mergeCRMState clock crm (rs, t) in
  extends rs (fst out) /\ covers (fst out) crm
  /\ mergeCRMState clock crm out = out.
Proof.
  cbn zeta. split; [|split].
  - apply (mergeCRMState_extends clock crm (rs, t)).
  - apply mergeCRMState_covers.
  - destruct (mergeCRMState clock crm (rs, t)) as [rs' t'] eqn:E.
    apply mergeCRMState_covered. change rs' with (fst (rs', t')). rewrite <- E.
    apply mergeCRMState_covers.
Qed.

(** X25: the store hash stays the fingerprint of the records and
    [lastSync] through [update], [delete], [importState] and a pull,
    whether or not they change the store. *)
Theorem store_hash_stays_current (m : StateManager) :
  hashCurrent m ->
  (forall now id data, hashCurrent (snd (update now id data m)))
  /\ (forall id, hashCurrent (snd (delete id m)))
  /\ (forall state, hashCurrent (importState state m))
  /\ (forall clock t, hashCurrent (snd (fst (pullFromRemote clock t m)))).
Proof.
  intros H. split; [|split; [|split]].
  - intros now id data. apply update_current, H.
  - intros id. apply delete_current, H.
  - intros state. apply importState_current.
  - intros clock t. apply pullFromRemote_current.
Qed.

Lemma store_hash_stays_current_witness :
  hashCurrent (snd deployed)
  /\ hashCurrent (snd (delete (r_id (fst deployed)) (snd deployed))).
Proof.
  assert (H : hashCurrent (snd deployed)) by (vm_compute; reflexivity).
  split; [exact H|].
  exact (proj1 (proj2 (@store_hash_stays_current (snd deployed) H)) (r_id (fst deployed))).
Defined.

Section Retry.

Variable T : Type.
Variable operation : nat -> Attempt T.
Variable maxRetries : Z.

Lemma retryLoop_outcome (budget attempt : nat) (lastError : option string) :
  (Z.of_nat attempt + Z.of_nat budget = maxRetries + 1)%Z -> 0 < budget ->
  exists k,
    attempt <= k /\ (Z.of_nat k <= maxRetries)%Z
    /\ (forall j, attempt <= j < k -> decisive (operation j) = false)
    /\ (decisive (operation k) = true \/ Z.of_nat k = maxRetries)
    /\ retryLoop operation maxRetries budget attempt lastError = replyOf (operation k).
Proof.
  revert attempt lastError.
  induction budget as [|budget IH]; intros attempt lastError Hsum Hpos; [lia|].
  cbn [retryLoop]. destruct (operation attempt) as [data|errorMessage] eqn:E.
  - exists attempt. rewrite E. split; [lia|]. split; [lia|]. split; [intros j Hj; lia|].
    split; [left|]; reflexivity.
  - cbn [parseError retryable].
    destruct (isRetryableError errorMessage) eqn:Hretry; cbn [negb orb].
    + destruct (Z.eqb_spec (Z.of_nat attempt) maxRetries) as [Hlast|Hmore].
      * exists attempt. rewrite E. split; [lia|]. split; [lia|]. split; [intros j Hj; lia|].
        split; [right; exact Hlast|]. unfold replyOf, parseError. rewrite ?Hretry. reflexivity.
      * destruct (IH (S attempt) (Some errorMessage)) as (k & Hk & Hle & Hbefore & Hends & Hout);
          [lia|lia|].
        exists k. split; [lia|]. split; [exact Hle|]. split; [|split; assumption].
        intros j Hj. destruct (Nat.eq_dec j attempt) as [->|Hne].
        -- rewrite E. cbn [decisive]. rewrite Hretry. reflexivity.
        -- apply Hbefore. lia.
    + exists attempt. rewrite E. split; [lia|]. split; [lia|]. split; [intros j Hj; lia|].
      split.
      * left. cbn [decisive]. rewrite Hretry. reflexivity.
      * unfold replyOf, parseError. rewrite ?Hretry. reflexivity.
Qed.

Lemma retryLoop_ext (operation' : nat -> Attempt T) (budget attempt : nat)
    (lastError : option string) :
  (Z.of_nat attempt + Z.of_nat budget <= maxRetries + 1)%Z ->
  (forall n, (Z.of_nat n <= maxRetries)%Z -> operation n = operation' n) ->
  retryLoop operation maxRetries budget attempt lastError
  = retryLoop operation' maxRetries budget attempt lastError.
Proof.
  intros Hsum Hsame. revert attempt lastError Hsum.
  induction budget as [|budget IH]; intros attempt lastError Hsum; [reflexivity|].
  cbn [retryLoop]. rewrite <- Hsame by lia.
  destruct (operation attempt) as [data|errorMessage]; [reflexivity|].
  destruct (negb _ || _); [reflexivity|]. apply IH. lia.
Qed.

End Retry.

Section Patterns.

Lemma toLowerCase_append (a b : string) :
  toLowerCase (a ++ b) = toLowerCase a ++ toLowerCase b.
Proof. induction a as [|c a IH]; cbn [toLowerCase append]; [|rewrite IH]; reflexivity. Qed.

Lemma lowerChar_twice (c : ascii) : lowerChar (lowerChar c) = lowerChar c.
Proof.
  destruct c as [[] [] [] [] [] [] [] []]; reflexivity.
Qed.

Lemma toLowerCase_twice (s : string) : toLowerCase (toLowerCase s) = toLowerCase s.
Proof.
  induction s as [|c s IH]; cbn [toLowerCase]; [|rewrite lowerChar_twice, IH]; reflexivity.
Qed.

Lemma prefix_append (p s t : string) :
  String.prefix p s = true -> String.prefix p (s ++ t) = true.
Proof.
  revert s. induction p as [|a p IH]; intros s H; [destruct (s ++ t); reflexivity|].
  destruct s as [|b s]; [discriminate|]. cbn [append String.prefix] in *.
  destruct (Ascii.ascii_dec a b); [apply IH, H|discriminate].
Qed.

Lemma includesText_append_r (p s t : string) :
  includesText p s = true -> includesText p (s ++ t) = true.
Proof.
  induction s as [|b s IH]; cbn [includesText append]; intros H.
  - rewrite Bool.orb_false_r in H. destruct p; [|discriminate]. destruct t; reflexivity.
  - apply Bool.orb_true_iff in H. apply Bool.orb_true_iff. destruct H as [H|H].
    + left. apply (prefix_append p (String b s) t H).
    + right. apply IH, H.
Qed.

Lemma includesText_append_l (p s t : string) :
  includesText p t = true -> includesText p (s ++ t) = true.
Proof.
  intros H. induction s as [|b s IH]; [exact H|]. cbn [append includesText].
  rewrite IH. apply Bool.orb_true_r.
Qed.

End Patterns.

(** X26: with a retry count that is not negative, [executeWithRetry]
    answers with the outcome of one attempt, the first that gives data or
    fails with an error that is not retryable, or else the last allowed
    one: data become a successful response, an error an unsuccessful one
    carrying that error. *)
Theorem executeWithRetry_outcome (T : Type) (maxRetries : Z) (operation : nat -> Attempt T) :
  (0 <= maxRetries)%Z ->
  exists k,
    (Z.of_nat k <= maxRetries)%Z
    /\ (forall j, j < k -> decisive (operation j) = false)
    /\ (decisive (operation k) = true \/ Z.of_nat k = maxRetries)
    /\ executeWithRetry maxRetries operation = replyOf (operation k).
Proof.
  intros Hpos. unfold executeWithRetry.
  destruct (@retryLoop_outcome T operation maxRetries (Z.to_nat (maxRetries + 1)) 0 None)
    as (k & _ & Hle & Hbefore & Hends & Hout); [lia|lia|].
  exists k. split; [exact Hle|]. split; [|split; assumption].
  intros j Hj. apply Hbefore. lia.
Qed.

Lemma executeWithRetry_outcome_witness :
  exists k,
    (Z.of_nat k <= 3)%Z
    /\ (forall j, j < k -> decisive (thirdTime j) = false)
    /\ (decisive (thirdTime k) = true \/ Z.of_nat k = 3%Z)
    /\ executeWithRetry 3 thirdTime = replyOf (thirdTime k).
Proof.
  apply (@executeWithRetry_outcome string 3 thirdTime). lia.
Defined.

(** X27: [executeWithRetry] calls the operation [maxRetries + 1] times at
    most: two operations that agree on these attempts get the same
    response; with a negative count there is no attempt at all and the
    response is the error [UNKNOWN_ERROR], not retryable. *)
Theorem executeWithRetry_bounded (T : Type) (maxRetries : Z) (operation : nat -> Attempt T) :
  (forall operation' : nat -> Attempt T,
      (forall n, (Z.of_nat n <= maxRetries)%Z -> operation n = operation' n) ->
      executeWithRetry maxRetries operation = executeWithRetry maxRetries operation')
  /\ ((maxRetries < 0)%Z ->
      executeWithRetry maxRetries operation
      = mkAPIResponse false None (Some (mkAPIError "UNKNOWN_ERROR" "Unknown error" false))).
Proof.
  split.
  - intros operation' Hsame. unfold executeWithRetry.
    destruct (Z_lt_le_dec maxRetries 0) as [Hneg|Hpos].
    + replace (Z.to_nat (maxRetries + 1)) with 0 by lia. reflexivity.
    + apply retryLoop_ext; [lia|exact Hsame].
  - intros Hneg. unfold executeWithRetry.
    replace (Z.to_nat (maxRetries + 1)) with 0 by lia. reflexivity.
Qed.

(** X28: whether an error is retryable does not depend on the case of its
    message, and a retryable message stays retryable inside a longer
    one. *)
Theorem isRetryableError_in_context (errorMessage : string) :
  isRetryableError (toLowerCase errorMessage) = isRetryableError errorMessage
  /\ (isRetryableError errorMessage = true ->
      forall before after,
        isRetryableError (before ++ errorMessage ++ after) = true).
Proof.
  unfold isRetryableError. split; [rewrite toLowerCase_twice; reflexivity|].
  intros H before after. apply existsb_exists in H. destruct H as (pattern & Hin & Hp).
  apply existsb_exists. exists pattern. split; [exact Hin|].
  rewrite !toLowerCase_append. apply includesText_append_l, includesText_append_r, Hp.
Qed.

Section Queue.

Lemma compareTasks_refl (a : AgentTask) : (compareTasks a a <= 0)%Z.
Proof.
  unfold compareTasks. rewrite Z.sub_diag. cbn [Z.eqb negb].
  destruct (getTime (t_createdAt a)); lia.
Qed.

Lemma compareTasks_total (a b : AgentTask) :
  getTime (t_createdAt a) <> None -> getTime (t_createdAt b) <> None ->
  (0 < compareTasks a b)%Z -> (compareTasks b a <= 0)%Z.
Proof.
  unfold compareTasks. intros Ha Hb.
  destruct (getTime (t_createdAt a)) as [x|]; [|contradiction].
  destruct (getTime (t_createdAt b)) as [y|]; [|contradiction].
  destruct (Z.eqb_spec (priorityOrder (t_priority a) - priorityOrder (t_priority b)) 0),
           (Z.eqb_spec (priorityOrder (t_priority b) - priorityOrder (t_priority a)) 0);
    cbn [negb]; lia.
Qed.

Lemma compareTasks_trans (a b c : AgentTask) :
  getTime (t_createdAt a) <> None -> getTime (t_createdAt b) <> None ->
  getTime (t_createdAt c) <> None ->
  (compareTasks a b <= 0)%Z -> (compareTasks b c <= 0)%Z -> (compareTasks a c <= 0)%Z.
Proof.
  unfold compareTasks. intros Ha Hb Hc.
  destruct (getTime (t_createdAt a)) as [x|]; [|contradiction].
  destruct (getTime (t_createdAt b)) as [y|]; [|contradiction].
  destruct (getTime (t_createdAt c)) as [z|]; [|contradiction].
  destruct (Z.eqb_spec (priorityOrder (t_priority a) - priorityOrder (t_priority b)) 0),
           (Z.eqb_spec (priorityOrder (t_priority b) - priorityOrder (t_priority c)) 0),
           (Z.eqb_spec (priorityOrder (t_priority a) - priorityOrder (t_priority c)) 0);
    cbn [negb]; lia.
Qed.

Lemma In_insertSortedBy (A : Type) (compare : A -> A -> Z) (x u : A) (l : list A) :
  In u (insertSortedBy compare x l) <-> u = x \/ In u l.
Proof.
  induction l as [|y l IH]; cbn [insertSortedBy].
  - cbn [In]. intuition.
  - destruct (compare x y <=? 0)%Z; cbn [In]; [intuition|]. rewrite IH. cbn [In]. intuition.
Qed.

Lemma In_sortBy (A : Type) (compare : A -> A -> Z) (u : A) (l : list A) :
  In u (sortBy compare l) <-> In u l.
Proof.
  induction l as [|x l IH]; [reflexivity|].
  unfold sortBy in *. cbn [fold_right]. rewrite In_insertSortedBy, IH. cbn [In]. intuition.
Qed.

Lemma sortBy_head (l : list AgentTask) :
  (forall t, In t l -> getTime (t_createdAt t) <> None) ->
  match hd_error (sortBy compareTasks l) with
  | Some t => In t l /\ forall u, In u l -> (compareTasks t u <= 0)%Z
  | None => l = []
  end.
Proof.
  induction l as [|x l IH]; intros Hdated; [reflexivity|].
  assert (Hx : getTime (t_createdAt x) <> None) by (apply Hdated; left; reflexivity).
  assert (Hl : forall t, In t l -> getTime (t_createdAt t) <> None)
    by (intros t Ht; apply Hdated; right; exact Ht).
  specialize (IH Hl). unfold sortBy in *. cbn [fold_right].
  destruct (fold_right (insertSortedBy compareTasks) [] l) as [|y s] eqn:Es;
    cbn [hd_error insertSortedBy] in *.
  - subst l. split; [left; reflexivity|]. intros u [<-|[]]. apply compareTasks_refl.
  - destruct IH as [Hy Hmin].
    destruct (Z.leb_spec (compareTasks x y) 0) as [Hle|Hgt]; cbn [hd_error].
    + split; [left; reflexivity|]. intros u [<-|Hu]; [apply compareTasks_refl|].
      apply (@compareTasks_trans x y u); auto.
    + split; [right; exact Hy|]. intros u [<-|Hu]; [|apply Hmin, Hu].
      apply compareTasks_total; auto.
Qed.

Lemma count_statuses (l : list AgentTask) :
  List.length l
  = List.length (filter (fun t => TaskStatus_eqb (t_status t) pending_) l)
    + List.length (filter (fun t => TaskStatus_eqb (t_status t) in_progress_) l)
    + List.length (filter (fun t => TaskStatus_eqb (t_status t) completed_) l)
    + List.length (filter (fun t => TaskStatus_eqb (t_status t) failed_) l)
    + List.length (filter (fun t => TaskStatus_eqb (t_status t) blocked_) l).
Proof.
  induction l as [|t l IH]; [reflexivity|]. cbn [filter].
  destruct (t_status t); cbn [TaskStatus_eqb List.length]; lia.
Qed.

End Queue.

(** X29: when the pending tasks carry dates, [getNext] returns a pending
    task that no other pending task precedes, by priority (critical, high,
    medium, low) and then by creation time; it returns nothing exactly
    when no task is pending. *)
Theorem getNext_minimal (q : TaskQueue) :
  datedPending q ->
  match getNext q with
  | Some t =>
      In t (getByStatus pending_ q)
      /\ forall u, In u (getByStatus pending_ q) ->
           (priorityOrder (t_priority t) < priorityOrder (t_priority u))%Z
           \/ (t_priority t = t_priority u
               /\ exists x y, getTime (t_createdAt t) = Some x
                              /\ getTime (t_createdAt u) = Some y /\ (x <= y)%Z)
  | None => getByStatus pending_ q = []
  end.
Proof.
  intros Hdated. unfold getNext.
  pose proof (sortBy_head (getByStatus pending_ q) Hdated) as H.
  destruct (getByStatus pending_ q) as [|p ps] eqn:Ep; [reflexivity|].
  destruct (hd_error (sortBy compareTasks (p :: ps))) as [t|]; [|discriminate].
  destruct H as [Hin Hmin]. split; [exact Hin|]. intros u Hu.
  specialize (Hmin u Hu). unfold compareTasks in Hmin.
  assert (Ht : getTime (t_createdAt t) <> None) by (apply Hdated; rewrite Ep; exact Hin).
  assert (Hu' : getTime (t_createdAt u) <> None) by (apply Hdated; rewrite Ep; exact Hu).
  destruct (getTime (t_createdAt t)) as [x|]; [|contradiction].
  destruct (getTime (t_createdAt u)) as [y|]; [|contradiction].
  destruct (Z.eqb_spec (priorityOrder (t_priority t) - priorityOrder (t_priority u)) 0)
    as [Heq|Hne]; cbn [negb] in Hmin.
  - right. split; [|exists x, y; repeat split; lia].
    destruct (t_priority t), (t_priority u); cbn [priorityOrder] in Heq;
      try reflexivity; lia.
  - left. lia.
Qed.

Lemma getNext_minimal_witness :
  datedPending backlog
  /\ match getNext backlog with
     | Some t =>
         In t (getByStatus pending_ backlog)
         /\ forall u, In u (getByStatus pending_ backlog) ->
              (priorityOrder (t_priority t) < priorityOrder (t_priority u))%Z
              \/ (t_priority t = t_priority u
                  /\ exists x y, getTime (t_createdAt t) = Some x
                                 /\ getTime (t_createdAt u) = Some y /\ (x <= y)%Z)
     | None => getByStatus pending_ backlog = []
     end.
Proof.
  assert (H : datedPending backlog).
  { intros t Ht. vm_compute in Ht. destruct Ht as [<-|[<-|[]]]; vm_compute; discriminate. }
  split; [exact H|]. exact (getNext_minimal H).
Defined.

(** X30: the five status counts of [stats] add up to its total, and the
    pending count is the number of tasks [getByStatus] gives for
    [pending]. *)
Theorem stats_total (q : TaskQueue) :
  total (stats q)
  = pending (stats q) + inProgress (stats q) + completed (stats q)
    + failedTasks (stats q) + blocked (stats q)
  /\ pending (stats q) = List.length (getByStatus pending_ q).
Proof.
  unfold stats. cbn [total pending inProgress completed failedTasks blocked].
  split; [apply count_statuses|reflexivity].
Qed.
